(** * Stage deprecater for AWS Secrets Manager: model and verification

    A shallow embedding of the GitHub action that prunes the oldest
    version-stage label of a secret once the number of manageable labels
    exceeds a threshold.  Two source files are embedded:

    - the entry point exporting [pickOldestStageToDeprecate] and
      [trimStagesWithClient] (module [Trim]), together with its [run] wrapper;
    - the stand-alone [src/index.js] whose [run] inlines the same pipeline
      (module [IndexJs]).

    Conventions of the embedding:
    - a JS [Date] is its time value in milliseconds since the epoch, a [Z]
      (the SDK hands over valid dates; an invalid date is outside the model);
    - a JS string is a [string], the bytes of its well-formed UTF-8
      encoding, as the runner hands the inputs over;
    - [undefined] / [null] in an optional position is [None];
    - a JS [Set] of strings is a [gset string];
    - the JS [Map] [latestByStage] is an association list, because
      [Array.from(map.values())] observes its insertion order;
    - the remote client is a state machine [send]; an [await] that rejects is
      a result [inl err], one that resolves is [inr resp];
    - the [do ... while] pagination loop takes fuel; [None] means the fuel ran
      out, never a JS outcome. *)

From stdpp Require Import base list strings gmap sets sorting.
From Stdlib Require Import ZArith Lia Ascii.

Local Open Scope string_scope.
Local Open Scope Z_scope.
Local Open Scope list_scope.

(** ** Values *)

(** A JS number as the code meets it in a threshold position: [parseInt]
    yields an integer or [NaN]. *)
Inductive JsNumber : Type :=
| NaN
| Num (z : Z).

(** [n <= t] of JS for an array length [n]; any comparison with [NaN] is
    false. *)
Definition js_le (n : nat) (t : JsNumber) : bool :=
  match t with
  | NaN => false
  | Num z => Z.of_nat n <=? z
  end.

(** The pushed object [{ stage, versionId, createdDate }]. *)
Record LabelRecord : Type := mkLabel {
  stage : string;
  versionId : string;
  createdDate : Z
}.

(** A version entry of a listing response. *)
Record Version : Type := mkVersion {
  VersionId : string;
  CreatedDate : option Z;
  VersionStages : option (list string)
}.

(** What [client.send] resolves to.  Only [Versions] and [NextToken] are ever
    read; the reply to an update command has neither. *)
Record Response : Type := mkResponse {
  Versions : option (list Version);
  NextToken : option string
}.

Inductive Command : Type :=
| ListSecretVersionIdsCommand
    (SecretId : string) (IncludeDeprecated : bool)
    (NextToken : option string) (MaxResults : Z)
| UpdateSecretVersionStageCommand
    (SecretId : string) (VersionStage : string) (RemoveFromVersionId : string).

Definition isUpdate (c : Command) : bool :=
  match c with
  | UpdateSecretVersionStageCommand _ _ _ => true
  | _ => false
  end.

Definition isList (c : Command) : bool :=
  match c with
  | ListSecretVersionIdsCommand _ _ _ _ => true
  | _ => false
  end.

(** The [removed] field of a result. *)
Record Removed : Type := mkRemoved {
  removed_stage : string;
  removed_versionId : string
}.

(** The object returned by [trimStagesWithClient]. *)
Record RunResult : Type := mkResult {
  trimmed : bool;
  removed : option Removed;
  count : nat;
  manageableCount : nat
}.

(** Truthiness of a continuation token: [undefined] and the empty string end
    the loop. *)
Definition truthy (tok : option string) : bool :=
  match tok with
  | None => false
  | Some s => negb (String.eqb s "")
  end.

(** ** [Array.prototype.toSorted]

    ECMAScript requires the sort to be stable.  The embedding is a stable
    insertion sort driven by the comparator's sign: an element moves behind
    another only when the comparator is strictly positive. *)
Section ToSorted.
Context {A : Type} (cmp : A → A → Z).

Fixpoint sort_insert (x : A) (l : list A) : list A :=
  match l with
  | [] => [x]
  | y :: ys => if cmp x y <=? 0 then x :: y :: ys else y :: sort_insert x ys
  end.

Definition toSorted (l : list A) : list A := foldr sort_insert [] l.
End ToSorted.

(** ** The JS [Map] [latestByStage]

    Keys keep the position of their first insertion; [set] on a present key
    overwrites the value in place. *)
Section JsMap.
Context {V : Type}.

Fixpoint Map_get (m : list (string * V)) (k : string) : option V :=
  match m with
  | [] => None
  | (k', v) :: rest => if String.eqb k' k then Some v else Map_get rest k
  end.

Fixpoint Map_set (m : list (string * V)) (k : string) (v : V) : list (string * V) :=
  match m with
  | [] => [(k, v)]
  | (k', v') :: rest =>
      if String.eqb k' k then (k', v) :: rest else (k', v') :: Map_set rest k v
  end.

Definition Map_values (m : list (string * V)) : list V := map snd m.
Definition Map_entries (m : list (string * V)) : list (string * V) := m.
End JsMap.

(** ** Collection, shared verbatim by both files

    The body of the inner loops: a version without labels is skipped, every
    label of a version yields one record, and a missing [CreatedDate] becomes
    [new Date(0)]. *)
Definition epoch : Z := 0.

Definition labelsOfVersion (v : Version) : list LabelRecord :=
  match VersionStages v with
  | None => []
  | Some [] => []
  | Some stages =>
      map (λ stage,
             {| stage := stage;
                versionId := VersionId v;
                createdDate := match CreatedDate v with
                               | Some d => d
                               | None => epoch
                               end |})
          stages
  end.

(** [for (const v of resp.Versions || [])]. *)
Definition labelsOfResponse (resp : Response) : list LabelRecord :=
  flat_map labelsOfVersion (default [] (Versions resp)).

Definition listCommand (secretId : string) (nextToken : option string) : Command :=
  ListSecretVersionIdsCommand secretId true nextToken 100.

Section Collector.
Context {S E : Type}.
Context (send : S → Command → S * (E + Response)).

(** The [do ... while (nextToken)] loop.  [calls] is the sequence of
    commands handed to [client.send] so far. *)
Fixpoint collectLoop (fuel : nat) (secretId : string) (st : S)
    (nextToken : option string) (labeled : list LabelRecord)
    (calls : list Command)
    : option (S * list Command * (E + list LabelRecord)) :=
  match fuel with
  | O => None
  | Datatypes.S fuel' =>
      let command := listCommand secretId nextToken in
      match send st command with
      | (st', inl err) => Some (st', calls ++ [command], inl err)
      | (st', inr resp) =>
          let labeled' := labeled ++ labelsOfResponse resp in
          let nextToken' := NextToken resp in
          if truthy nextToken'
          then collectLoop fuel' secretId st' nextToken' labeled' (calls ++ [command])
          else Some (st', calls ++ [command], inr labeled')
      end
  end.

Definition collect (fuel : nat) (secretId : string) (st : S)
    : option (S * list Command * (E + list LabelRecord)) :=
  collectLoop fuel secretId st None [] [].
End Collector.

(** The spec's wording of the selector's answer: a linear scan for the
    leftmost record of minimum [createdDate]. *)
Fixpoint leftmost_oldest (l : list LabelRecord) : option LabelRecord :=
  match l with
  | [] => None
  | x :: xs =>
      match leftmost_oldest xs with
      | None => Some x
      | Some m => if createdDate x <=? createdDate m then Some x else Some m
      end
  end.

(** ** String helpers of the [run] wrappers

    A string is the byte string of its UTF-8 encoding, so the white space of
    [String.prototype.trim] and of [parseInt] (ECMAScript [WhiteSpace] and
    [LineTerminator]: U+0009 to U+000D, U+0020, U+00A0, U+1680, U+2000 to
    U+200A, U+2028, U+2029, U+202F, U+205F, U+3000, U+FEFF) is recognised by
    the bytes of its one, two or three byte encodings. *)

(** White space encoded in one byte: U+0009 to U+000D and U+0020. *)
Definition whiteSpace1 (n0 : nat) : bool :=
  (Nat.leb 9 n0 && Nat.leb n0 13) || Nat.eqb n0 32.

(** White space encoded in two bytes: U+00A0 is C2 A0. *)
Definition whiteSpace2 (n0 n1 : nat) : bool :=
  Nat.eqb n0 194 && Nat.eqb n1 160.

(** White space encoded in three bytes: U+1680 is E1 9A 80; U+2000 to U+200A,
    U+2028, U+2029 and U+202F are E2 80 followed by 80 to 8A, A8, A9, AF;
    U+205F is E2 81 9F; U+3000 is E3 80 80; U+FEFF is EF BB BF. *)
Definition whiteSpace3 (n0 n1 n2 : nat) : bool :=
  (Nat.eqb n0 225 && Nat.eqb n1 154 && Nat.eqb n2 128)
  || (Nat.eqb n0 226 && Nat.eqb n1 128
      && ((Nat.leb 128 n2 && Nat.leb n2 138)
          || Nat.eqb n2 168 || Nat.eqb n2 169 || Nat.eqb n2 175))
  || (Nat.eqb n0 226 && Nat.eqb n1 129 && Nat.eqb n2 159)
  || (Nat.eqb n0 227 && Nat.eqb n1 128 && Nat.eqb n2 128)
  || (Nat.eqb n0 239 && Nat.eqb n1 187 && Nat.eqb n2 191).

(** The text after one leading white-space character, if there is one. *)
Definition stripWhiteSpace (s : string) : option string :=
  match s with
  | EmptyString => None
  | String b0 r0 =>
      if whiteSpace1 (nat_of_ascii b0) then Some r0
      else
        match r0 with
        | EmptyString => None
        | String b1 r1 =>
            if whiteSpace2 (nat_of_ascii b0) (nat_of_ascii b1) then Some r1
            else
              match r1 with
              | EmptyString => None
              | String b2 r2 =>
                  if whiteSpace3 (nat_of_ascii b0) (nat_of_ascii b1) (nat_of_ascii b2)
                  then Some r2
                  else None
              end
        end
  end.

(** The same on the text read backwards: [r] holds the bytes from the last to
    the first, so a trailing white-space character shows its last byte
    first. *)
Definition stripWhiteSpaceEnd (r : string) : option string :=
  match r with
  | EmptyString => None
  | String b2 r0 =>
      if whiteSpace1 (nat_of_ascii b2) then Some r0
      else
        match r0 with
        | EmptyString => None
        | String b1 r1 =>
            if whiteSpace2 (nat_of_ascii b1) (nat_of_ascii b2) then Some r1
            else
              match r1 with
              | EmptyString => None
              | String b0 r2 =>
                  if whiteSpace3 (nat_of_ascii b0) (nat_of_ascii b1) (nat_of_ascii b2)
                  then Some r2
                  else None
              end
        end
  end.

Fixpoint stripAll (strip : string → option string) (fuel : nat) (s : string) : string :=
  match fuel with
  | O => s
  | Datatypes.S fuel' =>
      match strip s with
      | Some rest => stripAll strip fuel' rest
      | None => s
      end
  end.

Definition reverseString (s : string) : string :=
  String.string_of_list_ascii (rev (String.list_ascii_of_string s)).

(** [s.trimStart()]: every character removed shortens the text, so its
    length is fuel enough. *)
Definition trimStart (s : string) : string :=
  stripAll stripWhiteSpace (String.length s) s.

(** [s.trimEnd()]. *)
Definition trimEnd (s : string) : string :=
  reverseString
    (stripAll stripWhiteSpaceEnd (String.length s) (reverseString s)).

(** [s.trim()]. *)
Definition trim (s : string) : string := trimEnd (trimStart s).

(** [s.split(sep)] for a one-character separator. *)
Fixpoint split (sep : ascii) (s : string) : list string :=
  match s with
  | EmptyString => [EmptyString]
  | String c rest =>
      if Ascii.eqb c sep then EmptyString :: split sep rest
      else match split sep rest with
           | [] => [String c EmptyString]
           | h :: t => String c h :: t
           end
  end.

(** [toLowerCase] as far as the comparison with "true" can tell: only A to Z
    map to ASCII letters of that word; no other case mapping of Unicode yields
    a t, r, u or e, so bytes outside A to Z are left alone. *)
Definition lowerAscii (c : ascii) : ascii :=
  let n := nat_of_ascii c in
  if Nat.leb 65 n && Nat.leb n 90 then ascii_of_nat (n + 32) else c.

Fixpoint toLowerCase (s : string) : string :=
  match s with
  | EmptyString => EmptyString
  | String c rest => String (lowerAscii c) (toLowerCase rest)
  end.

(** [a || b] on strings: the empty string is falsy. *)
Definition str_or (a b : string) : string :=
  if String.eqb a "" then b else a.

Definition digitOf (c : ascii) : option Z :=
  let n := nat_of_ascii c in
  if Nat.leb 48 n && Nat.leb n 57 then Some (Z.of_nat (n - 48)) else None.

Fixpoint parseDigits (s : string) (acc : option Z) : option Z :=
  match s with
  | EmptyString => acc
  | String c rest =>
      match digitOf c with
      | Some d => parseDigits rest (Some (10 * default 0 acc + d))
      | None => acc
      end
  end.

(** [parseInt(s, 10)]: leading white space, an optional sign, then the longest
    run of decimal digits; [NaN] when there is none.  The value is kept exact
    (a JS double rounds beyond 2^53). *)
Definition parseInt (s : string) : JsNumber :=
  let s := trimStart s in
  let '(sign, digits) :=
    match s with
    | String "-"%char rest => (-1, rest)
    | String "+"%char rest => (1, rest)
    | _ => (1, s)
    end in
  match parseDigits digits None with
  | None => NaN
  | Some n => Num (sign * n)
  end.

(** [String(b)] for a boolean. *)
Definition String_of_bool (b : bool) : string :=
  if b then "true" else "false".

(** [new Set(raw.split(",").map(s => s.trim()).filter(Boolean))]. *)
Definition parseExcludeStages (excludeStagesRaw : string) : gset string :=
  list_to_set
    (filter (λ s, s ≠ "") (map trim (split ","%char excludeStagesRaw))).

(** ** The [@actions/core] calls a wrapper makes *)
Inductive InfoMessage : Type :=
| FoundManageable (n : nat) (excluded : gset string)
| AtOrUnderThreshold (threshold : JsNumber)
| ThresholdExceeded (n : nat) (threshold : JsNumber)
    (stage versionId : string) (createdDate : Z)
| DryRunSkippingUpdate
| DeprecatedStage (stage versionId : string)
| ManageableStages (manageableCount : nat) (trimmed : bool)
| RemovedStage (stage versionId : string).

Inductive CoreCall : Type :=
| info (message : InfoMessage)
| setOutput (name value : string)
| setFailed (message : string).

Module Trim.

(** [pickOldestStageToDeprecate(stages, threshold)].  [null] and the
    [undefined] of [sorted[0]] on an empty array are both [None]: the caller
    only tests [!candidate]. *)
Definition pickOldestStageToDeprecate
    (stages : list LabelRecord) (threshold : JsNumber) : option LabelRecord :=
  if js_le (length stages) threshold then None
  else
    let sorted := toSorted (λ a b, createdDate a - createdDate b) stages in
    head sorted.

(** One iteration of [for (const e of labeled)] over [latestByStage]. *)
Definition latestStep (excludeStages : gset string)
    (latestByStage : list (string * LabelRecord)) (e : LabelRecord)
    : list (string * LabelRecord) :=
  if bool_decide (stage e ∈ excludeStages) then latestByStage
  else
    match Map_get latestByStage (stage e) with
    | None => Map_set latestByStage (stage e) e
    | Some prev =>
        if createdDate e >? createdDate prev
        then Map_set latestByStage (stage e) e
        else latestByStage
    end.

Definition latestByStage (excludeStages : gset string)
    (labeled : list LabelRecord) : list (string * LabelRecord) :=
  fold_left (latestStep excludeStages) labeled [].

(** [Array.from(latestByStage.values())]. *)
Definition uniqueStages (excludeStages : gset string)
    (labeled : list LabelRecord) : list LabelRecord :=
  Map_values (latestByStage excludeStages labeled).

(** The destructured options object; [None] is an absent property. *)
Record Options : Type := mkOptions {
  secretId : string;
  threshold : option JsNumber;
  excludeStages : option (gset string);
  dryRun : option bool
}.

Definition defaultThreshold : JsNumber := Num 18.
Definition defaultExcludeStages : gset string :=
  list_to_set ["AWSCURRENT"; "AWSPREVIOUS"; "AWSPENDING"].

Definition removedOf (candidate : LabelRecord) : Removed :=
  {| removed_stage := stage candidate;
     removed_versionId := versionId candidate |}.

Section WithClient.
Context {S E : Type}.
Context (send : S → Command → S * (E + Response)).

(** [trimStagesWithClient(client, options)].  The answer carries the
    client's final state, the commands sent in order, and either the
    rejection or the returned object. *)
Definition trimStagesWithClient (fuel : nat) (client : S) (options : Options)
    : option (S * list Command * (E + RunResult)) :=
  let secretId := secretId options in
  let threshold := default defaultThreshold (threshold options) in
  let excludeStages := default defaultExcludeStages (excludeStages options) in
  let dryRun := default false (dryRun options) in
  match collect send fuel secretId client with
  | None => None
  | Some (client, calls, inl err) => Some (client, calls, inl err)
  | Some (client, calls, inr labeled) =>
      let uniqueStages := uniqueStages excludeStages labeled in
      match pickOldestStageToDeprecate uniqueStages threshold with
      | None =>
          Some (client, calls,
                inr {| trimmed := false; removed := None;
                       count := length labeled;
                       manageableCount := length uniqueStages |})
      | Some candidate =>
          if dryRun then
            Some (client, calls,
                  inr {| trimmed := false;
                         removed := Some (removedOf candidate);
                         count := length labeled;
                         manageableCount := length uniqueStages |})
          else
            let command :=
              UpdateSecretVersionStageCommand
                secretId (stage candidate) (versionId candidate) in
            match send client command with
            | (client, inl err) => Some (client, calls ++ [command], inl err)
            | (client, inr _) =>
                Some (client, calls ++ [command],
                      inr {| trimmed := true;
                             removed := Some (removedOf candidate);
                             count := length labeled;
                             manageableCount := length uniqueStages |})
            end
      end
  end.

(** The wrapper [run]: [getInput name required] is [core.getInput], which
    may throw for a required input; [errText] is
    [err?.message || String(err)]; [newClient region] is the
    [SecretsManagerClient] constructor. *)
Context (getInput : string → bool → E + string).
Context (errText : E → string).
Context (newClient : string → S).

(** [try { ... } catch (err) { core.setFailed(...) }] around a step that
    may throw before any command was sent. *)
Definition orFail {A : Type} (m : E + A)
    (k : A → option (list Command * list CoreCall))
    : option (list Command * list CoreCall) :=
  match m with
  | inl err => Some ([], [setFailed (errText err)])
  | inr a => k a
  end.

Definition run (fuel : nat) : option (list Command * list CoreCall) :=
  orFail (getInput "secret-id" true) (λ secretId,
  orFail (getInput "aws-region" true) (λ region,
  orFail (getInput "threshold" false) (λ thresholdRaw,
  let threshold := parseInt (str_or thresholdRaw "18") in
  orFail (getInput "dry-run" false) (λ dryRunRaw,
  let dryRun := String.eqb (toLowerCase (str_or dryRunRaw "false")) "true" in
  orFail (getInput "exclude-stages" false) (λ raw,
  let excludeStagesRaw := str_or raw "AWSCURRENT,AWSPREVIOUS,AWSPENDING" in
  let excludeStages := parseExcludeStages excludeStagesRaw in
  let client := newClient region in
  match trimStagesWithClient fuel client
          {| secretId := secretId;
             threshold := Some threshold;
             excludeStages := Some excludeStages;
             dryRun := Some dryRun |} with
  | None => None
  | Some (_, calls, inl err) => Some (calls, [setFailed (errText err)])
  | Some (_, calls, inr result) =>
      Some (calls,
            [info (ManageableStages (manageableCount result) (trimmed result))]
            ++ match removed result with
               | Some r =>
                   [info (RemovedStage (removed_stage r) (removed_versionId r))]
               | None => []
               end
            ++ [setOutput "trimmed" (String_of_bool (trimmed result))])
  end))))).
End WithClient.

End Trim.

Module IndexJs.

(** [labeled.filter(entry => !excludeStages.has(entry.stage))]. *)
Definition manageable (excludeStages : gset string)
    (labeled : list LabelRecord) : list LabelRecord :=
  filter (λ entry, stage entry ∉ excludeStages) labeled.

(** One iteration of [for (const e of manageable)]. *)
Definition latestStep (latestByStage : list (string * LabelRecord))
    (e : LabelRecord) : list (string * LabelRecord) :=
  match Map_get latestByStage (stage e) with
  | None => Map_set latestByStage (stage e) e
  | Some prev =>
      if createdDate e >? createdDate prev
      then Map_set latestByStage (stage e) e
      else latestByStage
  end.

Definition latestByStage (manageable : list LabelRecord)
    : list (string * LabelRecord) :=
  fold_left latestStep manageable [].

(** [([stage, data]) => ({ stage, ...data })]: the spread copies the three
    own properties of [data], the first of which overwrites the key. *)
Definition spreadEntry (entry : string * LabelRecord) : LabelRecord :=
  let '(stage0, data) := entry in
  let fromKey := {| stage := stage0; versionId := versionId data;
                    createdDate := createdDate data |} in
  {| stage := stage data; versionId := versionId fromKey;
     createdDate := createdDate fromKey |}.

Definition uniqueStages (excludeStages : gset string)
    (labeled : list LabelRecord) : list LabelRecord :=
  map spreadEntry
      (Map_entries (latestByStage (manageable excludeStages labeled))).

Section WithClient.
Context {S E : Type}.
Context (send : S → Command → S * (E + Response)).
Context (getInput : string → bool → E + string).
Context (errText : E → string).
Context (newClient : string → S).
(** The [TypeError] of reading [oldest.stage] when [oldest] is
    [undefined]. *)
Context (undefinedRead : E).

Definition orFail {A : Type} (m : E + A)
    (k : A → option (list Command * list CoreCall))
    : option (list Command * list CoreCall) :=
  match m with
  | inl err => Some ([], [setFailed (errText err)])
  | inr a => k a
  end.

(** [run()]: the commands sent to the client and the calls made on
    [core], in order.  The whole body sits in the [try] block, so the promise
    never rejects and the trailing [.catch] handler stays idle. *)
Definition run (fuel : nat) : option (list Command * list CoreCall) :=
  orFail (getInput "secret-id" true) (λ secretId,
  orFail (getInput "aws-region" true) (λ region,
  orFail (getInput "threshold" false) (λ thresholdRaw,
  let threshold := parseInt (str_or thresholdRaw "18") in
  orFail (getInput "dry-run" false) (λ dryRunRaw,
  let dryRun := String.eqb (toLowerCase (str_or dryRunRaw "false")) "true" in
  orFail (getInput "exclude-stages" false) (λ raw,
  let excludeStagesRaw := str_or raw "" in
  let excludeStages := parseExcludeStages excludeStagesRaw in
  let client := newClient region in
  match collect send fuel secretId client with
  | None => None
  | Some (_, calls, inl err) => Some (calls, [setFailed (errText err)])
  | Some (client, calls, inr labeled) =>
      let uniqueStages := uniqueStages excludeStages labeled in
      let found := info (FoundManageable (length uniqueStages) excludeStages) in
      if js_le (length uniqueStages) threshold then
        Some (calls,
              [found; info (AtOrUnderThreshold threshold);
               setOutput "trimmed" "false"])
      else
        let sortedStages :=
          toSorted (λ a b, createdDate a - createdDate b) uniqueStages in
        match head sortedStages with
        | None => Some (calls, [found; setFailed (errText undefinedRead)])
        | Some oldest =>
            let exceeded :=
              info (ThresholdExceeded (length sortedStages) threshold
                      (stage oldest) (versionId oldest) (createdDate oldest)) in
            if dryRun then
              Some (calls,
                    [found; exceeded; info DryRunSkippingUpdate;
                     setOutput "trimmed" "false"])
            else
              let command :=
                UpdateSecretVersionStageCommand
                  secretId (stage oldest) (versionId oldest) in
              match send client command with
              | (_, inl err) =>
                  Some (calls ++ [command],
                        [found; exceeded; setFailed (errText err)])
              | (_, inr _) =>
                  Some (calls ++ [command],
                        [found; exceeded;
                         info (DeprecatedStage (stage oldest) (versionId oldest));
                         setOutput "trimmed" "true"])
              end
        end
  end))))).
End WithClient.

End IndexJs.

(** ** The test double of [index.test.js] *)
Module Mock.

Inductive MockError : Type :=
| MockUpdateError (message : string).

Record MockSecretsManagerClient : Type := mkMock {
  listPages : list Response;
  failOnUpdate : bool;
  calls : list Command;
  _page : nat
}.

Definition new (listPages : list Response) (failOnUpdate : bool)
    : MockSecretsManagerClient :=
  {| listPages := listPages; failOnUpdate := failOnUpdate;
     calls := []; _page := 0 |}.

(** [listPages[Math.min(_page, listPages.length - 1)] || { Versions: [] }]. *)
Definition pageAt (c : MockSecretsManagerClient) : Response :=
  match listPages c with
  | [] => {| Versions := Some []; NextToken := None |}
  | pages =>
      default {| Versions := Some []; NextToken := None |}
              (pages !! Nat.min (_page c) (length pages - 1))
  end.

Definition send (c : MockSecretsManagerClient) (cmd : Command)
    : MockSecretsManagerClient * (MockError + Response) :=
  let c := {| listPages := listPages c; failOnUpdate := failOnUpdate c;
              calls := calls c ++ [cmd]; _page := _page c |} in
  match cmd with
  | ListSecretVersionIdsCommand _ _ _ _ =>
      let page := pageAt c in
      ({| listPages := listPages c; failOnUpdate := failOnUpdate c;
          calls := calls c; _page := Datatypes.S (_page c) |},
       inr {| Versions := Some (default [] (Versions page));
              NextToken := NextToken page |})
  | UpdateSecretVersionStageCommand _ _ _ =>
      if failOnUpdate c
      then (c, inl (MockUpdateError "Update failed (simulated)"))
      else (c, inr {| Versions := None; NextToken := None |})
  end.

Definition makeVersion (versionId : string) (created : Z)
    (stages : list string) : Version :=
  {| VersionId := versionId; CreatedDate := Some created;
     VersionStages := Some stages |}.

End Mock.

(** ** Dates and reserved stage names *)

(** Midnight UTC of a day of January 2024, in milliseconds. *)
Definition jan2024 (day : Z) : Z := 1704067200000 + (day - 1) * 86400000.

Definition reservedStages : gset string :=
  list_to_set ["AWSCURRENT"; "AWSPREVIOUS"; "AWSPENDING"].

(** ** Vocabulary of the statements *)

(** The comparator passed to [toSorted]. *)
Definition byCreatedDate (a b : LabelRecord) : Z := createdDate a - createdDate b.

(** A stable sorted permutation of [l], whatever algorithm produced it. *)
Record StableSortOf (l s : list LabelRecord) : Prop := {
  sso_perm : s ≡ₚ l;
  sso_sorted : StronglySorted (λ a b, createdDate a ≤ createdDate b) s;
  sso_stable : ∀ d, filter (λ x, createdDate x = d) s = filter (λ x, createdDate x = d) l
}.

(** Every entry is filed under its own stage name and no key occurs twice. *)
Definition MapWf (m : list (string * LabelRecord)) : Prop :=
  NoDup m.*1 ∧ Forall (λ kv, stage kv.2 = kv.1) m.

(** The value kept for one stage, in isolation: replaced only by a strictly
    later [createdDate]. *)
Definition latestOf (o : option LabelRecord) (e : LabelRecord) : option LabelRecord :=
  match o with
  | None => Some e
  | Some prev => if createdDate e >? createdDate prev then Some e else Some prev
  end.

Definition recordsOf (s : string) (labeled : list LabelRecord) : list LabelRecord :=
  filter (λ e, stage e = s) labeled.

(** The listing commands a paginated collection sends: the first carries
    [tok], each later one the token of the page before it. *)
Fixpoint listCalls (secretId : string) (tok : option string)
    (pages : list Response) : list Command :=
  match pages with
  | [] => []
  | p :: ps => ListSecretVersionIdsCommand secretId true tok 100 :: listCalls secretId (NextToken p) ps
  end.

(** The token in hand after [pages] were received. *)
Fixpoint lastToken (tok : option string) (pages : list Response) : option string :=
  match pages with
  | [] => tok
  | p :: ps => lastToken (NextToken p) ps
  end.

(** The labels of all versions of all pages, written on the data and not by
    the loop body: page by page, version by version, one record for each
    stage label the version carries, with the version's id and its creation
    date, or time value 0 where the version has none. *)
Definition labelsOfAllVersions (pages : list Response) : list LabelRecord :=
  page ← pages;
  version ← default [] (Versions page);
  label ← default [] (VersionStages version);
  [ {| stage := label;
       versionId := VersionId version;
       createdDate := default 0 (CreatedDate version) |} ].

(** Every page of the list carries a continuation token. *)
Definition allContinue (pages : list Response) : Prop :=
  Forall (λ p, truthy (NextToken p) = true) pages.

Section Served.
Context {S E : Type}.
Context (send : S → Command → S * (E + Response)).

(** The client answers the successive listing commands, starting in state
    [st] with token [tok], with exactly [pages], and ends in state [st']. *)
Fixpoint served (secretId : string) (st : S) (tok : option string)
    (pages : list Response) (st' : S) : Prop :=
  match pages with
  | [] => st' = st
  | p :: ps =>
      ∃ st1, send st (ListSecretVersionIdsCommand secretId true tok 100) = (st1, inr p)
             ∧ served secretId st1 (NextToken p) ps st'
  end.
End Served.

(** The options after their defaults were applied. *)
Definition thresholdOf (options : Trim.Options) : JsNumber :=
  default Trim.defaultThreshold (Trim.threshold options).
Definition excludeStagesOf (options : Trim.Options) : gset string :=
  default Trim.defaultExcludeStages (Trim.excludeStages options).
Definition dryRunOf (options : Trim.Options) : bool :=
  default false (Trim.dryRun options).

(** The selection a run makes from what it collected. *)
Definition candidateOf (options : Trim.Options) (labeled : list LabelRecord)
    : option LabelRecord :=
  Trim.pickOldestStageToDeprecate
    (Trim.uniqueStages (excludeStagesOf options) labeled) (thresholdOf options).

Definition removeCommand (options : Trim.Options) (candidate : LabelRecord) : Command :=
  UpdateSecretVersionStageCommand
    (Trim.secretId options) (stage candidate) (versionId candidate).

Definition resultOf (options : Trim.Options) (labeled : list LabelRecord)
    (trimmed : bool) (removed : option Removed) : RunResult :=
  {| trimmed := trimmed; removed := removed; count := length labeled;
     manageableCount := length (Trim.uniqueStages (excludeStagesOf options) labeled) |}.

(** ** Test doubles and inputs of the scenarios *)

(** A test double that answers the listing commands from a script of
    replies, so that a listing call can be made to reject. *)
Definition scripted_send (script : list (string + Response)) (cmd : Command)
    : list (string + Response) * (string + Response) :=
  match cmd with
  | ListSecretVersionIdsCommand _ _ _ _ =>
      match script with
      | [] => ([], inr {| Versions := None; NextToken := None |})
      | reply :: rest => (rest, reply)
      end
  | UpdateSecretVersionStageCommand _ _ _ =>
      (script, inr {| Versions := None; NextToken := None |})
  end.

(** Threshold 1; v1 of 1 January labelled stage-a, v2 of 3 January labelled
    stage-b, v3 of 2 January labelled AWSCURRENT. *)
Definition scenario8_page : Response :=
  {| Versions := Some [Mock.makeVersion "v1" (jan2024 1) ["stage-a"];
                       Mock.makeVersion "v2" (jan2024 3) ["stage-b"];
                       Mock.makeVersion "v3" (jan2024 2) ["AWSCURRENT"]];
     NextToken := None |}.

Definition scenario8_labeled : list LabelRecord :=
  [mkLabel "stage-a" "v1" (jan2024 1); mkLabel "stage-b" "v2" (jan2024 3);
   mkLabel "AWSCURRENT" "v3" (jan2024 2)].

Definition scenario8_options (dryRun : bool) : Trim.Options :=
  {| Trim.secretId := "my/secret"; Trim.threshold := Some (Num 1);
     Trim.excludeStages := Some reservedStages; Trim.dryRun := Some dryRun |}.

Definition scenario8_options_default_flag : Trim.Options :=
  {| Trim.secretId := "my/secret"; Trim.threshold := Some (Num 2);
     Trim.excludeStages := Some reservedStages; Trim.dryRun := None |}.

Definition scenario8_client (failOnUpdate : bool) : Mock.MockSecretsManagerClient :=
  Mock.new [scenario8_page] failOnUpdate.

Definition scenario8_listed (failOnUpdate : bool) : Mock.MockSecretsManagerClient :=
  {| Mock.listPages := [scenario8_page]; Mock.failOnUpdate := failOnUpdate;
     Mock.calls := [ListSecretVersionIdsCommand "my/secret" true None 100]; Mock._page := 1 |}.

Definition scenario8_remove : Command :=
  UpdateSecretVersionStageCommand "my/secret" "stage-a" "v1".

Definition scenario8_updated (failOnUpdate : bool) : Mock.MockSecretsManagerClient :=
  {| Mock.listPages := [scenario8_page]; Mock.failOnUpdate := failOnUpdate;
     Mock.calls := [ListSecretVersionIdsCommand "my/secret" true None 100; scenario8_remove];
     Mock._page := 1 |}.

(** Two pages: s1 and s2 with a continuation token, then s3 and AWSCURRENT. *)
Definition scenario9_page1 : Response :=
  {| Versions := Some [Mock.makeVersion "v1" (jan2024 1) ["s1"];
                       Mock.makeVersion "v2" (jan2024 2) ["s2"]];
     NextToken := Some "next-1" |}.

Definition scenario9_page2 : Response :=
  {| Versions := Some [Mock.makeVersion "v3" (jan2024 3) ["s3"];
                       Mock.makeVersion "v4" (jan2024 4) ["AWSCURRENT"]];
     NextToken := None |}.

Definition scenario9_client : Mock.MockSecretsManagerClient :=
  Mock.new [scenario9_page1; scenario9_page2] false.

Definition scenario9_listed : Mock.MockSecretsManagerClient :=
  {| Mock.listPages := [scenario9_page1; scenario9_page2];
     Mock.failOnUpdate := false;
     Mock.calls := [ListSecretVersionIdsCommand "my/secret" true None 100;
                    ListSecretVersionIdsCommand "my/secret" true (Some "next-1") 100];
     Mock._page := 2 |}.

Definition scenario9_updated : Mock.MockSecretsManagerClient :=
  {| Mock.listPages := [scenario9_page1; scenario9_page2];
     Mock.failOnUpdate := false;
     Mock.calls := [ListSecretVersionIdsCommand "my/secret" true None 100;
                    ListSecretVersionIdsCommand "my/secret" true (Some "next-1") 100;
                    UpdateSecretVersionStageCommand "my/secret" "s1" "v1"];
     Mock._page := 2 |}.

Definition scenario9_options : Trim.Options :=
  {| Trim.secretId := "my/secret"; Trim.threshold := Some (Num 2);
     Trim.excludeStages := Some reservedStages; Trim.dryRun := None |}.

(** A script whose second listing call rejects. *)
Definition rejecting_script : list (string + Response) :=
  [inr scenario9_page1; inl "listing failed"].

(** A version listed without creation date, and one created a day before
    1 January 1970. *)
Definition undated_version : Version :=
  {| VersionId := "v-undated"; CreatedDate := None;
     VersionStages := Some ["stage-a"] |}.

Definition pre1970_version : Version :=
  {| VersionId := "v-old"; CreatedDate := Some (-86400000);
     VersionStages := Some ["stage-b"] |}.

(** Two records of one stage with equal timestamps. *)
Definition tie_first : LabelRecord := mkLabel "stage-a" "v1" 5.
Definition tie_last : LabelRecord := mkLabel "stage-a" "v2" 5.

Definition dedup_labeled : list LabelRecord :=
  [mkLabel "s" "v1" 5; mkLabel "t" "v0" 1; mkLabel "s" "v2" 7; mkLabel "s" "v3" 7].

Definition excluded_labeled : list LabelRecord :=
  [mkLabel "AWSCURRENT" "v1" 1; mkLabel "custom" "v2" 2; mkLabel "other" "v3" 3].

Definition three_stages : list LabelRecord :=
  [mkLabel "a" "v1" 5; mkLabel "b" "v2" 3; mkLabel "c" "v3" 3].

(** An invocation that supplies no exclusion list: [core.getInput] yields the
    empty string for it.  The secret has its current version, the oldest, and
    one custom label. *)
Definition inputs_without_exclusions (name : string) (required : bool)
    : Mock.MockError + string :=
  inr (if String.eqb name "secret-id" then "my/secret"
       else if String.eqb name "aws-region" then "eu-west-1"
       else if String.eqb name "threshold" then "1"
       else "").

Definition current_and_custom_page : Response :=
  {| Versions := Some [Mock.makeVersion "v1" (jan2024 1) ["AWSCURRENT"];
                       Mock.makeVersion "v2" (jan2024 2) ["custom"]];
     NextToken := None |}.

Definition mockErrText (err : Mock.MockError) : string :=
  match err with
  | Mock.MockUpdateError message => message
  end.

Definition mockClientFor (region : string) : Mock.MockSecretsManagerClient :=
  Mock.new [current_and_custom_page] false.

Definition mockUndefinedRead : Mock.MockError :=
  Mock.MockUpdateError "Cannot read properties of undefined".

(** ** Vocabulary of the further properties *)

(** A [core.info] line, as opposed to the calls that set the outcome of the
    action. *)
Definition isInfo (c : CoreCall) : bool :=
  match c with
  | info _ => true
  | _ => false
  end.


(** A listing command of the collector for [secretId]: deprecated versions
    included, pages of 100. *)
Definition isListFor (secretId : string) (c : Command) : Prop :=
  ∃ tok, c = ListSecretVersionIdsCommand secretId true tok 100.

(** [pieces.join(",")], the inverse direction of [split(",")]. *)
Fixpoint joinComma (pieces : list string) : string :=
  match pieces with
  | [] => EmptyString
  | [piece] => piece
  | piece :: rest => String.append piece (String ","%char (joinComma rest))
  end.

Fixpoint hasChar (c : ascii) (s : string) : bool :=
  match s with
  | EmptyString => false
  | String c' rest => Ascii.eqb c' c || hasChar c rest
  end.

(** The distinct names of a list in the order of their first occurrence. *)
Fixpoint firstSeen (names : list string) : list string :=
  match names with
  | [] => []
  | s :: rest => s :: filter (λ x, x ≠ s) (firstSeen rest)
  end.

(** The text made of the given bytes. *)
Definition bytes (codes : list nat) : string :=
  String.string_of_list_ascii (map ascii_of_nat codes).

(** The white-space characters of ECMAScript ([WhiteSpace] and
    [LineTerminator]), each as its UTF-8 text, listed by code point. *)
Definition jsWhiteSpace : list string :=
  [ bytes [9]%nat; bytes [10]%nat; bytes [11]%nat; bytes [12]%nat; bytes [13]%nat; bytes [32]%nat;
    bytes [194; 160]%nat;
    bytes [225; 154; 128]%nat;
    bytes [226; 128; 128]%nat; bytes [226; 128; 129]%nat; bytes [226; 128; 130]%nat;
    bytes [226; 128; 131]%nat; bytes [226; 128; 132]%nat; bytes [226; 128; 133]%nat;
    bytes [226; 128; 134]%nat; bytes [226; 128; 135]%nat; bytes [226; 128; 136]%nat;
    bytes [226; 128; 137]%nat; bytes [226; 128; 138]%nat;
    bytes [226; 128; 168]%nat; bytes [226; 128; 169]%nat; bytes [226; 128; 175]%nat;
    bytes [226; 129; 159]%nat;
    bytes [227; 128; 128]%nat;
    bytes [239; 187; 191]%nat ].

(** The texts of a list put one after the other. *)
Definition joinAll (texts : list string) : string :=
  fold_right String.append EmptyString texts.

(** A text that begins, or ends, with a white-space character. *)
Definition whiteSpaceAtStart (s : string) : Prop :=
  ∃ w rest, w ∈ jsWhiteSpace ∧ s = String.append w rest.

Definition whiteSpaceAtEnd (s : string) : Prop :=
  ∃ w before, w ∈ jsWhiteSpace ∧ s = String.append before w.

(** A text without white space around it. *)
Definition unpadded (s : string) : Prop :=
  ¬ whiteSpaceAtStart s ∧ ¬ whiteSpaceAtEnd s.

(** [piece] is [name] with white-space characters, and nothing else, around
    it. *)
Definition paddingOf (name piece : string) : Prop :=
  ∃ lead trail,
    Forall (λ w, w ∈ jsWhiteSpace) lead
    ∧ Forall (λ w, w ∈ jsWhiteSpace) trail
    ∧ piece = String.append (joinAll lead) (String.append name (joinAll trail)).

(** What the test double hands back for a page: [Versions] defaulted to the
    empty array. *)
Definition normalizePage (page : Response) : Response :=
  {| Versions := Some (default [] (Versions page)); NextToken := NextToken page |}.

(** Inputs of an invocation on secret my/secret in eu-west-1. *)
Definition scenario_inputs (threshold dryRun excludeStages : string)
    (name : string) (required : bool) : Mock.MockError + string :=
  inr (if String.eqb name "secret-id" then "my/secret"
       else if String.eqb name "aws-region" then "eu-west-1"
       else if String.eqb name "threshold" then threshold
       else if String.eqb name "dry-run" then dryRun
       else if String.eqb name "exclude-stages" then excludeStages
       else "").

(** An [exclude-stages] input whose second name follows a no-break space
    (U+00A0, the bytes C2 A0). *)
Definition padded_exclusions : string :=
  String.append "AWSCURRENT," (String.append (bytes [194; 160]%nat) "stage-a").

(** A secret whose only label is AWSCURRENT. *)
Definition only_current_page : Response :=
  {| Versions := Some [Mock.makeVersion "v1" (jan2024 1) ["AWSCURRENT"]];
     NextToken := None |}.

Definition only_current_client : Mock.MockSecretsManagerClient :=
  Mock.new [only_current_page] false.

Definition only_current_listed : Mock.MockSecretsManagerClient :=
  {| Mock.listPages := [only_current_page]; Mock.failOnUpdate := false;
     Mock.calls := [ListSecretVersionIdsCommand "my/secret" true None 100]; Mock._page := 1 |}.

Definition negative_threshold_options : Trim.Options :=
  {| Trim.secretId := "my/secret"; Trim.threshold := Some (Num (-1));
     Trim.excludeStages := None; Trim.dryRun := None |}.

(** A double whose single page always carries a continuation token. *)
Definition endless_client : Mock.MockSecretsManagerClient :=
  Mock.new [scenario9_page1] false.

Definition servesEndlessly (c : Mock.MockSecretsManagerClient) : Prop :=
  Mock.listPages c = [scenario9_page1].

Definition mockClientScenario8 (region : string) : Mock.MockSecretsManagerClient :=
  scenario8_client false.

(** * Verification *)

(** ** The selector *)

Lemma head_sort_insert {A : Type} (cmp : A → A → Z) (x : A) (l : list A) :
  head (sort_insert cmp x l) =
  match head l with
  | None => Some x
  | Some y => if cmp x y <=? 0 then Some x else Some y
  end.
Proof.
  destruct l as [|y ys]; simpl; [reflexivity|].
  destruct (cmp x y <=? 0); reflexivity.
Qed.

(** The first element of the sorted copy is what the left-to-right scan for
    the leftmost minimum finds. *)
Lemma head_toSorted_leftmost (l : list LabelRecord) :
  head (toSorted byCreatedDate l) = leftmost_oldest l.
Proof.
  induction l as [|x xs IH]; simpl; [reflexivity|].
  rewrite head_sort_insert, IH.
  destruct (leftmost_oldest xs) as [m|]; [|reflexivity].
  unfold byCreatedDate.
  destruct (Z.leb_spec (createdDate x - createdDate m) 0),
           (Z.leb_spec (createdDate x) (createdDate m)); first [reflexivity | lia].
Qed.

Lemma leftmost_oldest_nonempty (l : list LabelRecord) :
  l ≠ [] → is_Some (leftmost_oldest l).
Proof.
  destruct l as [|x xs]; [congruence|]. intros _. simpl.
  destruct (leftmost_oldest xs); [destruct (_ <=? _)|]; eauto.
Qed.

(** What the scan returns splits the list: strictly younger records before
    it, none older after it. *)
Lemma leftmost_oldest_split (l : list LabelRecord) (r : LabelRecord) :
  leftmost_oldest l = Some r →
  ∃ pre post,
    l = pre ++ r :: post
    ∧ Forall (λ x, createdDate r < createdDate x) pre
    ∧ Forall (λ x, createdDate r ≤ createdDate x) post.
Proof.
  revert r. induction l as [|x xs IH]; intros r Hr; simpl in Hr; [discriminate|].
  destruct (leftmost_oldest xs) as [m|] eqn:Hm.
  - destruct (IH m eq_refl) as (pre & post & -> & Hpre & Hpost).
    destruct (Z.leb_spec (createdDate x) (createdDate m)); inversion Hr; subst.
    + exists [], (pre ++ m :: post). split; [reflexivity|]. split; [constructor|].
      apply Forall_app. split.
      * eapply Forall_impl; [exact Hpre|]. simpl. intros; lia.
      * constructor; [lia|]. eapply Forall_impl; [exact Hpost|]. simpl. intros; lia.
    + exists (x :: pre), post. split; [reflexivity|]. split; [|exact Hpost].
      constructor; [lia | exact Hpre].
  - inversion Hr; subst. destruct xs as [|y ys].
    + exists [], []. repeat split; constructor.
    + exfalso. destruct (leftmost_oldest_nonempty (y :: ys)) as [? Hs]; congruence.
Qed.

(** Such a split determines the record: the leftmost minimum is unique. *)
Lemma leftmost_split_unique (pre post pre' post' : list LabelRecord) (r r' : LabelRecord) :
  pre ++ r :: post = pre' ++ r' :: post' →
  Forall (λ x, createdDate r < createdDate x) pre →
  Forall (λ x, createdDate r ≤ createdDate x) post →
  Forall (λ x, createdDate r' < createdDate x) pre' →
  Forall (λ x, createdDate r' ≤ createdDate x) post' →
  pre = pre' ∧ r = r' ∧ post = post'.
Proof.
  revert pre'. induction pre as [|a pre IH]; intros [|a' pre'] Heq Hpre Hpost Hpre' Hpost';
    simpl in Heq; inversion Heq; subst.
  - done.
  - exfalso. inversion Hpre' as [|? ? Ha _]; subst.
    assert (Hin : r' ∈ pre' ++ r' :: post') by (apply elem_of_app; right; left).
    rewrite Forall_forall in Hpost. specialize (Hpost _ Hin). lia.
  - exfalso. inversion Hpre as [|? ? Ha _]; subst.
    assert (Hin : r ∈ pre ++ r :: post) by (apply elem_of_app; right; left).
    rewrite Forall_forall in Hpost'. specialize (Hpost' _ Hin). lia.
  - inversion Hpre; inversion Hpre'; subst.
    destruct (IH pre') as (-> & -> & ->); auto.
Qed.

Lemma pickOldest_unfold (stages : list LabelRecord) (threshold : JsNumber) :
  Trim.pickOldestStageToDeprecate stages threshold =
  if js_le (length stages) threshold then None else leftmost_oldest stages.
Proof.
  unfold Trim.pickOldestStageToDeprecate.
  destruct (js_le _ _); [reflexivity|]. apply head_toSorted_leftmost.
Qed.

(** A candidate is always one of the records handed to the selector. *)
Lemma pickOldest_elem_of (stages : list LabelRecord) (threshold : JsNumber)
    (r : LabelRecord) :
  Trim.pickOldestStageToDeprecate stages threshold = Some r → r ∈ stages.
Proof.
  rewrite pickOldest_unfold. destruct (js_le _ _); [discriminate|].
  intros H. destruct (leftmost_oldest_split _ _ H) as (pre & post & -> & _).
  apply elem_of_app; right; left.
Qed.

(** C2. For every list of stage records and every non-negative integer
    threshold, [pickOldestStageToDeprecate] returns no candidate when the
    list's length is at most the threshold; otherwise it returns the record of
    minimum [createdDate], and among several records sharing that minimum the
    one that comes first in the input: every record before it is strictly
    younger, no record after it is older.  In both cases the answer is the
    one the spec words as a leftmost-minimum scan. *)
Theorem pickOldestStageToDeprecate_contract
    (stages : list LabelRecord) (threshold : Z) (Hthreshold : 0 ≤ threshold) :
  (Z.of_nat (length stages) ≤ threshold →
     Trim.pickOldestStageToDeprecate stages (Num threshold) = None)
  ∧ (threshold < Z.of_nat (length stages) →
     ∃ pre r post,
       stages = pre ++ r :: post
       ∧ Trim.pickOldestStageToDeprecate stages (Num threshold) = Some r
       ∧ Trim.pickOldestStageToDeprecate stages (Num threshold) = leftmost_oldest stages
       ∧ Forall (λ x, createdDate r < createdDate x) pre
       ∧ Forall (λ x, createdDate r ≤ createdDate x) post).
Proof.
  rewrite pickOldest_unfold. unfold js_le. split; intros Hlen.
  - destruct (Z.leb_spec (Z.of_nat (length stages)) threshold); [reflexivity | lia].
  - destruct (Z.leb_spec (Z.of_nat (length stages)) threshold); [lia|].
    assert (Hne : stages ≠ []) by (intros ->; simpl in *; lia).
    destruct (leftmost_oldest_nonempty stages Hne) as [r Hr].
    destruct (leftmost_oldest_split stages r Hr) as (pre & post & Heq & Hpre & Hpost).
    exists pre, r, post. auto.
Qed.

(** *** Independence from the sorting algorithm

    An engine is free to sort by another stable algorithm.  Any stable sorted
    permutation of the input has the same first element, and the insertion
    sort of the embedding is one. *)
Lemma filter_none_younger (d : Z) (l : list LabelRecord) :
  Forall (λ x, d < createdDate x) l → filter (λ x, createdDate x = d) l = [].
Proof.
  induction 1 as [|x xs Hx _ IH]; [reflexivity|].
  rewrite filter_cons_False by lia. exact IH.
Qed.

Lemma stable_sort_head (l s : list LabelRecord) :
  StableSortOf l s → head s = leftmost_oldest l.
Proof.
  intros [Hperm Hsorted Hstable]. destruct s as [|h t].
  - apply Permutation_nil_l in Hperm. subst. reflexivity.
  - assert (Hne : l ≠ []).
    { intros ->. by apply Permutation_nil_r in Hperm. }
    destruct (leftmost_oldest_nonempty l Hne) as [r Hr]. rewrite Hr. simpl. f_equal.
    destruct (leftmost_oldest_split l r Hr) as (pre & post & -> & Hpre & Hpost).
    assert (Hle : createdDate h ≤ createdDate r).
    { assert (Hin : r ∈ h :: t).
      { rewrite Hperm. apply elem_of_app; right; left. }
      apply elem_of_cons in Hin as [->|Hin]; [lia|].
      apply StronglySorted_inv in Hsorted as [_ Hall].
      rewrite Forall_forall in Hall. auto. }
    assert (Hge : createdDate r ≤ createdDate h).
    { assert (Hin : h ∈ pre ++ r :: post) by (rewrite <- Hperm; left).
      apply elem_of_app in Hin as [Hin|Hin].
      - rewrite Forall_forall in Hpre. specialize (Hpre _ Hin). lia.
      - apply elem_of_cons in Hin as [->|Hin]; [lia|].
        rewrite Forall_forall in Hpost. auto. }
    specialize (Hstable (createdDate r)).
    rewrite filter_cons_True in Hstable by lia.
    rewrite filter_app, (filter_none_younger _ pre Hpre) in Hstable.
    rewrite filter_cons_True in Hstable by reflexivity.
    simpl in Hstable. congruence.
Qed.

Lemma sort_insert_perm (x : LabelRecord) (l : list LabelRecord) :
  sort_insert byCreatedDate x l ≡ₚ x :: l.
Proof.
  induction l as [|y ys IH]; simpl; [reflexivity|].
  destruct (_ <=? _); [reflexivity|]. rewrite IH. apply Permutation_swap.
Qed.

Lemma sort_insert_sorted (x : LabelRecord) (l : list LabelRecord) :
  StronglySorted (λ a b, createdDate a ≤ createdDate b) l →
  StronglySorted (λ a b, createdDate a ≤ createdDate b) (sort_insert byCreatedDate x l).
Proof.
  induction 1 as [|y ys Hys IH Hall]; simpl.
  - repeat constructor.
  - unfold byCreatedDate at 1.
    destruct (Z.leb_spec (createdDate x - createdDate y) 0).
    + constructor; [constructor; assumption|].
      constructor; [lia|]. eapply Forall_impl; [exact Hall|]. simpl; intros; lia.
    + constructor; [exact IH|].
      rewrite sort_insert_perm. constructor; [lia | exact Hall].
Qed.

Lemma sort_insert_stable (d : Z) (x : LabelRecord) (l : list LabelRecord) :
  filter (λ a, createdDate a = d) (sort_insert byCreatedDate x l)
  = filter (λ a, createdDate a = d) (x :: l).
Proof.
  induction l as [|y ys IH]; simpl; [reflexivity|].
  unfold byCreatedDate at 1.
  destruct (Z.leb_spec (createdDate x - createdDate y) 0); [reflexivity|].
  destruct (decide (createdDate y = d)) as [Hy|Hy].
  - rewrite (filter_cons_True _ y) by exact Hy. rewrite IH.
    rewrite !(filter_cons_False _ x) by lia.
    rewrite (filter_cons_True _ y) by exact Hy. reflexivity.
  - rewrite (filter_cons_False _ y) by exact Hy. rewrite IH.
    destruct (decide (createdDate x = d)) as [Hx|Hx].
    + rewrite !(filter_cons_True _ x) by exact Hx.
      rewrite (filter_cons_False _ y) by exact Hy. reflexivity.
    + rewrite !(filter_cons_False _ x) by exact Hx.
      rewrite (filter_cons_False _ y) by exact Hy. reflexivity.
Qed.

Lemma toSorted_stable_sort (l : list LabelRecord) :
  StableSortOf l (toSorted byCreatedDate l).
Proof.
  induction l as [|x xs [Hperm Hsorted Hstable]]; simpl.
  - split; [reflexivity | constructor | reflexivity].
  - split.
    + rewrite sort_insert_perm. by constructor.
    + by apply sort_insert_sorted.
    + intros d. rewrite sort_insert_stable.
      destruct (decide (createdDate x = d)) as [Hx|Hx].
      * rewrite !(filter_cons_True _ x) by exact Hx. by rewrite Hstable.
      * rewrite !(filter_cons_False _ x) by exact Hx. by rewrite Hstable.
Qed.

(** ** The [latestByStage] map *)

Lemma Map_get_set_eq {V : Type} (m : list (string * V)) (k : string) (v : V) :
  Map_get (Map_set m k v) k = Some v.
Proof.
  induction m as [|[k' v'] rest IH]; simpl.
  - by rewrite String.eqb_refl.
  - destruct (String.eqb_spec k' k) as [->|Hne]; simpl.
    + by rewrite String.eqb_refl.
    + destruct (String.eqb_spec k' k); [congruence | exact IH].
Qed.

Lemma Map_get_set_ne {V : Type} (m : list (string * V)) (k k' : string) (v : V) :
  k ≠ k' → Map_get (Map_set m k v) k' = Map_get m k'.
Proof.
  intros Hne. induction m as [|[k0 v0] rest IH]; simpl.
  - destruct (String.eqb_spec k k'); [congruence | reflexivity].
  - destruct (String.eqb_spec k0 k) as [->|Hk]; simpl.
    + destruct (String.eqb_spec k k'); [congruence | reflexivity].
    + destruct (String.eqb_spec k0 k'); [reflexivity | exact IH].
Qed.

Lemma Map_get_Some_elem {V : Type} (m : list (string * V)) (k : string) (v : V) :
  Map_get m k = Some v → (k, v) ∈ m.
Proof.
  induction m as [|[k' v'] rest IH]; simpl; [discriminate|].
  destruct (String.eqb_spec k' k) as [->|Hne]; intros H.
  - inversion H; subst. left.
  - right. auto.
Qed.

Lemma Map_get_None_keys {V : Type} (m : list (string * V)) (k : string) :
  Map_get m k = None → k ∉ m.*1.
Proof.
  induction m as [|[k' v'] rest IH]; simpl; intros H.
  - apply not_elem_of_nil.
  - destruct (String.eqb_spec k' k) as [->|Hne]; [discriminate|].
    apply not_elem_of_cons. split; [congruence | auto].
Qed.

Lemma elem_Map_get {V : Type} (m : list (string * V)) (k : string) (v : V) :
  NoDup m.*1 → (k, v) ∈ m → Map_get m k = Some v.
Proof.
  induction m as [|[k' v'] rest IH]; simpl; intros Hnd Hin.
  - by apply elem_of_nil in Hin.
  - apply NoDup_cons in Hnd as [Hk' Hnd].
    apply elem_of_cons in Hin as [Heq|Hin].
    + inversion Heq; subst. by rewrite String.eqb_refl.
    + destruct (String.eqb_spec k' k) as [->|Hne]; [|auto].
      exfalso. apply Hk'. apply list_elem_of_fmap. by exists (k, v).
Qed.

(** Setting a key keeps the order of the keys; a new key goes last. *)
Lemma Map_set_keys {V : Type} (m : list (string * V)) (k : string) (v : V) :
  (Map_set m k v).*1 = if bool_decide (k ∈ m.*1) then m.*1 else m.*1 ++ [k].
Proof.
  induction m as [|[k' v'] rest IH]; [reflexivity|].
  cbn [Map_set]. destruct (String.eqb_spec k' k) as [->|Hne]; rewrite !fmap_cons.
  - cbn [fst]. rewrite bool_decide_eq_true_2 by left. reflexivity.
  - cbn [fst]. rewrite IH. destruct (decide (k ∈ rest.*1)) as [Hin|Hin].
    + rewrite !bool_decide_eq_true_2; [reflexivity | by right | done].
    + rewrite !bool_decide_eq_false_2; [reflexivity | | done].
      apply not_elem_of_cons. split; [congruence | done].
Qed.

Lemma Map_set_NoDup {V : Type} (m : list (string * V)) (k : string) (v : V) :
  NoDup m.*1 → NoDup (Map_set m k v).*1.
Proof.
  intros Hnd. rewrite Map_set_keys. case_bool_decide; [done|].
  apply NoDup_app. split; [done|]. split; [|apply NoDup_singleton].
  intros x Hx Hx'. apply list_elem_of_singleton in Hx'. by subst.
Qed.

Lemma Map_set_elem {V : Type} (m : list (string * V)) (k : string) (v : V)
    (kv : string * V) :
  kv ∈ Map_set m k v → kv = (k, v) ∨ kv ∈ m.
Proof.
  induction m as [|[k' v'] rest IH]; simpl; intros Hin.
  - apply list_elem_of_singleton in Hin. by left.
  - destruct (String.eqb_spec k' k) as [->|Hne].
    + apply elem_of_cons in Hin as [->|Hin]; [by left | right; by right].
    + apply elem_of_cons in Hin as [->|Hin]; [right; left|].
      destruct (IH Hin); [by left | right; by right].
Qed.

Lemma MapWf_nil : MapWf [].
Proof. split; [apply NoDup_nil_2 | constructor]. Qed.

Lemma MapWf_set (m : list (string * LabelRecord)) (e : LabelRecord) :
  MapWf m → MapWf (Map_set m (stage e) e).
Proof.
  intros [Hnd Hkeyed]. split; [by apply Map_set_NoDup|].
  apply Forall_forall. intros kv Hin.
  apply Map_set_elem in Hin as [->|Hin]; [reflexivity|].
  rewrite Forall_forall in Hkeyed. auto.
Qed.

Lemma MapWf_values (m : list (string * LabelRecord)) (x : LabelRecord) :
  MapWf m → (x ∈ Map_values m ↔ Map_get m (stage x) = Some x).
Proof.
  intros [Hnd Hkeyed]. unfold Map_values. split.
  - intros Hin. apply list_elem_of_fmap in Hin as ([k v] & -> & Hin).
    rewrite Forall_forall in Hkeyed. pose proof (Hkeyed _ Hin) as Hk. simpl in *.
    subst k. by apply elem_Map_get.
  - intros Hget. apply Map_get_Some_elem in Hget.
    apply list_elem_of_fmap. by exists (stage x, x).
Qed.

Lemma Trim_latestStep_wf (ex : gset string) (m : list (string * LabelRecord))
    (e : LabelRecord) :
  MapWf m → MapWf (Trim.latestStep ex m e).
Proof.
  intros Hwf. unfold Trim.latestStep. case_bool_decide; [done|].
  destruct (Map_get m (stage e)); [destruct (_ >? _)|]; auto using MapWf_set.
Qed.

Lemma Trim_latestStep_get (ex : gset string) (m : list (string * LabelRecord))
    (e : LabelRecord) (s : string) :
  Map_get (Trim.latestStep ex m e) s =
  if bool_decide (stage e = s ∧ s ∉ ex) then latestOf (Map_get m s) e
  else Map_get m s.
Proof.
  unfold Trim.latestStep. destruct (decide (stage e = s)) as [<-|Hne].
  - destruct (decide (stage e ∈ ex)) as [Hex|Hex].
    + rewrite bool_decide_eq_true_2 by done.
      rewrite bool_decide_eq_false_2 by tauto. reflexivity.
    + rewrite bool_decide_eq_false_2 by done.
      rewrite bool_decide_eq_true_2 by tauto.
      destruct (Map_get m (stage e)) as [prev|] eqn:Hget; simpl.
      * destruct (_ >? _); [apply Map_get_set_eq | exact Hget].
      * apply Map_get_set_eq.
  - rewrite (bool_decide_eq_false_2 (_ ∧ _)) by tauto.
    case_bool_decide; [reflexivity|].
    destruct (Map_get m (stage e)); [destruct (_ >? _)|];
      first [reflexivity | by apply Map_get_set_ne].
Qed.

Lemma Trim_fold_wf (ex : gset string) (labeled : list LabelRecord)
    (m : list (string * LabelRecord)) :
  MapWf m → MapWf (fold_left (Trim.latestStep ex) labeled m).
Proof.
  revert m. induction labeled as [|e l IH]; intros m Hwf; simpl; [done|].
  apply IH. by apply Trim_latestStep_wf.
Qed.

(** Stages do not interfere: what the map holds for [s] after the scan is
    the per-stage fold over the records of [s] alone. *)
Lemma Trim_fold_get (ex : gset string) (labeled : list LabelRecord)
    (m : list (string * LabelRecord)) (s : string) :
  Map_get (fold_left (Trim.latestStep ex) labeled m) s =
  if bool_decide (s ∈ ex) then Map_get m s
  else fold_left latestOf (recordsOf s labeled) (Map_get m s).
Proof.
  revert m. induction labeled as [|e l IH]; intros m; simpl.
  - by case_bool_decide.
  - rewrite IH, Trim_latestStep_get. unfold recordsOf.
    destruct (decide (s ∈ ex)) as [Hex|Hex].
    + rewrite (bool_decide_eq_true_2 (s ∈ ex)) by done.
      rewrite bool_decide_eq_false_2 by tauto. reflexivity.
    + rewrite (bool_decide_eq_false_2 (s ∈ ex)) by done.
      destruct (decide (stage e = s)) as [He|He].
      * rewrite bool_decide_eq_true_2 by tauto.
        rewrite filter_cons_True by done. reflexivity.
      * rewrite bool_decide_eq_false_2 by tauto.
        rewrite filter_cons_False by done. reflexivity.
Qed.

Lemma latestOf_fold_app (l : list LabelRecord) (e : LabelRecord)
    (o : option LabelRecord) :
  fold_left latestOf (l ++ [e]) o = latestOf (fold_left latestOf l o) e.
Proof. by rewrite fold_left_app. Qed.

(** The per-stage fold keeps the first record of maximal [createdDate]:
    everything before it is strictly older, nothing after it is later. *)
Lemma latestOf_fold_first_latest (l : list LabelRecord) :
  l ≠ [] →
  ∃ pre r post,
    l = pre ++ r :: post
    ∧ fold_left latestOf l None = Some r
    ∧ Forall (λ x, createdDate x < createdDate r) pre
    ∧ Forall (λ x, createdDate x ≤ createdDate r) post.
Proof.
  induction l as [|e l IH] using rev_ind; [congruence|]. intros _.
  rewrite latestOf_fold_app. destruct l as [|a l'].
  - exists [], e, []. simpl. repeat split; constructor.
  - destruct IH as (pre & r & post & Heq & Hfold & Hpre & Hpost); [congruence|].
    rewrite Hfold, Heq. simpl.
    destruct (Z.gtb_spec (createdDate e) (createdDate r)).
    + exists (pre ++ r :: post), e, []. split; [reflexivity|]. split; [reflexivity|].
      split; [|constructor]. apply Forall_app. split.
      * eapply Forall_impl; [exact Hpre|]. simpl; intros; lia.
      * constructor; [lia|]. eapply Forall_impl; [exact Hpost|]. simpl; intros; lia.
    + exists pre, r, (post ++ [e]). split; [by rewrite <- app_assoc|].
      split; [reflexivity|]. split; [exact Hpre|].
      apply Forall_app. split; [exact Hpost|]. constructor; [lia | constructor].
Qed.

Lemma latestOf_fold_nil_or_in (l : list LabelRecord) (o : option LabelRecord)
    (x : LabelRecord) :
  fold_left latestOf l o = Some x → x ∈ l ∨ o = Some x.
Proof.
  revert o. induction l as [|e l IH]; intros o H; simpl in H; [by right|].
  destruct (IH _ H) as [Hin|Ho]; [left; by right|].
  destruct o as [prev|]; simpl in Ho.
  - destruct (_ >? _); inversion Ho; subst; [left; left | by right].
  - inversion Ho; subst. left; left.
Qed.

(** ** The unique stage index *)

Lemma Trim_uniqueStages_elem (ex : gset string) (labeled : list LabelRecord)
    (x : LabelRecord) :
  x ∈ Trim.uniqueStages ex labeled ↔
  (stage x ∉ ex) ∧ fold_left latestOf (recordsOf (stage x) labeled) None = Some x.
Proof.
  unfold Trim.uniqueStages, Trim.latestByStage.
  rewrite MapWf_values by (apply Trim_fold_wf, MapWf_nil).
  rewrite Trim_fold_get. simpl. case_bool_decide; split.
  - discriminate.
  - tauto.
  - auto.
  - tauto.
Qed.

Lemma uniqueStages_from_labeled (ex : gset string) (labeled : list LabelRecord)
    (x : LabelRecord) :
  x ∈ Trim.uniqueStages ex labeled → x ∈ labeled ∧ (stage x ∉ ex).
Proof.
  rewrite Trim_uniqueStages_elem. intros [Hex Hfold]. split; [|exact Hex].
  apply latestOf_fold_nil_or_in in Hfold as [Hin|?]; [|discriminate].
  unfold recordsOf in Hin. by apply list_elem_of_filter in Hin as [_ Hin].
Qed.

(** At most one record per stage name. *)
Lemma uniqueStages_one_per_stage (ex : gset string) (labeled : list LabelRecord)
    (x y : LabelRecord) :
  x ∈ Trim.uniqueStages ex labeled → y ∈ Trim.uniqueStages ex labeled →
  stage x = stage y → x = y.
Proof.
  rewrite !Trim_uniqueStages_elem. intros [_ Hx] [_ Hy] Heq.
  rewrite Heq in Hx. congruence.
Qed.

Lemma spreadEntry_snd (entry : string * LabelRecord) :
  IndexJs.spreadEntry entry = entry.2.
Proof. destruct entry as [k [s v d]]. reflexivity. Qed.

Lemma IndexJs_fold_eq (ex : gset string) (labeled : list LabelRecord)
    (m : list (string * LabelRecord)) :
  fold_left IndexJs.latestStep (IndexJs.manageable ex labeled) m
  = fold_left (Trim.latestStep ex) labeled m.
Proof.
  revert m. induction labeled as [|e l IH]; intros m; [reflexivity|].
  unfold IndexJs.manageable in *. cbn [fold_left].
  unfold Trim.latestStep at 2. destruct (decide (stage e ∈ ex)) as [Hex|Hex].
  - rewrite filter_cons_False by tauto.
    rewrite bool_decide_eq_true_2 by done. apply IH.
  - rewrite filter_cons_True by done.
    rewrite bool_decide_eq_false_2 by done. cbn [fold_left]. rewrite IH. reflexivity.
Qed.

(** Filtering first and deduplicating afterwards, as [src/index.js] does,
    builds the same index as the single loop of [trimStagesWithClient]. *)
Lemma IndexJs_uniqueStages_eq (ex : gset string) (labeled : list LabelRecord) :
  IndexJs.uniqueStages ex labeled = Trim.uniqueStages ex labeled.
Proof.
  unfold IndexJs.uniqueStages, Trim.uniqueStages, IndexJs.latestByStage,
    Trim.latestByStage, Map_entries, Map_values.
  rewrite IndexJs_fold_eq. apply map_ext. intros entry. apply spreadEntry_snd.
Qed.

(** C3. Whatever was collected, a record whose stage name is in the exclusion
    set is not in the unique stage index handed to the selector and is not the
    candidate, whatever its [createdDate] and whatever the threshold; this
    holds for the loop of [trimStagesWithClient] and for the filter-then-fold
    of [src/index.js], whose candidate is the head of the sorted index. *)
Theorem excluded_stage_never_indexed_nor_selected
    (excludeStages : gset string) (labeled : list LabelRecord)
    (threshold : JsNumber) (e : LabelRecord) :
  stage e ∈ excludeStages →
  (e ∉ Trim.uniqueStages excludeStages labeled)
  ∧ Trim.pickOldestStageToDeprecate
      (Trim.uniqueStages excludeStages labeled) threshold ≠ Some e
  ∧ (e ∉ IndexJs.uniqueStages excludeStages labeled)
  ∧ head (toSorted (λ a b, createdDate a - createdDate b)
            (IndexJs.uniqueStages excludeStages labeled)) ≠ Some e.
Proof.
  intros Hex.
  assert (Hnot : e ∉ Trim.uniqueStages excludeStages labeled).
  { intros Hin. apply uniqueStages_from_labeled in Hin as [_ Hin]. done. }
  rewrite IndexJs_uniqueStages_eq. split; [exact Hnot|]. split; [|split; [exact Hnot|]].
  - intros Hpick. by apply pickOldest_elem_of in Hpick.
  - intros Hhead. change (λ a b, createdDate a - createdDate b) with byCreatedDate in Hhead.
    rewrite head_toSorted_leftmost in Hhead.
    apply leftmost_oldest_split in Hhead as (pre & post & Heq & _).
    apply Hnot. rewrite Heq. apply elem_of_app; right; left.
Qed.

(** C4, with the tie rule of the code. For every stage name outside the exclusion set that
    occurs on collected label records, the unique stage index holds exactly one
    record of that stage, and it is the one with the latest [createdDate];
    when several records of the stage share that latest timestamp, the one
    seen first in the left-to-right scan stays.  Both files build this same
    index. *)
Theorem uniqueStages_latest_first_seen
    (excludeStages : gset string) (labeled : list LabelRecord) (s : string) :
  s ∉ excludeStages →
  recordsOf s labeled ≠ [] →
  ∃ pre r post,
    recordsOf s labeled = pre ++ r :: post
    ∧ Forall (λ x, createdDate x < createdDate r) pre
    ∧ Forall (λ x, createdDate x ≤ createdDate r) post
    ∧ r ∈ Trim.uniqueStages excludeStages labeled
    ∧ (∀ x, x ∈ Trim.uniqueStages excludeStages labeled → stage x = s → x = r)
    ∧ IndexJs.uniqueStages excludeStages labeled
      = Trim.uniqueStages excludeStages labeled.
Proof.
  intros Hex Hne.
  destruct (latestOf_fold_first_latest _ Hne) as (pre & r & post & Heq & Hfold & Hpre & Hpost).
  assert (Hs : stage r = s).
  { assert (Hin : r ∈ recordsOf s labeled) by (rewrite Heq; apply elem_of_app; right; left).
    unfold recordsOf in Hin. by apply list_elem_of_filter in Hin as [? _]. }
  assert (Hr : r ∈ Trim.uniqueStages excludeStages labeled).
  { apply Trim_uniqueStages_elem. rewrite Hs. done. }
  exists pre, r, post. repeat split; try done.
  - intros x Hx Hxs. apply (uniqueStages_one_per_stage excludeStages labeled); congruence.
  - apply IndexJs_uniqueStages_eq.
Qed.

(** ** Runs against a client *)

Section Runs.
Context {S E : Type}.
Context (send : S → Command → S * (E + Response)).

Lemma listCalls_length (secretId : string) (tok : option string)
    (pages : list Response) :
  length (listCalls secretId tok pages) = length pages.
Proof. revert tok. induction pages; intros; simpl; auto. Qed.

Lemma listCalls_app (secretId : string) (tok : option string)
    (pages more : list Response) :
  listCalls secretId tok (pages ++ more)
  = listCalls secretId tok pages ++ listCalls secretId (lastToken tok pages) more.
Proof. revert tok. induction pages; intros; simpl; [|rewrite IHpages]; auto. Qed.

Lemma listCalls_isList (secretId : string) (tok : option string)
    (pages : list Response) :
  Forall (λ c, isUpdate c = false) (listCalls secretId tok pages).
Proof. revert tok. induction pages; intros; simpl; constructor; auto. Qed.

Lemma served_app (secretId : string) (st st' : S) (tok : option string)
    (pages more : list Response) :
  served send secretId st tok (pages ++ more) st' ↔
  ∃ st1, served send secretId st tok pages st1
         ∧ served send secretId st1 (lastToken tok pages) more st'.
Proof.
  revert st tok. induction pages as [|p ps IH]; intros st tok; simpl.
  - split; [intros H; by exists st | by intros (st1 & -> & H)].
  - split.
    + intros (st1 & Hsend & Hrest). apply IH in Hrest as (st2 & H1 & H2).
      exists st2. split; [by exists st1 | done].
    + intros (st2 & (st1 & Hsend & H1) & H2). exists st1. split; [done|].
      apply IH. by exists st2.
Qed.

(** While pages carry tokens the loop keeps going: it consumes one unit of
    fuel per page and accumulates labels and commands. *)
Lemma collectLoop_pages (secretId : string) (pages : list Response) :
  ∀ (fuel : nat) (st st1 : S) (tok : option string)
    (labeled : list LabelRecord) (calls : list Command),
    allContinue pages →
    served send secretId st tok pages st1 →
    collectLoop send (length pages + fuel) secretId st tok labeled calls
    = collectLoop send fuel secretId st1 (lastToken tok pages)
        (labeled ++ flat_map labelsOfResponse pages)
        (calls ++ listCalls secretId tok pages).
Proof.
  induction pages as [|p ps IH]; intros fuel st st1 tok labeled calls Hall Hserved.
  - simpl in *. subst. by rewrite !app_nil_r.
  - apply Forall_cons in Hall as [Hp Hall].
    destruct Hserved as (st2 & Hsend & Hserved).
    cbn [length Nat.add collectLoop]. unfold listCommand. rewrite Hsend, Hp.
    rewrite (IH fuel st2 st1) by done.
    cbn [flat_map listCalls lastToken]. by rewrite <- !app_assoc.
Qed.

(** A full pagination: tokens on all pages but the last. *)
Lemma collect_all_pages (secretId : string) (init : list Response)
    (lastp : Response) (st st' : S) (fuel : nat) :
  allContinue init →
  truthy (NextToken lastp) = false →
  served send secretId st None (init ++ [lastp]) st' →
  (length (init ++ [lastp]) ≤ fuel)%nat →
  collect send fuel secretId st
  = Some (st', listCalls secretId None (init ++ [lastp]),
          inr (flat_map labelsOfResponse (init ++ [lastp]))).
Proof.
  intros Hall Hlast Hserved Hfuel.
  apply served_app in Hserved as (st1 & Hinit & (st2 & Hsend & ->)).
  rewrite length_app in Hfuel. simpl in Hfuel.
  replace fuel with (length init + Datatypes.S (fuel - length init - 1))%nat by lia.
  unfold collect. rewrite (collectLoop_pages secretId init _ st st1) by done.
  cbn [collectLoop]. unfold listCommand. rewrite Hsend, Hlast.
  rewrite listCalls_app, flat_map_app. simpl. by rewrite app_nil_r.
Qed.

(** A pagination cut short by a rejected listing call. *)
Lemma collect_listing_rejects (secretId : string) (init : list Response)
    (st st1 st' : S) (err : E) (fuel : nat) :
  allContinue init →
  served send secretId st None init st1 →
  send st1 (ListSecretVersionIdsCommand secretId true (lastToken None init) 100) = (st', inl err) →
  (length init < fuel)%nat →
  collect send fuel secretId st
  = Some (st', listCalls secretId None init
               ++ [ListSecretVersionIdsCommand secretId true (lastToken None init) 100],
          inl err).
Proof.
  intros Hall Hserved Hsend Hfuel.
  replace fuel with (length init + Datatypes.S (fuel - length init - 1))%nat by lia.
  unfold collect. rewrite (collectLoop_pages secretId init _ st st1) by done.
  cbn [collectLoop]. unfold listCommand. rewrite Hsend. reflexivity.
Qed.

(** Collection sends listing commands only. *)
Lemma collectLoop_only_lists (fuel : nat) :
  ∀ (secretId : string) (st st' : S) (tok : option string)
    (labeled : list LabelRecord) (calls calls' : list Command)
    (out : E + list LabelRecord),
    collectLoop send fuel secretId st tok labeled calls = Some (st', calls', out) →
    ∃ more, calls' = calls ++ more ∧ Forall (λ c, isUpdate c = false) more.
Proof.
  induction fuel as [|fuel IH]; intros secretId st st' tok labeled calls calls' out H;
    simpl in H; [discriminate|].
  unfold listCommand in *.
  destruct (send st (ListSecretVersionIdsCommand secretId true tok 100)) as [st1 [err|resp]].
  - inversion H; subst. exists [ListSecretVersionIdsCommand secretId true tok 100]. split; [done|].
    by repeat constructor.
  - destruct (truthy (NextToken resp)).
    + apply IH in H as (more & -> & Hmore).
      exists (ListSecretVersionIdsCommand secretId true tok 100 :: more). rewrite <- app_assoc. split; [done|].
      by constructor.
    + inversion H; subst. exists [ListSecretVersionIdsCommand secretId true tok 100]. split; [done|].
      by repeat constructor.
Qed.

Lemma collect_only_lists (fuel : nat) (secretId : string) (st st' : S)
    (calls : list Command) (out : E + list LabelRecord) :
  collect send fuel secretId st = Some (st', calls, out) →
  Forall (λ c, isUpdate c = false) calls.
Proof.
  intros H. apply collectLoop_only_lists in H as (more & -> & Hmore). exact Hmore.
Qed.

Lemma filter_isUpdate_none (calls : list Command) :
  Forall (λ c, isUpdate c = false) calls → filter (λ c, isUpdate c = true) calls = [].
Proof.
  induction 1 as [|c cs Hc _ IH]; [reflexivity|].
  rewrite filter_cons_False by congruence. exact IH.
Qed.
End Runs.

(** ** [trimStagesWithClient] *)

Section TrimRuns.
Context {S E : Type}.
Context (send : S → Command → S * (E + Response)).

(** What follows a completed collection, read off the body of the function. *)
Lemma trim_after_collect (fuel : nat) (client client1 : S) (options : Trim.Options)
  (calls : list Command) (labeled : list LabelRecord) :
collect send fuel (Trim.secretId options) client = Some (client1, calls, inr labeled) →
Trim.trimStagesWithClient send fuel client options =
match candidateOf options labeled with
| None => Some (client1, calls, inr (resultOf options labeled false None))
| Some candidate =>
    if dryRunOf options then
      Some (client1, calls,
            inr (resultOf options labeled false (Some (Trim.removedOf candidate))))
    else
      match send client1 (removeCommand options candidate) with
      | (client2, inl err) =>
          Some (client2, calls ++ [removeCommand options candidate], inl err)
      | (client2, inr _) =>
          Some (client2, calls ++ [removeCommand options candidate],
                inr (resultOf options labeled true (Some (Trim.removedOf candidate))))
      end
end.
Proof.
intros Hcollect. unfold Trim.trimStagesWithClient. rewrite Hcollect. reflexivity.
Qed.

Lemma trim_collect_rejects (fuel : nat) (client client1 : S) (options : Trim.Options)
  (calls : list Command) (err : E) :
collect send fuel (Trim.secretId options) client = Some (client1, calls, inl err) →
Trim.trimStagesWithClient send fuel client options = Some (client1, calls, inl err).
Proof.
intros Hcollect. unfold Trim.trimStagesWithClient. rewrite Hcollect. reflexivity.
Qed.

(** C1, for runs whose remove-stage call resolves. In every run in which a candidate is selected, dry-run
  is false and the remove-stage call does not reject, [trimStagesWithClient]
  sends exactly one remove-stage command, after the listing commands, whose
  parameters are the secret id and the candidate's stage and version id, and
  returns [trimmed = true] with [removed] that same pair. *)
Theorem trim_removes_the_candidate_once
  (fuel : nat) (client client1 client2 : S) (options : Trim.Options)
  (calls : list Command) (labeled : list LabelRecord)
  (candidate : LabelRecord) (resp : Response) :
collect send fuel (Trim.secretId options) client = Some (client1, calls, inr labeled) →
candidateOf options labeled = Some candidate →
dryRunOf options = false →
send client1 (removeCommand options candidate) = (client2, inr resp) →
∃ calls' result,
  Trim.trimStagesWithClient send fuel client options = Some (client2, calls', inr result)
  ∧ calls' = calls ++ [UpdateSecretVersionStageCommand
                         (Trim.secretId options) (stage candidate) (versionId candidate)]
  ∧ filter (λ c, isUpdate c = true) calls'
    = [UpdateSecretVersionStageCommand
         (Trim.secretId options) (stage candidate) (versionId candidate)]
  ∧ trimmed result = true
  ∧ removed result = Some {| removed_stage := stage candidate;
                             removed_versionId := versionId candidate |}.
Proof.
intros Hcollect Hcand Hdry Hsend.
rewrite (trim_after_collect _ _ _ _ _ _ Hcollect), Hcand, Hdry, Hsend.
eexists _, _. split; [reflexivity|]. split; [reflexivity|].
split; [|split; reflexivity].
rewrite filter_app, (filter_isUpdate_none calls).
- reflexivity.
- eapply collect_only_lists, Hcollect.
Qed.

(** C6. In every run with dry-run enabled in which a candidate is selected,
  the result has [trimmed = false] and still carries the would-be-removed
  stage and version id, and no remove-stage command is sent. *)
Theorem dry_run_reports_without_mutating
  (fuel : nat) (client client1 : S) (options : Trim.Options)
  (calls : list Command) (labeled : list LabelRecord) (candidate : LabelRecord) :
collect send fuel (Trim.secretId options) client = Some (client1, calls, inr labeled) →
candidateOf options labeled = Some candidate →
dryRunOf options = true →
∃ result,
  Trim.trimStagesWithClient send fuel client options = Some (client1, calls, inr result)
  ∧ trimmed result = false
  ∧ removed result = Some {| removed_stage := stage candidate;
                             removed_versionId := versionId candidate |}
  ∧ filter (λ c, isUpdate c = true) calls = [].
Proof.
intros Hcollect Hcand Hdry.
rewrite (trim_after_collect _ _ _ _ _ _ Hcollect), Hcand, Hdry.
eexists. split; [reflexivity|]. split; [reflexivity|]. split; [reflexivity|].
eapply filter_isUpdate_none, collect_only_lists, Hcollect.
Qed.

(** C10. In every run whose deduplicated manageable stage count is at or
  below the threshold, the answer does not depend on [dryRun]: for any two
  option objects differing at most in that flag the runs coincide, with
  [trimmed = false], no [removed], and no remove-stage command sent. *)
Theorem dry_run_unobservable_at_or_under_threshold
  (fuel : nat) (client client1 : S) (options options' : Trim.Options)
  (calls : list Command) (labeled : list LabelRecord) (threshold : Z) :
collect send fuel (Trim.secretId options) client = Some (client1, calls, inr labeled) →
thresholdOf options = Num threshold →
Z.of_nat (length (Trim.uniqueStages (excludeStagesOf options) labeled)) ≤ threshold →
Trim.secretId options' = Trim.secretId options →
Trim.threshold options' = Trim.threshold options →
Trim.excludeStages options' = Trim.excludeStages options →
∃ result,
  Trim.trimStagesWithClient send fuel client options = Some (client1, calls, inr result)
  ∧ Trim.trimStagesWithClient send fuel client options' = Some (client1, calls, inr result)
  ∧ trimmed result = false
  ∧ removed result = None
  ∧ filter (λ c, isUpdate c = true) calls = [].
Proof.
intros Hcollect Hthr Hlen Hid Hthr' Hex'.
assert (Hnone : candidateOf options labeled = None).
{ unfold candidateOf, Trim.pickOldestStageToDeprecate. rewrite Hthr. unfold js_le.
  destruct (Z.leb_spec
              (Z.of_nat (length (Trim.uniqueStages (excludeStagesOf options) labeled)))
              threshold); [reflexivity | lia]. }
assert (Hnone' : candidateOf options' labeled = None).
{ unfold candidateOf, excludeStagesOf, thresholdOf in *. by rewrite Hthr', Hex'. }
exists (resultOf options labeled false None).
rewrite (trim_after_collect _ _ _ _ _ _ Hcollect), Hnone.
rewrite <- Hid in Hcollect.
rewrite (trim_after_collect _ _ _ _ _ _ Hcollect), Hnone'.
split; [reflexivity|]. split.
- unfold resultOf, excludeStagesOf. by rewrite Hex'.
- split; [reflexivity|]. split; [reflexivity|].
  eapply filter_isUpdate_none, collect_only_lists, Hcollect.
Qed.
(** Run-level form of the exclusion guarantee: no command a run sends removes
    an excluded stage, and no result names one. *)
Lemma trim_never_targets_excluded
    (fuel : nat) (client client' : S) (options : Trim.Options)
    (calls : list Command) (outcome : E + RunResult) :
  Trim.trimStagesWithClient send fuel client options = Some (client', calls, outcome) →
  (∀ secretId stage versionId,
      UpdateSecretVersionStageCommand secretId stage versionId ∈ calls →
      stage ∉ excludeStagesOf options)
  ∧ (∀ result r, outcome = inr result → removed result = Some r →
       removed_stage r ∉ excludeStagesOf options).
Proof.
  destruct (collect send fuel (Trim.secretId options) client)
    as [[[client1 calls1] [err|labeled]]|] eqn:Hcollect.
  - rewrite (trim_collect_rejects _ _ _ _ _ _ Hcollect). intros [= <- <- <-].
    split; [|intros result r [=]].
    intros secretId stg vid Hin. apply collect_only_lists in Hcollect.
    rewrite Forall_forall in Hcollect. specialize (Hcollect _ Hin). discriminate.
  - rewrite (trim_after_collect _ _ _ _ _ _ Hcollect).
    pose proof (collect_only_lists _ _ _ _ _ _ _ Hcollect) as Hlists.
    rewrite Forall_forall in Hlists.
    destruct (candidateOf options labeled) as [candidate|] eqn:Hcand.
    + assert (Hok : stage candidate ∉ excludeStagesOf options).
      { apply pickOldest_elem_of in Hcand.
        by apply uniqueStages_from_labeled in Hcand as [_ ?]. }
      destruct (dryRunOf options).
      * intros [= <- <- <-]. split.
        -- intros secretId stg vid Hin. specialize (Hlists _ Hin). discriminate.
        -- intros result r [= <-] [= <-]. exact Hok.
      * assert (Hcalls : ∀ secretId stg vid,
                   UpdateSecretVersionStageCommand secretId stg vid
                   ∈ calls1 ++ [removeCommand options candidate] →
                   stg ∉ excludeStagesOf options).
        { intros secretId stg vid Hin. apply elem_of_app in Hin as [Hin|Hin].
          - specialize (Hlists _ Hin). discriminate.
          - apply list_elem_of_singleton in Hin. inversion Hin; subst. exact Hok. }
        destruct (send client1 (removeCommand options candidate)) as [client2 [err|resp]];
          intros [= <- <- <-]; (split; [exact Hcalls|]).
        -- intros result r [=].
        -- intros result r [= <-] [= <-]. exact Hok.
    + intros [= <- <- <-]. split.
      * intros secretId stg vid Hin. specialize (Hlists _ Hin). discriminate.
      * intros result r [= <-] [=].
  - unfold Trim.trimStagesWithClient. rewrite Hcollect. discriminate.
Qed.
End TrimRuns.

(** The records of one version, label by label. *)
Lemma labelsOfVersion_bind (v : Version) :
  labelsOfVersion v
  = (label ← default [] (VersionStages v);
     [ {| stage := label; versionId := VersionId v;
          createdDate := default 0 (CreatedDate v) |} ]).
Proof.
  assert (Hmap : ∀ (f : string → LabelRecord) (l : list string),
            map f l = (x ← l; [f x])).
  { intros f l. induction l as [|x l IH]; [reflexivity|]. simpl. by rewrite IH. }
  unfold labelsOfVersion, epoch.
  destruct (VersionStages v) as [[|s stages]|]; [reflexivity| |reflexivity].
  rewrite Hmap. by destruct (CreatedDate v).
Qed.

(** What the loop appends page after page is the labels of all versions of
    these pages. *)
Lemma labelsOfResponse_all (pages : list Response) :
  flat_map labelsOfResponse pages = labelsOfAllVersions pages.
Proof.
  assert (Hflat : ∀ (A B : Type) (f : A → list B) (l : list A),
            flat_map f l = l ≫= f).
  { intros A B f l. induction l as [|x l IH]; [reflexivity|]. simpl. by rewrite IH. }
  unfold labelsOfAllVersions. rewrite Hflat. apply list_bind_ext; [|reflexivity].
  intros page. unfold labelsOfResponse. rewrite Hflat.
  apply list_bind_ext; [|reflexivity]. intros v. apply labelsOfVersion_bind.
Qed.

(** The listing commands by position: the first carries the starting token,
    the command after the one that fetched a page carries that page's token. *)
Lemma listCalls_first (secretId : string) (tok : option string)
    (pages : list Response) :
  pages ≠ [] →
  listCalls secretId tok pages !! 0%nat
  = Some (ListSecretVersionIdsCommand secretId true tok 100).
Proof. by destruct pages. Qed.

Lemma listCalls_next (secretId : string) (pages more : list Response) :
  ∀ (tok : option string) (i : nat) (page : Response),
    pages !! i = Some page →
    more ≠ [] →
    listCalls secretId tok (pages ++ more) !! Datatypes.S i
    = Some (ListSecretVersionIdsCommand secretId true (NextToken page) 100).
Proof.
  induction pages as [|p ps IH]; intros tok i page Hi Hmore; [done|].
  destruct i as [|i].
  - assert (Hp : p = page) by (by injection Hi). subst p.
    change ((page :: ps) ++ more) with (page :: (ps ++ more)).
    cbn [listCalls]. apply (listCalls_first secretId (NextToken page) (ps ++ more)).
    by destruct ps.
  - change ((p :: ps) ++ more) with (p :: (ps ++ more)). cbn [listCalls].
    apply (IH (NextToken p) i page Hi Hmore).
Qed.

Section TrimPagination.
Context {S E : Type}.
Context (send : S → Command → S * (E + Response)).

(** C5. When the client answers the listing commands with N pages of which
  all but the last carry a continuation token, the collector sends exactly N
  listing commands for the secret (deprecated versions included, pages of
  100), the first without a token and the one after each page with that
  page's token, and returns the labels of all versions of all pages: one
  record for each label of each version, in order.  In a run of
  [trimStagesWithClient] these N commands come first; the threshold
  comparison, the selection, the optional remove-stage command and the counts
  of the result are all taken from that complete list of labels. *)
Theorem collector_paginates_before_deciding
  (secretId : string) (init : list Response) (lastp : Response)
  (client client' : S) (fuel : nat) (options : Trim.Options) :
allContinue init →
truthy (NextToken lastp) = false →
served send secretId client None (init ++ [lastp]) client' →
(length (init ++ [lastp]) ≤ fuel)%nat →
Trim.secretId options = secretId →
let pages := init ++ [lastp] in
let labeled := labelsOfAllVersions pages in
let calls := listCalls secretId None pages in
collect send fuel secretId client = Some (client', calls, inr labeled)
∧ length calls = length pages
∧ calls !! 0%nat = Some (ListSecretVersionIdsCommand secretId true None 100)
∧ (∀ (i : nat) (page : Response),
     init !! i = Some page →
     calls !! Datatypes.S i
     = Some (ListSecretVersionIdsCommand secretId true (NextToken page) 100))
∧ ∃ client'' mutation outcome,
    Trim.trimStagesWithClient send fuel client options
    = Some (client'', calls ++ mutation, outcome)
    ∧ (mutation = []
       ∨ ∃ candidate, candidateOf options labeled = Some candidate
                      ∧ mutation = [removeCommand options candidate])
    ∧ ∀ result, outcome = inr result →
        count result = length labeled
        ∧ manageableCount result
          = length (Trim.uniqueStages (excludeStagesOf options) labeled)
        ∧ removed result = Trim.removedOf <$> candidateOf options labeled.
Proof.
intros Hall Hlast Hserved Hfuel Hid pages labeled calls.
pose proof (collect_all_pages send secretId init lastp client client' fuel
              Hall Hlast Hserved Hfuel) as Hcollect.
rewrite labelsOfResponse_all in Hcollect.
fold pages in Hcollect. fold labeled in Hcollect. fold calls in Hcollect.
split; [exact Hcollect|]. split; [apply listCalls_length|].
split; [apply listCalls_first; by destruct init|].
split; [intros i page Hi; by apply listCalls_next|].
subst secretId.
rewrite (trim_after_collect _ _ _ _ _ _ _ Hcollect).
destruct (candidateOf options labeled) as [candidate|] eqn:Hcand.
- destruct (dryRunOf options).
  + eexists _, [], _. rewrite app_nil_r. split; [reflexivity|]. split; [by left|].
    intros result [= <-]. done.
  + destruct (send client' (removeCommand options candidate)) as [client2 [err|resp]].
    * eexists _, _, _. split; [reflexivity|]. split; [right; eauto|].
      intros result [=].
    * eexists _, _, _. split; [reflexivity|]. split; [right; eauto|].
      intros result [= <-]. done.
- eexists _, [], _. rewrite app_nil_r. split; [reflexivity|]. split; [by left|].
  intros result [= <-]. done.
Qed.

(** C7. A rejected listing call ends the run with that rejection and no
  remove-stage command is ever sent; a rejected remove-stage call ends the
  run with that very rejection as its outcome, so no result object, and in
  particular none with [trimmed = true], is returned. *)
Theorem rejections_abort_the_run :
(∀ (secretId : string) (init : list Response) (client client1 client' : S)
   (err : E) (fuel : nat) (options : Trim.Options),
    allContinue init →
    served send secretId client None init client1 →
    send client1 (ListSecretVersionIdsCommand secretId true (lastToken None init) 100) = (client', inl err) →
    (length init < fuel)%nat →
    Trim.secretId options = secretId →
    ∃ calls,
      Trim.trimStagesWithClient send fuel client options = Some (client', calls, inl err)
      ∧ calls = listCalls secretId None init
                ++ [ListSecretVersionIdsCommand secretId true (lastToken None init) 100]
      ∧ filter (λ c, isUpdate c = true) calls = [])
∧ (∀ (fuel : nat) (client client1 client2 : S) (options : Trim.Options)
     (calls : list Command) (labeled : list LabelRecord)
     (candidate : LabelRecord) (err : E),
    collect send fuel (Trim.secretId options) client
    = Some (client1, calls, inr labeled) →
    candidateOf options labeled = Some candidate →
    dryRunOf options = false →
    send client1 (removeCommand options candidate) = (client2, inl err) →
    Trim.trimStagesWithClient send fuel client options
    = Some (client2, calls ++ [removeCommand options candidate], inl err)
    ∧ ∀ (client3 : S) (calls' : list Command) (result : RunResult),
        Trim.trimStagesWithClient send fuel client options
        ≠ Some (client3, calls', inr result)).
Proof.
split.
- intros secretId init client client1 client' err fuel options
    Hall Hserved Hsend Hfuel Hid.
  pose proof (collect_listing_rejects send secretId init client client1 client'
                err fuel Hall Hserved Hsend Hfuel) as Hcollect.
  eexists. split; [|split; [reflexivity|]].
  + apply trim_collect_rejects. rewrite Hid. exact Hcollect.
  + eapply filter_isUpdate_none, collect_only_lists, Hcollect.
- intros fuel client client1 client2 options calls labeled candidate err
    Hcollect Hcand Hdry Hsend.
  rewrite (trim_after_collect _ _ _ _ _ _ _ Hcollect), Hcand, Hdry, Hsend.
  split; [reflexivity|]. intros client3 calls' result [=].
Qed.
End TrimPagination.

(** ** Labels of a version entry *)

(** C8. A version entry without stage labels (the property absent or the
    array empty) contributes no label record; an entry with labels contributes
    exactly one record per label, in order, each with the entry's version id
    and creation timestamp; an entry without creation timestamp is recorded
    with time value 0, the epoch, which is no later than any timestamp at or
    after 1 January 1970.  The function is total: no entry makes it fail. *)
Theorem labelsOfVersion_per_label (v : Version) :
  (VersionStages v = None ∨ VersionStages v = Some [] → labelsOfVersion v = [])
  ∧ (∀ stages, VersionStages v = Some stages →
       length (labelsOfVersion v) = length stages
       ∧ map stage (labelsOfVersion v) = stages
       ∧ Forall (λ r, versionId r = VersionId v) (labelsOfVersion v)
       ∧ (∀ d, CreatedDate v = Some d →
            Forall (λ r, createdDate r = d) (labelsOfVersion v))
       ∧ (CreatedDate v = None →
            Forall (λ r, createdDate r = 0 ∧ ∀ d, 0 ≤ d → createdDate r ≤ d)
              (labelsOfVersion v))).
Proof.
  split.
  - unfold labelsOfVersion. intros [-> | ->]; reflexivity.
  - intros stages Hst.
    assert (Heq : labelsOfVersion v
                  = map (λ stage, mkLabel stage (VersionId v)
                                    (match CreatedDate v with
                                     | Some d => d
                                     | None => epoch
                                     end)) stages).
    { unfold labelsOfVersion. rewrite Hst. by destruct stages. }
    rewrite Heq. rewrite length_map, map_map. simpl.
    split; [reflexivity|]. split; [apply map_id|]. split; [|split].
    + apply Forall_forall. intros r Hr. apply list_elem_of_fmap in Hr as (s & -> & _).
      reflexivity.
    + intros d Hd. rewrite Hd. apply Forall_forall. intros r Hr.
      apply list_elem_of_fmap in Hr as (s & -> & _). reflexivity.
    + intros Hd. rewrite Hd. apply Forall_forall. intros r Hr.
      apply list_elem_of_fmap in Hr as (s & -> & _). simpl. unfold epoch.
      split; [reflexivity | intros d Hle; exact Hle].
Qed.

(** C8 as stated fails on "earliest possible": the epoch is not the earliest
    timestamp.  A version created before 1970 has a negative time value, so
    the record of a version without creation date is the younger of the two,
    and the selector picks the dated version first. *)
Lemma epoch_is_not_the_earliest_timestamp :
  labelsOfVersion undated_version = [mkLabel "stage-a" "v-undated" 0]
  ∧ labelsOfVersion pre1970_version = [mkLabel "stage-b" "v-old" (-86400000)]
  ∧ -86400000 < 0
  ∧ Trim.pickOldestStageToDeprecate
      (labelsOfVersion undated_version ++ labelsOfVersion pre1970_version) (Num 1)
    = Some (mkLabel "stage-b" "v-old" (-86400000)).
Proof. repeat split. Qed.

(** ** The default exclusion set *)

(** The default parameter of [trimStagesWithClient] is the three reserved
    stages. *)
Lemma trim_default_excludeStages (options : Trim.Options) :
  Trim.excludeStages options = None →
  excludeStagesOf options = {[ "AWSCURRENT"; "AWSPREVIOUS"; "AWSPENDING" ]}.
Proof.
  intros H. unfold excludeStagesOf. rewrite H. simpl.
  unfold Trim.defaultExcludeStages. simpl. set_solver.
Qed.

(** The wrapper next to [trimStagesWithClient] falls back to the same three
    stages when the input is empty. *)
Lemma trim_run_default_excludeStages :
  parseExcludeStages (str_or "" "AWSCURRENT,AWSPREVIOUS,AWSPENDING")
  = {[ "AWSCURRENT"; "AWSPREVIOUS"; "AWSPENDING" ]}.
Proof. apply set_eq. intros x. vm_compute parseExcludeStages. set_solver. Qed.

(** On the invocation without exclusion list that wrapper leaves the
    current version alone: one manageable stage, threshold 1. *)
Lemma trim_run_without_exclusion_input :
  Trim.run Mock.send inputs_without_exclusions mockErrText mockClientFor 5
  = Some ([ListSecretVersionIdsCommand "my/secret" true None 100],
          [info (ManageableStages 1 false); setOutput "trimmed" "false"]).
Proof. vm_compute. reflexivity. Qed.

(** C9, evaluated on [src/index.js]. When the invocation supplies no
    exclusion list, the stand-alone [run] of [src/index.js] builds the empty
    exclusion set, not the three reserved stages: AWSCURRENT counts toward the
    threshold and, being on the oldest version, is the stage removed. *)
Theorem indexjs_run_without_exclusion_input_removes_AWSCURRENT :
  parseExcludeStages (str_or "" "") = ∅
  ∧ IndexJs.run Mock.send inputs_without_exclusions mockErrText mockClientFor
      mockUndefinedRead 5
    = Some ([ListSecretVersionIdsCommand "my/secret" true None 100;
             UpdateSecretVersionStageCommand "my/secret" "AWSCURRENT" "v1"],
            [info (FoundManageable 2 ∅);
             info (ThresholdExceeded 2 (Num 1) "AWSCURRENT" "v1" (jan2024 1));
             info (DeprecatedStage "AWSCURRENT" "v1");
             setOutput "trimmed" "true"]).
Proof. split; vm_compute; reflexivity. Qed.

(** ** The claims at concrete inputs *)

Lemma pickOldestStageToDeprecate_contract_witness :
  Trim.pickOldestStageToDeprecate three_stages (Num 3) = None
  ∧ ∃ pre r post,
      three_stages = pre ++ r :: post
      ∧ Trim.pickOldestStageToDeprecate three_stages (Num 1) = Some r
      ∧ Trim.pickOldestStageToDeprecate three_stages (Num 1)
        = leftmost_oldest three_stages
      ∧ Forall (λ x, createdDate r < createdDate x) pre
      ∧ Forall (λ x, createdDate r ≤ createdDate x) post.
Proof.
  split.
  - apply (pickOldestStageToDeprecate_contract three_stages 3); simpl; lia.
  - apply (pickOldestStageToDeprecate_contract three_stages 1); simpl; lia.
Defined.

Lemma excluded_stage_never_indexed_nor_selected_witness :
  (mkLabel "AWSCURRENT" "v1" 1 ∉ Trim.uniqueStages reservedStages excluded_labeled)
  ∧ Trim.pickOldestStageToDeprecate
      (Trim.uniqueStages reservedStages excluded_labeled) (Num 1)
    ≠ Some (mkLabel "AWSCURRENT" "v1" 1)
  ∧ (mkLabel "AWSCURRENT" "v1" 1 ∉ IndexJs.uniqueStages reservedStages excluded_labeled)
  ∧ head (toSorted (λ a b, createdDate a - createdDate b)
            (IndexJs.uniqueStages reservedStages excluded_labeled))
    ≠ Some (mkLabel "AWSCURRENT" "v1" 1).
Proof.
  apply (excluded_stage_never_indexed_nor_selected
           reservedStages excluded_labeled (Num 1) (mkLabel "AWSCURRENT" "v1" 1)).
  vm_compute. reflexivity.
Defined.

Lemma uniqueStages_latest_first_seen_witness :
  ∃ pre r post,
    recordsOf "s" dedup_labeled = pre ++ r :: post
    ∧ Forall (λ x, createdDate x < createdDate r) pre
    ∧ Forall (λ x, createdDate x ≤ createdDate r) post
    ∧ r ∈ Trim.uniqueStages reservedStages dedup_labeled
    ∧ (∀ x, x ∈ Trim.uniqueStages reservedStages dedup_labeled → stage x = "s" → x = r)
    ∧ IndexJs.uniqueStages reservedStages dedup_labeled
      = Trim.uniqueStages reservedStages dedup_labeled.
Proof.
  apply (uniqueStages_latest_first_seen reservedStages dedup_labeled "s").
  - vm_compute. intros H. discriminate H.
  - vm_compute. intros H. discriminate H.
Defined.

Lemma trim_removes_the_candidate_once_witness :
  ∃ calls' result,
    Trim.trimStagesWithClient Mock.send 5 (scenario8_client false)
      (scenario8_options false)
    = Some (scenario8_updated false, calls', inr result)
    ∧ calls' = [ListSecretVersionIdsCommand "my/secret" true None 100]
               ++ [UpdateSecretVersionStageCommand "my/secret" "stage-a" "v1"]
    ∧ filter (λ c, isUpdate c = true) calls'
      = [UpdateSecretVersionStageCommand "my/secret" "stage-a" "v1"]
    ∧ trimmed result = true
    ∧ removed result = Some {| removed_stage := "stage-a"; removed_versionId := "v1" |}.
Proof.
  apply (trim_removes_the_candidate_once Mock.send 5
           (scenario8_client false) (scenario8_listed false) (scenario8_updated false)
           (scenario8_options false) [ListSecretVersionIdsCommand "my/secret" true None 100]
           scenario8_labeled (mkLabel "stage-a" "v1" (jan2024 1))
           {| Versions := None; NextToken := None |});
    vm_compute; reflexivity.
Defined.

(** C1 as stated fails when the remove-stage call rejects: a candidate is
    selected and dry-run is false, the single remove-stage command is sent,
    and the run ends with the rejection instead of a result. *)
Lemma trim_rejected_update_returns_no_result :
  collect Mock.send 5 "my/secret" (scenario8_client true)
  = Some (scenario8_listed true, [ListSecretVersionIdsCommand "my/secret" true None 100], inr scenario8_labeled)
  ∧ candidateOf (scenario8_options false) scenario8_labeled
    = Some (mkLabel "stage-a" "v1" (jan2024 1))
  ∧ dryRunOf (scenario8_options false) = false
  ∧ Trim.trimStagesWithClient Mock.send 5 (scenario8_client true)
      (scenario8_options false)
    = Some (scenario8_updated true,
            [ListSecretVersionIdsCommand "my/secret" true None 100; scenario8_remove],
            inl (Mock.MockUpdateError "Update failed (simulated)"))
  ∧ ¬ ∃ client calls result,
        Trim.trimStagesWithClient Mock.send 5 (scenario8_client true)
          (scenario8_options false)
        = Some (client, calls, inr result).
Proof.
  assert (Hrun : Trim.trimStagesWithClient Mock.send 5 (scenario8_client true)
                   (scenario8_options false)
                 = Some (scenario8_updated true,
                         [ListSecretVersionIdsCommand "my/secret" true None 100; scenario8_remove],
                         inl (Mock.MockUpdateError "Update failed (simulated)")))
    by (vm_compute; reflexivity).
  split; [vm_compute; reflexivity|]. split; [vm_compute; reflexivity|].
  split; [reflexivity|]. split; [exact Hrun|].
  intros (client & calls & result & H). rewrite Hrun in H. discriminate H.
Qed.

Lemma dry_run_reports_without_mutating_witness :
  ∃ result,
    Trim.trimStagesWithClient Mock.send 5 (scenario8_client false)
      (scenario8_options true)
    = Some (scenario8_listed false, [ListSecretVersionIdsCommand "my/secret" true None 100], inr result)
    ∧ trimmed result = false
    ∧ removed result = Some {| removed_stage := "stage-a"; removed_versionId := "v1" |}
    ∧ filter (λ c, isUpdate c = true) [ListSecretVersionIdsCommand "my/secret" true None 100] = [].
Proof.
  apply (dry_run_reports_without_mutating Mock.send 5
           (scenario8_client false) (scenario8_listed false)
           (scenario8_options true) [ListSecretVersionIdsCommand "my/secret" true None 100]
           scenario8_labeled (mkLabel "stage-a" "v1" (jan2024 1)));
    vm_compute; reflexivity.
Defined.

Lemma dry_run_unobservable_at_or_under_threshold_witness :
  ∃ result,
    Trim.trimStagesWithClient Mock.send 5 (scenario8_client false)
      {| Trim.secretId := "my/secret"; Trim.threshold := Some (Num 2);
         Trim.excludeStages := Some reservedStages; Trim.dryRun := Some false |}
    = Some (scenario8_listed false, [ListSecretVersionIdsCommand "my/secret" true None 100], inr result)
    ∧ Trim.trimStagesWithClient Mock.send 5 (scenario8_client false)
        {| Trim.secretId := "my/secret"; Trim.threshold := Some (Num 2);
           Trim.excludeStages := Some reservedStages; Trim.dryRun := Some true |}
      = Some (scenario8_listed false, [ListSecretVersionIdsCommand "my/secret" true None 100], inr result)
    ∧ trimmed result = false
    ∧ removed result = None
    ∧ filter (λ c, isUpdate c = true) [ListSecretVersionIdsCommand "my/secret" true None 100] = [].
Proof.
  apply (dry_run_unobservable_at_or_under_threshold Mock.send 5
           (scenario8_client false) (scenario8_listed false)
           {| Trim.secretId := "my/secret"; Trim.threshold := Some (Num 2);
              Trim.excludeStages := Some reservedStages; Trim.dryRun := Some false |}
           {| Trim.secretId := "my/secret"; Trim.threshold := Some (Num 2);
              Trim.excludeStages := Some reservedStages; Trim.dryRun := Some true |}
           [ListSecretVersionIdsCommand "my/secret" true None 100] scenario8_labeled 2);
    first [reflexivity | vm_compute; reflexivity | (vm_compute; intros H; discriminate H)].
Defined.

Lemma collector_paginates_before_deciding_witness :
  let pages := [scenario9_page1] ++ [scenario9_page2] in
  let labeled := labelsOfAllVersions pages in
  let calls := listCalls "my/secret" None pages in
  collect Mock.send 5 "my/secret" scenario9_client
  = Some (scenario9_listed, calls, inr labeled)
  ∧ length calls = length pages
  ∧ calls !! 0%nat = Some (ListSecretVersionIdsCommand "my/secret" true None 100)
  ∧ (∀ (i : nat) (page : Response),
       [scenario9_page1] !! i = Some page →
       calls !! Datatypes.S i
       = Some (ListSecretVersionIdsCommand "my/secret" true (NextToken page) 100))
  ∧ ∃ client'' mutation outcome,
      Trim.trimStagesWithClient Mock.send 5 scenario9_client scenario9_options
      = Some (client'', calls ++ mutation, outcome)
      ∧ (mutation = []
         ∨ ∃ candidate,
             candidateOf scenario9_options labeled = Some candidate
             ∧ mutation = [removeCommand scenario9_options candidate])
      ∧ ∀ result, outcome = inr result →
          count result = length labeled
          ∧ manageableCount result
            = length (Trim.uniqueStages (excludeStagesOf scenario9_options) labeled)
          ∧ removed result
            = Trim.removedOf <$> candidateOf scenario9_options labeled.
Proof.
  apply (collector_paginates_before_deciding Mock.send "my/secret"
           [scenario9_page1] scenario9_page2 scenario9_client scenario9_listed
           5 scenario9_options).
  - repeat constructor.
  - reflexivity.
  - simpl. eexists. split; [reflexivity|]. eexists. split; reflexivity.
  - simpl. lia.
  - reflexivity.
Defined.

Lemma rejections_abort_the_run_witness :
  (∃ calls,
     Trim.trimStagesWithClient scripted_send 5 rejecting_script scenario9_options
     = Some ([], calls, inl "listing failed")
     ∧ calls = listCalls "my/secret" None [scenario9_page1]
               ++ [ListSecretVersionIdsCommand "my/secret" true (lastToken None [scenario9_page1]) 100]
     ∧ filter (λ c, isUpdate c = true) calls = [])
  ∧ (Trim.trimStagesWithClient Mock.send 5 (scenario8_client true)
       (scenario8_options false)
     = Some (scenario8_updated true,
             [ListSecretVersionIdsCommand "my/secret" true None 100]
             ++ [removeCommand (scenario8_options false)
                   (mkLabel "stage-a" "v1" (jan2024 1))],
             inl (Mock.MockUpdateError "Update failed (simulated)"))
     ∧ ∀ (client3 : Mock.MockSecretsManagerClient) (calls' : list Command)
         (result : RunResult),
         Trim.trimStagesWithClient Mock.send 5 (scenario8_client true)
           (scenario8_options false)
         ≠ Some (client3, calls', inr result)).
Proof.
  split.
  - apply (proj1 (rejections_abort_the_run scripted_send) "my/secret"
             [scenario9_page1] rejecting_script [inl "listing failed"] []
             "listing failed" 5%nat scenario9_options).
    + repeat constructor.
    + simpl. eexists. split; reflexivity.
    + reflexivity.
    + simpl. lia.
    + reflexivity.
  - apply (proj2 (rejections_abort_the_run Mock.send) 5%nat
             (scenario8_client true) (scenario8_listed true) (scenario8_updated true)
             (scenario8_options false) [ListSecretVersionIdsCommand "my/secret" true None 100]
             scenario8_labeled (mkLabel "stage-a" "v1" (jan2024 1))
             (Mock.MockUpdateError "Update failed (simulated)"));
      vm_compute; reflexivity.
Defined.

Lemma labelsOfVersion_per_label_witness :
  labelsOfVersion {| VersionId := "v0"; CreatedDate := Some 7; VersionStages := None |} = []
  ∧ labelsOfVersion {| VersionId := "v0"; CreatedDate := Some 7; VersionStages := Some [] |} = []
  ∧ length (labelsOfVersion
              {| VersionId := "v1"; CreatedDate := None;
                 VersionStages := Some ["a"; "b"] |}) = 2%nat
  ∧ Forall (λ r, versionId r = "v1")
      (labelsOfVersion {| VersionId := "v1"; CreatedDate := None;
                          VersionStages := Some ["a"; "b"] |})
  ∧ Forall (λ r, createdDate r = 0 ∧ ∀ d, 0 ≤ d → createdDate r ≤ d)
      (labelsOfVersion {| VersionId := "v1"; CreatedDate := None;
                          VersionStages := Some ["a"; "b"] |})
  ∧ Forall (λ r, createdDate r = 7)
      (labelsOfVersion {| VersionId := "v2"; CreatedDate := Some 7;
                          VersionStages := Some ["c"] |}).
Proof.
  destruct (labelsOfVersion_per_label
              {| VersionId := "v0"; CreatedDate := Some 7; VersionStages := None |})
    as (Hnone & _).
  destruct (labelsOfVersion_per_label
              {| VersionId := "v0"; CreatedDate := Some 7; VersionStages := Some [] |})
    as (Hempty & _).
  destruct (labelsOfVersion_per_label
              {| VersionId := "v1"; CreatedDate := None;
                 VersionStages := Some ["a"; "b"] |})
    as (_ & Hv1).
  destruct (Hv1 ["a"; "b"] eq_refl) as (Hlen & _ & Hid & _ & Hmissing).
  destruct (labelsOfVersion_per_label
              {| VersionId := "v2"; CreatedDate := Some 7;
                 VersionStages := Some ["c"] |})
    as (_ & Hv2).
  destruct (Hv2 ["c"] eq_refl) as (_ & _ & _ & Hdated & _).
  split; [apply Hnone; left; reflexivity|].
  split; [apply Hempty; right; reflexivity|].
  split; [exact Hlen|]. split; [exact Hid|].
  split; [apply Hmissing; reflexivity|].
  apply (Hdated 7); reflexivity.
Defined.

(** ** The stand-alone [run] of [src/index.js] *)

Section IndexJsRuns.
Context {S E : Type}.
Context (send : S → Command → S * (E + Response)).
Context (getInput : string → bool → E + string).
Context (errText : E → string).
Context (newClient : string → S).
Context (undefinedRead : E).

(** Once the inputs are read, [run] first completes the collection; whatever
    it sends afterwards is at most one remove-stage command, for the head of
    the sorted index built from everything collected. *)
Lemma indexjs_run_collects_first
    (fuel : nat) (secretId region thresholdRaw dryRunRaw raw : string)
    (client1 : S) (calls : list Command) (labeled : list LabelRecord) :
  getInput "secret-id" true = inr secretId →
  getInput "aws-region" true = inr region →
  getInput "threshold" false = inr thresholdRaw →
  getInput "dry-run" false = inr dryRunRaw →
  getInput "exclude-stages" false = inr raw →
  collect send fuel secretId (newClient region) = Some (client1, calls, inr labeled) →
  ∃ mutation core,
    IndexJs.run send getInput errText newClient undefinedRead fuel
    = Some (calls ++ mutation, core)
    ∧ (mutation = []
       ∨ ∃ oldest,
           head (toSorted byCreatedDate
                   (IndexJs.uniqueStages (parseExcludeStages (str_or raw "")) labeled))
           = Some oldest
           ∧ js_le (length (IndexJs.uniqueStages
                              (parseExcludeStages (str_or raw "")) labeled))
                   (parseInt (str_or thresholdRaw "18")) = false
           ∧ mutation = [UpdateSecretVersionStageCommand
                           secretId (stage oldest) (versionId oldest)]).
Proof.
  intros Hid Hregion Hthr Hdry Hraw Hcollect.
  unfold IndexJs.run, IndexJs.orFail.
  rewrite Hid, Hregion, Hthr, Hdry, Hraw, Hcollect.
  destruct (js_le _ _) eqn:Hle.
  - eexists [], _. rewrite app_nil_r. split; [reflexivity | by left].
  - change (λ a b, createdDate a - createdDate b) with byCreatedDate.
    destruct (head _) as [oldest|] eqn:Hhead.
    + destruct (String.eqb _ "true").
      * eexists [], _. rewrite app_nil_r. split; [reflexivity | by left].
      * destruct (send client1 _) as [client2 [err|resp]];
          (eexists _, _; split; [reflexivity | right; eauto]).
    + eexists [], _. rewrite app_nil_r. split; [reflexivity | by left].
Qed.
End IndexJsRuns.

(** ** The test suite and the spec's scenarios on the model *)

Example test_pick_returns_null_at_threshold :
  Trim.pickOldestStageToDeprecate
    [mkLabel "a" "v1" (jan2024 1); mkLabel "b" "v2" (jan2024 2)] (Num 2) = None.
Proof. reflexivity. Qed.

Example test_trims_oldest_manageable_stage :
  Trim.trimStagesWithClient Mock.send 5 (scenario8_client false)
    (scenario8_options false)
  = Some (scenario8_updated false,
          [ListSecretVersionIdsCommand "my/secret" true None 100;
           UpdateSecretVersionStageCommand "my/secret" "stage-a" "v1"],
          inr {| trimmed := true;
                 removed := Some {| removed_stage := "stage-a";
                                    removed_versionId := "v1" |};
                 count := 3; manageableCount := 2 |}).
Proof. vm_compute. reflexivity. Qed.

Example test_handles_pagination :
  Trim.trimStagesWithClient Mock.send 5 scenario9_client scenario9_options
  = Some ({| Mock.listPages := [scenario9_page1; scenario9_page2];
             Mock.failOnUpdate := false;
             Mock.calls := [ListSecretVersionIdsCommand "my/secret" true None 100;
                            ListSecretVersionIdsCommand "my/secret" true (Some "next-1") 100;
                            UpdateSecretVersionStageCommand "my/secret" "s1" "v1"];
             Mock._page := 2 |},
          [ListSecretVersionIdsCommand "my/secret" true None 100;
           ListSecretVersionIdsCommand "my/secret" true (Some "next-1") 100;
           UpdateSecretVersionStageCommand "my/secret" "s1" "v1"],
          inr {| trimmed := true;
                 removed := Some {| removed_stage := "s1"; removed_versionId := "v1" |};
                 count := 4; manageableCount := 3 |}).
Proof. vm_compute. reflexivity. Qed.

Example test_at_threshold_does_not_trim :
  Trim.trimStagesWithClient Mock.send 5 (scenario8_client false)
    scenario8_options_default_flag
  = Some (scenario8_listed false, [ListSecretVersionIdsCommand "my/secret" true None 100],
          inr {| trimmed := false; removed := None;
                 count := 3; manageableCount := 2 |}).
Proof. vm_compute. reflexivity. Qed.

Example test_dry_run_sends_no_update :
  Trim.trimStagesWithClient Mock.send 5 (scenario8_client false)
    (scenario8_options true)
  = Some (scenario8_listed false, [ListSecretVersionIdsCommand "my/secret" true None 100],
          inr {| trimmed := false;
                 removed := Some {| removed_stage := "stage-a";
                                    removed_versionId := "v1" |};
                 count := 3; manageableCount := 2 |}).
Proof. vm_compute. reflexivity. Qed.

(** C4 as stated fails on ties: of two records of one stage with equal
    timestamps the index keeps the first one seen, in both files, so the
    last-seen record does not win. *)
Lemma uniqueStages_last_seen_does_not_win :
  stage tie_first = stage tie_last
  ∧ createdDate tie_first = createdDate tie_last
  ∧ Trim.uniqueStages reservedStages [tie_first; tie_last] = [tie_first]
  ∧ IndexJs.uniqueStages reservedStages [tie_first; tie_last] = [tie_first]
  ∧ (tie_last ∉ Trim.uniqueStages reservedStages [tie_first; tie_last])
  ∧ (tie_last ∉ IndexJs.uniqueStages reservedStages [tie_first; tie_last]).
Proof.
  assert (Hne : tie_last ∉ [tie_first]).
  { intros H. apply list_elem_of_singleton in H. discriminate H. }
  repeat split; try reflexivity; exact Hne.
Qed.

(** * Further properties of the code *)

(** ** The selector at its edges *)

Lemma leftmost_oldest_min (l : list LabelRecord) (r : LabelRecord) :
  leftmost_oldest l = Some r →
  r ∈ l ∧ ∀ x, x ∈ l → createdDate r ≤ createdDate x.
Proof.
  intros H. destruct (leftmost_oldest_split l r H) as (pre & post & -> & Hpre & Hpost).
  split; [apply elem_of_app; right; left|].
  intros x Hx. rewrite Forall_forall in Hpre, Hpost.
  apply elem_of_app in Hx as [Hx|Hx]; [specialize (Hpre _ Hx); lia|].
  apply elem_of_cons in Hx as [->|Hx]; [lia | auto].
Qed.

(** X1. The selector answers "no candidate" exactly when the list is empty
    or its length is at most the threshold: an empty list never yields a
    candidate, not even under a negative threshold, and under a [NaN]
    threshold every non-empty list does.  The threshold decides only whether a
    record is selected, never which one. *)
Theorem pickOldest_none_iff (stages : list LabelRecord) (threshold : JsNumber) :
  (Trim.pickOldestStageToDeprecate stages threshold = None
   ↔ stages = [] ∨ js_le (length stages) threshold = true)
  ∧ (∀ threshold' r r',
       Trim.pickOldestStageToDeprecate stages threshold = Some r →
       Trim.pickOldestStageToDeprecate stages threshold' = Some r' →
       r = r').
Proof.
  split.
  - rewrite pickOldest_unfold. destruct (js_le _ _) eqn:Hle.
    + split; auto.
    + split.
      * intros Hnone. left. destruct stages as [|x xs]; [reflexivity|].
        destruct (leftmost_oldest_nonempty (x :: xs)) as [r Hr]; congruence.
      * intros [-> | ?]; [reflexivity | discriminate].
  - intros threshold' r r'. rewrite !pickOldest_unfold.
    destruct (js_le _ threshold), (js_le _ threshold'); congruence.
Qed.

Lemma pickOldest_none_iff_witness :
  Trim.pickOldestStageToDeprecate [] (Num (-1)) = None
  ∧ Trim.pickOldestStageToDeprecate [] NaN = None
  ∧ Trim.pickOldestStageToDeprecate three_stages NaN
    = Some (mkLabel "b" "v2" 3)
  ∧ Trim.pickOldestStageToDeprecate three_stages (Num 0)
    = Some (mkLabel "b" "v2" 3).
Proof.
  split; [|split; [|split]].
  - apply (pickOldest_none_iff [] (Num (-1))). left. reflexivity.
  - apply (pickOldest_none_iff [] NaN). left. reflexivity.
  - destruct (Trim.pickOldestStageToDeprecate three_stages NaN) as [r|] eqn:Hr.
    + f_equal. apply (proj2 (pickOldest_none_iff three_stages NaN) (Num 0) r _ Hr).
      reflexivity.
    + apply (pickOldest_none_iff three_stages NaN) in Hr as [Hr|Hr]; discriminate Hr.
  - reflexivity.
Defined.

(** X2. The age of the selected record does not depend on the order of the
    input: on any rearrangement of the list the selector again selects, and a
    record of the same [createdDate].  Only among records of equal age does
    the order matter. *)
Theorem pickOldest_age_order_independent
    (stages stages' : list LabelRecord) (threshold : JsNumber) (r : LabelRecord) :
  stages' ≡ₚ stages →
  Trim.pickOldestStageToDeprecate stages threshold = Some r →
  ∃ r', Trim.pickOldestStageToDeprecate stages' threshold = Some r'
        ∧ createdDate r' = createdDate r
        ∧ r' ∈ stages.
Proof.
  intros Hperm. rewrite !pickOldest_unfold, (Permutation_length Hperm).
  destruct (js_le _ _); [discriminate|]. intros Hr.
  apply leftmost_oldest_min in Hr as [Hin Hmin].
  assert (Hne : stages' ≠ []).
  { intros ->. apply Permutation_nil_l in Hperm. subst. by apply elem_of_nil in Hin. }
  destruct (leftmost_oldest_nonempty stages' Hne) as [r' Hr'].
  exists r'. split; [exact Hr'|].
  apply leftmost_oldest_min in Hr' as [Hin' Hmin'].
  rewrite Hperm in Hin'. rewrite <- Hperm in Hin.
  split; [|exact Hin']. specialize (Hmin _ Hin'). specialize (Hmin' _ Hin). lia.
Qed.

Lemma pickOldest_age_order_independent_witness :
  ∃ r', Trim.pickOldestStageToDeprecate
          [mkLabel "c" "v3" 3; mkLabel "a" "v1" 5; mkLabel "b" "v2" 3] (Num 1) = Some r'
        ∧ createdDate r' = createdDate (mkLabel "b" "v2" 3)
        ∧ r' ∈ three_stages.
Proof.
  apply (pickOldest_age_order_independent three_stages
           [mkLabel "c" "v3" 3; mkLabel "a" "v1" 5; mkLabel "b" "v2" 3] (Num 1)
           (mkLabel "b" "v2" 3)).
  - unfold three_stages.
    apply (Permutation_cons_app [mkLabel "a" "v1" 5; mkLabel "b" "v2" 3] []).
    reflexivity.
  - reflexivity.
Defined.

(** ** The unique stage index as a whole *)

Lemma MapWf_stage_values (m : list (string * LabelRecord)) :
  MapWf m → map stage (Map_values m) = m.*1.
Proof.
  intros [_ Hkeyed]. unfold Map_values.
  induction Hkeyed as [|[k v] rest Hk _ IH]; [reflexivity|].
  simpl in *. by rewrite Hk, IH.
Qed.

Lemma Trim_uniqueStages_NoDup_stages (ex : gset string) (labeled : list LabelRecord) :
  NoDup (map stage (Trim.uniqueStages ex labeled)).
Proof.
  unfold Trim.uniqueStages, Trim.latestByStage.
  pose proof (Trim_fold_wf ex labeled [] MapWf_nil) as Hwf.
  rewrite (MapWf_stage_values _ Hwf). apply Hwf.
Qed.

Lemma Trim_uniqueStages_NoDup (ex : gset string) (labeled : list LabelRecord) :
  NoDup (Trim.uniqueStages ex labeled).
Proof.
  eapply (NoDup_fmap_1 stage). apply Trim_uniqueStages_NoDup_stages.
Qed.

Lemma Trim_uniqueStages_length_le (ex : gset string) (labeled : list LabelRecord) :
  (length (Trim.uniqueStages ex labeled) ≤ length labeled)%nat.
Proof.
  apply submseteq_length, NoDup_submseteq; [apply Trim_uniqueStages_NoDup|].
  intros x Hx. by apply uniqueStages_from_labeled in Hx as [? _].
Qed.

Lemma uniqueStages_latest_first_seen_aux
    (ex : gset string) (labeled : list LabelRecord) (s : string) :
  s ∉ ex → recordsOf s labeled ≠ [] →
  ∃ r, r ∈ Trim.uniqueStages ex labeled ∧ s = stage r.
Proof.
  intros Hex Hne.
  destruct (latestOf_fold_first_latest _ Hne) as (pre & r & post & Heq & Hfold & _).
  assert (Hs : stage r = s).
  { assert (Hin : r ∈ recordsOf s labeled) by (rewrite Heq; apply elem_of_app; right; left).
    unfold recordsOf in Hin. by apply list_elem_of_filter in Hin as [? _]. }
  exists r. split; [|done]. apply Trim_uniqueStages_elem. rewrite Hs. done.
Qed.

(** X3. The index names every stage that is collected and not excluded, and
    no other, each exactly once; so the manageable count is the number of
    distinct non-excluded stage names and never exceeds the number of labels
    collected. *)
Theorem uniqueStages_names_each_stage_once
    (excludeStages : gset string) (labeled : list LabelRecord) :
  NoDup (map stage (Trim.uniqueStages excludeStages labeled))
  ∧ (∀ s, s ∈ map stage (Trim.uniqueStages excludeStages labeled)
          ↔ (s ∉ excludeStages) ∧ s ∈ map stage labeled)
  ∧ (length (Trim.uniqueStages excludeStages labeled) ≤ length labeled)%nat.
Proof.
  split; [apply Trim_uniqueStages_NoDup_stages|]. split.
  - intros s. split.
    + intros Hin. apply list_elem_of_fmap in Hin as (x & -> & Hx).
      apply uniqueStages_from_labeled in Hx as [Hx Hex]. split; [exact Hex|].
      apply list_elem_of_fmap. by exists x.
    + intros [Hex Hin]. apply list_elem_of_fmap in Hin as (e & -> & He).
      assert (Hne : recordsOf (stage e) labeled ≠ []).
      { intros Hnil. assert (Hin : e ∈ recordsOf (stage e) labeled).
        { unfold recordsOf. by apply list_elem_of_filter. }
        rewrite Hnil in Hin. by apply elem_of_nil in Hin. }
      destruct (uniqueStages_latest_first_seen_aux excludeStages labeled (stage e) Hex Hne)
        as (r & Hr & Hs).
      apply list_elem_of_fmap. by exists r.
  - apply Trim_uniqueStages_length_le.
Qed.

Lemma Map_get_notin {V : Type} (m : list (string * V)) (k : string) :
  k ∉ m.*1 → Map_get m k = None.
Proof.
  induction m as [|[k' v'] rest IH]; [reflexivity|].
  rewrite fmap_cons. cbn [fst Map_get]. intros Hnot.
  apply not_elem_of_cons in Hnot as [Hne Hnot].
  destruct (String.eqb_spec k' k); [congruence | auto].
Qed.

Lemma Map_set_fresh {V : Type} (m : list (string * V)) (k : string) (v : V) :
  k ∉ m.*1 → Map_set m k v = m ++ [(k, v)].
Proof.
  induction m as [|[k' v'] rest IH]; [reflexivity|].
  rewrite fmap_cons. cbn [fst Map_set]. intros Hnot.
  apply not_elem_of_cons in Hnot as [Hne Hnot].
  destruct (String.eqb_spec k' k); [congruence|]. by rewrite IH.
Qed.

(** Scanning records of distinct, non-excluded, not yet present stages only
    appends them. *)
Lemma Trim_fold_fresh (ex : gset string) (u : list LabelRecord) :
  ∀ m : list (string * LabelRecord),
    NoDup (m.*1 ++ map stage u) →
    Forall (λ e, stage e ∉ ex) u →
    fold_left (Trim.latestStep ex) u m = m ++ map (λ e, (stage e, e)) u.
Proof.
  induction u as [|e u IH]; intros m Hnd Hex; simpl.
  - by rewrite app_nil_r.
  - apply Forall_cons in Hex as [He Hex].
    assert (Hfresh : stage e ∉ m.*1).
    { apply NoDup_app in Hnd as (_ & Hdisj & _). intros Hin.
      apply (Hdisj _ Hin). left. }
    unfold Trim.latestStep at 2. rewrite bool_decide_eq_false_2 by done.
    rewrite (Map_get_notin _ _ Hfresh), (Map_set_fresh _ _ _ Hfresh).
    rewrite IH; [by rewrite <- app_assoc | | done].
    rewrite fmap_app. simpl. rewrite <- app_assoc. exact Hnd.
Qed.

(** X4. Deduplication is idempotent: run on its own output, the filter and
    deduplicate step returns that output unchanged, order included. *)
Theorem uniqueStages_idempotent
    (excludeStages : gset string) (labeled : list LabelRecord) :
  Trim.uniqueStages excludeStages (Trim.uniqueStages excludeStages labeled)
  = Trim.uniqueStages excludeStages labeled.
Proof.
  set (u := Trim.uniqueStages excludeStages labeled).
  unfold Trim.uniqueStages at 1. unfold Trim.latestByStage.
  rewrite Trim_fold_fresh.
  - unfold Map_values. simpl. rewrite map_map. simpl. apply map_id.
  - simpl. apply Trim_uniqueStages_NoDup_stages.
  - apply Forall_forall. intros x Hx.
    by apply uniqueStages_from_labeled in Hx as [_ ?].
Qed.

(** Dropping the entries of excluded keys from a map. *)
Lemma Map_get_filter_ex {V : Type} (ex : gset string)
    (m : list (string * V)) (k : string) :
  k ∉ ex → Map_get (filter (λ kv, kv.1 ∉ ex) m) k = Map_get m k.
Proof.
  intros Hk. induction m as [|[k' v'] rest IH]; [reflexivity|].
  destruct (decide (k' ∈ ex)) as [Hk'|Hk'].
  - rewrite filter_cons_False by (simpl; tauto). simpl.
    destruct (String.eqb_spec k' k); [congruence | exact IH].
  - rewrite filter_cons_True by done. simpl. by rewrite IH.
Qed.

Lemma Map_set_filter_ex {V : Type} (ex : gset string)
    (m : list (string * V)) (k : string) (v : V) :
  filter (λ kv, kv.1 ∉ ex) (Map_set m k v)
  = if bool_decide (k ∈ ex) then filter (λ kv, kv.1 ∉ ex) m
    else Map_set (filter (λ kv, kv.1 ∉ ex) m) k v.
Proof.
  induction m as [|[k' v'] rest IH]; simpl.
  - case_bool_decide.
    + by rewrite filter_cons_False by (simpl; tauto).
    + by rewrite filter_cons_True.
  - destruct (String.eqb_spec k' k) as [->|Hne].
    + case_bool_decide.
      * by rewrite !filter_cons_False by (simpl; tauto).
      * rewrite !filter_cons_True by done. simpl. by rewrite String.eqb_refl.
    + destruct (decide (k' ∈ ex)) as [Hk'|Hk'].
      * rewrite !filter_cons_False by (simpl; tauto). exact IH.
      * rewrite !filter_cons_True by done. rewrite IH.
        case_bool_decide; [reflexivity|]. simpl.
        destruct (String.eqb_spec k' k); [congruence | reflexivity].
Qed.

Lemma Trim_fold_filter (ex : gset string) (labeled : list LabelRecord) :
  ∀ m : list (string * LabelRecord),
    filter (λ kv, kv.1 ∉ ex) (fold_left (Trim.latestStep ∅) labeled m)
    = fold_left (Trim.latestStep ex) labeled (filter (λ kv, kv.1 ∉ ex) m).
Proof.
  induction labeled as [|e l IH]; intros m; [reflexivity|].
  cbn [fold_left]. rewrite IH. f_equal.
  unfold Trim.latestStep. rewrite (bool_decide_eq_false_2 (stage e ∈ ∅)) by set_solver.
  destruct (decide (stage e ∈ ex)) as [Hex|Hex].
  - rewrite bool_decide_eq_true_2 by done.
    destruct (Map_get m (stage e)); [destruct (_ >? _)|]; try reflexivity;
      rewrite Map_set_filter_ex; by rewrite bool_decide_eq_true_2.
  - rewrite bool_decide_eq_false_2 by done.
    rewrite Map_get_filter_ex by done.
    destruct (Map_get m (stage e)); [destruct (_ >? _)|]; try reflexivity;
      rewrite Map_set_filter_ex; by rewrite bool_decide_eq_false_2.
Qed.

(** X5. Exclusion and deduplication commute: the index built with an
    exclusion set is the index built without any exclusion, with the records
    of excluded stages dropped.  Excluding a stage therefore never changes
    which record another stage keeps, nor the order of the others. *)
Theorem uniqueStages_exclusion_commutes
    (excludeStages : gset string) (labeled : list LabelRecord) :
  Trim.uniqueStages excludeStages labeled
  = filter (λ x, stage x ∉ excludeStages) (Trim.uniqueStages ∅ labeled).
Proof.
  unfold Trim.uniqueStages, Trim.latestByStage.
  pose proof (Trim_fold_filter excludeStages labeled []) as Hfold.
  rewrite filter_nil in Hfold. rewrite <- Hfold. clear Hfold.
  pose proof (Trim_fold_wf ∅ labeled [] MapWf_nil) as [_ Hkeyed].
  unfold Map_values.
  induction Hkeyed as [|[k v] rest Hk _ IH]; [reflexivity|].
  simpl in Hk. subst k. destruct (decide (stage v ∈ excludeStages)) as [Hex|Hex].
  - rewrite filter_cons_False by (simpl; tauto). simpl.
    rewrite filter_cons_False by tauto. exact IH.
  - rewrite filter_cons_True by done. simpl.
    rewrite filter_cons_True by done. by rewrite IH.
Qed.

Lemma Map_get_Some_keys {V : Type} (m : list (string * V)) (k : string) (v : V) :
  Map_get m k = Some v → k ∈ m.*1.
Proof.
  intros H. apply Map_get_Some_elem in H. apply list_elem_of_fmap. by exists (k, v).
Qed.

Lemma Trim_latestStep_keys (ex : gset string) (m : list (string * LabelRecord))
    (e : LabelRecord) :
  (Trim.latestStep ex m e).*1 =
  if bool_decide (stage e ∈ ex) then m.*1
  else if bool_decide (stage e ∈ m.*1) then m.*1 else m.*1 ++ [stage e].
Proof.
  unfold Trim.latestStep. case_bool_decide; [reflexivity|].
  destruct (Map_get m (stage e)) as [prev|] eqn:Hget.
  - apply Map_get_Some_keys in Hget.
    rewrite (bool_decide_eq_true_2 _ Hget).
    destruct (_ >? _); [|reflexivity].
    by rewrite Map_set_keys, (bool_decide_eq_true_2 _ Hget).
  - apply Map_get_None_keys in Hget.
    rewrite (bool_decide_eq_false_2 _ Hget).
    by rewrite Map_set_keys, (bool_decide_eq_false_2 _ Hget).
Qed.

Lemma Trim_fold_keys (ex : gset string) (labeled : list LabelRecord) :
  ∀ m : list (string * LabelRecord),
    (fold_left (Trim.latestStep ex) labeled m).*1
    = m.*1 ++ filter (λ s, s ∉ m.*1)
                (firstSeen (filter (λ s, s ∉ ex) (map stage labeled))).
Proof.
  induction labeled as [|e l IH]; intros m.
  - simpl. by rewrite app_nil_r.
  - cbn [fold_left map]. rewrite IH, Trim_latestStep_keys.
    destruct (decide (stage e ∈ ex)) as [Hex|Hex].
    + rewrite bool_decide_eq_true_2 by done.
      rewrite (filter_cons_False _ (stage e)) by tauto. reflexivity.
    + rewrite bool_decide_eq_false_2 by done.
      rewrite (filter_cons_True _ (stage e)) by done. cbn [firstSeen].
      destruct (decide (stage e ∈ m.*1)) as [Hin|Hin].
      * rewrite bool_decide_eq_true_2 by done.
        rewrite (filter_cons_False _ (stage e)) by tauto.
        rewrite list_filter_filter_l; [reflexivity|].
        intros x Hx ->. done.
      * rewrite bool_decide_eq_false_2 by done.
        rewrite (filter_cons_True _ (stage e)) by done.
        rewrite <- app_assoc. simpl. do 2 f_equal.
        rewrite list_filter_filter. apply list_filter_iff. intros x.
        rewrite elem_of_app, list_elem_of_singleton. tauto.
Qed.

Lemma filter_not_in_nil (l : list string) :
  filter (λ s, s ∉ ([] : list string)) l = l.
Proof.
  induction l as [|x l IH]; [reflexivity|].
  rewrite filter_cons_True by apply not_elem_of_nil. by rewrite IH.
Qed.

(** X6. The index lists the stages in the order in which they are first
    seen among the non-excluded collected labels, whichever of a stage's
    records it ends up keeping.  This is the order in which the selector
    breaks ties of age between different stages. *)
Theorem uniqueStages_first_seen_order
    (excludeStages : gset string) (labeled : list LabelRecord) :
  map stage (Trim.uniqueStages excludeStages labeled)
  = firstSeen (filter (λ s, s ∉ excludeStages) (map stage labeled))
  ∧ map stage (IndexJs.uniqueStages excludeStages labeled)
    = firstSeen (filter (λ s, s ∉ excludeStages) (map stage labeled)).
Proof.
  rewrite IndexJs_uniqueStages_eq.
  assert (H : map stage (Trim.uniqueStages excludeStages labeled)
              = firstSeen (filter (λ s, s ∉ excludeStages) (map stage labeled))).
  { unfold Trim.uniqueStages, Trim.latestByStage.
    rewrite (MapWf_stage_values _ (Trim_fold_wf excludeStages labeled [] MapWf_nil)).
    rewrite Trim_fold_keys. simpl. apply filter_not_in_nil. }
  split; exact H.
Qed.

(** ** Every run of [trimStagesWithClient] *)

Section TrimEveryRun.
Context {S E : Type}.
Context (send : S → Command → S * (E + Response)).

Lemma collectLoop_lists_for (fuel : nat) :
  ∀ (secretId : string) (st st' : S) (tok : option string)
    (labeled : list LabelRecord) (calls calls' : list Command)
    (out : E + list LabelRecord),
    collectLoop send fuel secretId st tok labeled calls = Some (st', calls', out) →
    ∃ more, calls' = calls ++ ListSecretVersionIdsCommand secretId true tok 100 :: more
            ∧ Forall (isListFor secretId) more.
Proof.
  induction fuel as [|fuel IH]; intros secretId st st' tok labeled calls calls' out H;
    simpl in H; [discriminate|].
  unfold listCommand in *.
  destruct (send st (ListSecretVersionIdsCommand secretId true tok 100)) as [st1 [err|resp]].
  - inversion H; subst. by exists [].
  - destruct (truthy (NextToken resp)).
    + apply IH in H as (more & -> & Hmore).
      exists (ListSecretVersionIdsCommand secretId true (NextToken resp) 100 :: more).
      rewrite <- app_assoc. split; [done|]. constructor; [by eexists | done].
    + inversion H; subst. by exists [].
Qed.

Lemma collect_lists_for (fuel : nat) (secretId : string) (st st' : S)
    (calls : list Command) (out : E + list LabelRecord) :
  collect send fuel secretId st = Some (st', calls, out) →
  ∃ more, calls = ListSecretVersionIdsCommand secretId true None 100 :: more
          ∧ Forall (isListFor secretId) more.
Proof. intros H. by apply collectLoop_lists_for in H. Qed.

(** Every later listing command carries the non-empty token of the page
    before it. *)
Lemma collectLoop_continues_with_token (fuel : nat) :
  ∀ (secretId : string) (st st' : S) (tok : option string)
    (labeled : list LabelRecord) (calls calls' : list Command)
    (out : E + list LabelRecord),
    collectLoop send fuel secretId st tok labeled calls = Some (st', calls', out) →
    ∃ more, calls' = calls ++ ListSecretVersionIdsCommand secretId true tok 100 :: more
            ∧ Forall (λ c, ∃ token, token ≠ ""
                           ∧ c = ListSecretVersionIdsCommand
                                   secretId true (Some token) 100) more.
Proof.
  induction fuel as [|fuel IH]; intros secretId st st' tok labeled calls calls' out H;
    simpl in H; [discriminate|].
  unfold listCommand in *.
  destruct (send st (ListSecretVersionIdsCommand secretId true tok 100)) as [st1 [err|resp]].
  - inversion H; subst. by exists [].
  - destruct (truthy (NextToken resp)) eqn:Htruthy.
    + apply IH in H as (more & -> & Hmore).
      exists (ListSecretVersionIdsCommand secretId true (NextToken resp) 100 :: more).
      rewrite <- app_assoc. split; [done|]. constructor; [|done].
      destruct (NextToken resp) as [token|]; [|discriminate].
      exists token. split; [|reflexivity]. intros ->. discriminate.
    + inversion H; subst. by exists [].
Qed.

(** X7. Whatever the client answers, the commands of a finished run are: a
    listing command for the secret without token, then only listing commands
    for the same secret, each with a non-empty token, then at most one
    remove-stage command, for that same secret, as the very last command.
    Every listing command asks for deprecated versions too, in pages of
    100. *)
Theorem trim_commands_shape
    (fuel : nat) (client client' : S) (options : Trim.Options)
    (calls : list Command) (outcome : E + RunResult) :
  Trim.trimStagesWithClient send fuel client options = Some (client', calls, outcome) →
  ∃ lists mutation,
    calls = ListSecretVersionIdsCommand (Trim.secretId options) true None 100
            :: lists ++ mutation
    ∧ Forall (λ c, ∃ token, token ≠ ""
                   ∧ c = ListSecretVersionIdsCommand
                           (Trim.secretId options) true (Some token) 100) lists
    ∧ (mutation = []
       ∨ ∃ stage versionId,
           mutation = [UpdateSecretVersionStageCommand
                         (Trim.secretId options) stage versionId]).
Proof.
  destruct (collect send fuel (Trim.secretId options) client)
    as [[[client1 calls1] [err|labeled]]|] eqn:Hcollect.
  - rewrite (trim_collect_rejects _ _ _ _ _ _ _ Hcollect). intros [= <- <- <-].
    apply collectLoop_continues_with_token in Hcollect as (more & -> & Hmore).
    exists more, []. rewrite app_nil_r. auto.
  - rewrite (trim_after_collect _ _ _ _ _ _ _ Hcollect).
    apply collectLoop_continues_with_token in Hcollect as (more & -> & Hmore).
    destruct (candidateOf options labeled) as [candidate|].
    + destruct (dryRunOf options).
      * intros [= <- <- <-]. exists more, []. rewrite app_nil_r. auto.
      * destruct (send client1 (removeCommand options candidate)) as [client2 [err|resp]];
          intros [= <- <- <-]; exists more, [removeCommand options candidate];
          (split; [reflexivity|]; split; [done|]; right; by eexists _, _).
    + intros [= <- <- <-]. exists more, []. rewrite app_nil_r. auto.
  - unfold Trim.trimStagesWithClient. rewrite Hcollect. discriminate.
Qed.

(** X8. The returned object and the commands sent always agree: the
    manageable count never exceeds the label count; [trimmed] is true only if
    exactly one remove-stage command was sent, for the pair reported in
    [removed]; and if [trimmed] is false no remove-stage command was sent. *)
Theorem trim_result_matches_commands
    (fuel : nat) (client client' : S) (options : Trim.Options)
    (calls : list Command) (result : RunResult) :
  Trim.trimStagesWithClient send fuel client options = Some (client', calls, inr result) →
  (manageableCount result ≤ count result)%nat
  ∧ (trimmed result = true →
       ∃ r, removed result = Some r
            ∧ filter (λ c, isUpdate c = true) calls
              = [UpdateSecretVersionStageCommand
                   (Trim.secretId options) (removed_stage r) (removed_versionId r)])
  ∧ (trimmed result = false → filter (λ c, isUpdate c = true) calls = []).
Proof.
  destruct (collect send fuel (Trim.secretId options) client)
    as [[[client1 calls1] [err|labeled]]|] eqn:Hcollect.
  - rewrite (trim_collect_rejects _ _ _ _ _ _ _ Hcollect). intros [=].
  - rewrite (trim_after_collect _ _ _ _ _ _ _ Hcollect).
    pose proof (filter_isUpdate_none _ (collect_only_lists _ _ _ _ _ _ _ Hcollect))
      as Hnone.
    pose proof (Trim_uniqueStages_length_le (excludeStagesOf options) labeled) as Hlen.
    destruct (candidateOf options labeled) as [candidate|].
    + destruct (dryRunOf options).
      * intros [= <- <- <-]. simpl. split; [exact Hlen|]. split; [discriminate | done].
      * destruct (send client1 (removeCommand options candidate)) as [client2 [err|resp]];
          intros [= <- <- <-]. simpl. split; [exact Hlen|]. split; [|discriminate].
        intros _. eexists. split; [reflexivity|].
        rewrite filter_app, Hnone. reflexivity.
    + intros [= <- <- <-]. simpl. split; [exact Hlen|]. split; [discriminate | done].
  - unfold Trim.trimStagesWithClient. rewrite Hcollect. discriminate.
Qed.
End TrimEveryRun.

Section TrimTargets.
Context {S E : Type}.
Context (send : S → Command → S * (E + Response)).

(** The newest record of a stage is what the index keeps for it. *)
Lemma uniqueStages_newest_of_stage (ex : gset string) (labeled : list LabelRecord)
    (x e : LabelRecord) :
  x ∈ Trim.uniqueStages ex labeled → e ∈ labeled → stage e = stage x →
  createdDate e ≤ createdDate x.
Proof.
  intros Hx He Hst. apply Trim_uniqueStages_elem in Hx as [_ Hfold].
  assert (Hin : e ∈ recordsOf (stage x) labeled).
  { unfold recordsOf. by apply list_elem_of_filter. }
  assert (Hne : recordsOf (stage x) labeled ≠ []).
  { intros Hnil. rewrite Hnil in Hin. by apply elem_of_nil in Hin. }
  destruct (latestOf_fold_first_latest _ Hne)
    as (pre & r & post & Heq & Hfold' & Hpre & Hpost).
  rewrite Hfold in Hfold'. inversion Hfold'; subst r.
  rewrite Heq in Hin. rewrite Forall_forall in Hpre, Hpost.
  apply elem_of_app in Hin as [Hin|Hin]; [specialize (Hpre _ Hin); lia|].
  apply elem_of_cons in Hin as [->|Hin]; [lia | auto].
Qed.

(** X9. A remove-stage command, when one is sent, names a stage and version
    that the listing reported together; the stage is not excluded; among the
    versions reported with that stage it is one of the newest, so older
    versions carrying the same label keep it; and every other manageable
    stage has a version at least as new as the one named. *)
Theorem trim_update_target
    (fuel : nat) (client client' : S) (options : Trim.Options)
    (calls : list Command) (outcome : E + RunResult)
    (secretId stg vid : string) :
  Trim.trimStagesWithClient send fuel client options = Some (client', calls, outcome) →
  UpdateSecretVersionStageCommand secretId stg vid ∈ calls →
  ∃ client1 calls1 labeled e,
    collect send fuel (Trim.secretId options) client
    = Some (client1, calls1, inr labeled)
    ∧ secretId = Trim.secretId options
    ∧ e ∈ labeled ∧ stage e = stg ∧ versionId e = vid
    ∧ (stg ∉ excludeStagesOf options)
    ∧ (∀ x, x ∈ labeled → stage x = stg → createdDate x ≤ createdDate e)
    ∧ (∀ x, x ∈ labeled → stage x ∉ excludeStagesOf options →
         ∃ y, y ∈ labeled ∧ stage y = stage x ∧ createdDate e ≤ createdDate y).
Proof.
  destruct (collect send fuel (Trim.secretId options) client)
    as [[[client1 calls1] [err|labeled]]|] eqn:Hcollect.
  - rewrite (trim_collect_rejects _ _ _ _ _ _ _ Hcollect). intros [= <- <- <-] Hin.
    apply collect_only_lists in Hcollect. rewrite Forall_forall in Hcollect.
    specialize (Hcollect _ Hin). discriminate.
  - rewrite (trim_after_collect _ _ _ _ _ _ _ Hcollect).
    pose proof (collect_only_lists _ _ _ _ _ _ _ Hcollect) as Hlists.
    rewrite Forall_forall in Hlists.
    assert (Hno : UpdateSecretVersionStageCommand secretId stg vid ∉ calls1).
    { intros Hin. specialize (Hlists _ Hin). discriminate. }
    destruct (candidateOf options labeled) as [candidate|] eqn:Hcand.
    + assert (Htarget :
               UpdateSecretVersionStageCommand secretId stg vid
               ∈ calls1 ++ [removeCommand options candidate] →
               ∃ client1' calls1' labeled' e,
                 Some (client1, calls1, inr labeled)
                 = Some (client1', calls1', @inr E _ labeled')
                 ∧ secretId = Trim.secretId options
                 ∧ e ∈ labeled' ∧ stage e = stg ∧ versionId e = vid
                 ∧ (stg ∉ excludeStagesOf options)
                 ∧ (∀ x, x ∈ labeled' → stage x = stg → createdDate x ≤ createdDate e)
                 ∧ (∀ x, x ∈ labeled' → stage x ∉ excludeStagesOf options →
                      ∃ y, y ∈ labeled' ∧ stage y = stage x
                           ∧ createdDate e ≤ createdDate y)).
      { intros Hin. apply elem_of_app in Hin as [Hin|Hin]; [done|].
        apply list_elem_of_singleton in Hin. inversion Hin; subst.
        unfold candidateOf in Hcand. rewrite pickOldest_unfold in Hcand.
        destruct (js_le _ _); [discriminate|].
        apply leftmost_oldest_min in Hcand as [Hu Hmin].
        destruct (uniqueStages_from_labeled _ _ _ Hu) as [Hl Hex].
        exists client1, calls1, labeled, candidate.
        split; [reflexivity|]. split; [reflexivity|]. split; [exact Hl|].
        split; [reflexivity|]. split; [reflexivity|]. split; [exact Hex|]. split.
        - intros x Hx Hst. by apply (uniqueStages_newest_of_stage _ _ _ _ Hu Hx).
        - intros x Hx Hxex.
          assert (Hne : recordsOf (stage x) labeled ≠ []).
          { intros Hnil. assert (Hin' : x ∈ recordsOf (stage x) labeled).
            { unfold recordsOf. by apply list_elem_of_filter. }
            rewrite Hnil in Hin'. by apply elem_of_nil in Hin'. }
          destruct (uniqueStages_latest_first_seen_aux _ _ _ Hxex Hne) as (y & Hy & Hys).
          exists y. split; [by apply uniqueStages_from_labeled in Hy as [? _]|].
          split; [done | by apply Hmin]. }
      destruct (dryRunOf options).
      * intros [= <- <- <-] Hin. done.
      * destruct (send client1 (removeCommand options candidate)) as [client2 [err|resp]];
          intros [= <- <- <-] Hin; exact (Htarget Hin).
    + intros [= <- <- <-] Hin. done.
  - unfold Trim.trimStagesWithClient. rewrite Hcollect. discriminate.
Qed.

(** X10. When no collected label is manageable (nothing was collected, or
    every stage is excluded) the run returns [trimmed = false] without
    [removed], with a manageable count of 0, and sends no remove-stage
    command, whatever the threshold, a negative one or [NaN] included, and
    whatever the dry-run flag. *)
Theorem trim_nothing_manageable
    (fuel : nat) (client client1 : S) (options : Trim.Options)
    (calls : list Command) (labeled : list LabelRecord) :
  collect send fuel (Trim.secretId options) client = Some (client1, calls, inr labeled) →
  Forall (λ e, stage e ∈ excludeStagesOf options) labeled →
  Trim.trimStagesWithClient send fuel client options
  = Some (client1, calls,
          inr {| trimmed := false; removed := None;
                 count := length labeled; manageableCount := 0 |})
  ∧ filter (λ c, isUpdate c = true) calls = [].
Proof.
  intros Hcollect Hall.
  assert (Hnil : Trim.uniqueStages (excludeStagesOf options) labeled = []).
  { destruct (Trim.uniqueStages (excludeStagesOf options) labeled) as [|x u] eqn:Hu;
      [reflexivity|].
    assert (Hx : x ∈ Trim.uniqueStages (excludeStagesOf options) labeled)
      by (rewrite Hu; left).
    apply uniqueStages_from_labeled in Hx as [Hin Hex].
    rewrite Forall_forall in Hall. by specialize (Hall _ Hin). }
  rewrite (trim_after_collect _ _ _ _ _ _ _ Hcollect).
  unfold candidateOf, resultOf. rewrite Hnil.
  assert (Hpick : Trim.pickOldestStageToDeprecate [] (thresholdOf options) = None).
  { rewrite pickOldest_unfold. by destruct (js_le _ _). }
  rewrite Hpick. split; [reflexivity|].
  eapply filter_isUpdate_none, collect_only_lists, Hcollect.
Qed.

Lemma collectLoop_endless (Inv : S → Prop) (secretId : string) :
  (∀ st tok, Inv st →
     ∃ st' resp, send st (ListSecretVersionIdsCommand secretId true tok 100) = (st', inr resp)
                 ∧ truthy (NextToken resp) = true ∧ Inv st') →
  ∀ (fuel : nat) (st : S) (tok : option string) (labeled : list LabelRecord)
    (calls : list Command),
    Inv st → collectLoop send fuel secretId st tok labeled calls = None.
Proof.
  intros Hendless. induction fuel as [|fuel IH];
    intros st tok labeled calls Hst; [reflexivity|].
  destruct (Hendless st tok Hst) as (st' & resp & Hsend & Htok & Hst').
  cbn [collectLoop]. unfold listCommand. rewrite Hsend, Htok. by apply IH.
Qed.

(** X11. The pagination loop has no bound of its own: against a client that
    keeps answering the listing command with a continuation token, no amount
    of fuel lets the collection, and hence the run, finish.  [Inv] singles out
    the client states in which that is the case. *)
Theorem trim_never_returns_on_endless_pagination
    (Inv : S → Prop) (secretId : string) :
  (∀ st tok, Inv st →
     ∃ st' resp, send st (ListSecretVersionIdsCommand secretId true tok 100) = (st', inr resp)
                 ∧ truthy (NextToken resp) = true ∧ Inv st') →
  ∀ (fuel : nat) (client : S) (options : Trim.Options),
    Inv client →
    Trim.secretId options = secretId →
    collect send fuel secretId client = None
    ∧ Trim.trimStagesWithClient send fuel client options = None.
Proof.
  intros Hendless fuel client options Hinv Hid.
  assert (Hcollect : collect send fuel secretId client = None)
    by (by apply (collectLoop_endless Inv)).
  split; [exact Hcollect|].
  unfold Trim.trimStagesWithClient. by rewrite Hid, Hcollect.
Qed.
End TrimTargets.

(** ** Parsing the exclusion list *)

Lemma split_no_separator (sep : ascii) (piece : string) :
  hasChar sep piece = false → split sep piece = [piece].
Proof.
  induction piece as [|c rest IH]; [reflexivity|]. simpl.
  intros H. apply orb_false_iff in H as [Hc Hrest].
  rewrite Hc, (IH Hrest). reflexivity.
Qed.

Lemma split_append (sep : ascii) (piece rest : string) :
  hasChar sep piece = false →
  split sep (String.append piece (String sep rest)) = piece :: split sep rest.
Proof.
  induction piece as [|c piece' IH]; simpl.
  - intros _. by rewrite Ascii.eqb_refl.
  - intros H. apply orb_false_iff in H as [Hc Hrest].
    rewrite Hc, (IH Hrest). reflexivity.
Qed.

Lemma split_joinComma (pieces : list string) :
  pieces ≠ [] →
  Forall (λ piece, hasChar ","%char piece = false) pieces →
  split ","%char (joinComma pieces) = pieces.
Proof.
  induction pieces as [|piece rest IH]; [congruence|]. intros _ Hall.
  apply Forall_cons in Hall as [Hpiece Hrest].
  destruct rest as [|piece' rest'].
  - simpl. by apply split_no_separator.
  - change (joinComma (piece :: piece' :: rest'))
      with (String.append piece (String ","%char (joinComma (piece' :: rest')))).
    rewrite split_append by done.
    rewrite IH; [reflexivity | congruence | done].
Qed.

Lemma split_pieces_no_separator (sep : ascii) (s : string) :
  Forall (λ piece, hasChar sep piece = false) (split sep s).
Proof.
  induction s as [|c rest IH]; simpl; [by repeat constructor|].
  destruct (Ascii.eqb c sep) eqn:Hc.
  - constructor; [reflexivity | exact IH].
  - destruct (split sep rest) as [|h t]; [repeat constructor; simpl; by rewrite Hc|].
    apply Forall_cons in IH as [Hh Ht]. constructor; [|exact Ht].
    simpl. by rewrite Hc, Hh.
Qed.

(** *** Texts, their reversal and their white space *)

Lemma str_app_cons (c : ascii) (a b : string) :
  String.append (String c a) b = String c (String.append a b).
Proof. reflexivity. Qed.

Lemma str_app_nil_r (s : string) : String.append s EmptyString = s.
Proof.
  induction s as [|c s IH]; [reflexivity|]. by rewrite str_app_cons, IH.
Qed.

Lemma str_app_assoc (a b c : string) :
  String.append (String.append a b) c = String.append a (String.append b c).
Proof.
  induction a as [|x a IH]; [reflexivity|]. by rewrite !str_app_cons, IH.
Qed.

Lemma str_length_app (a b : string) :
  String.length (String.append a b) = (String.length a + String.length b)%nat.
Proof.
  induction a as [|x a IH]; [reflexivity|]. rewrite str_app_cons. simpl. by rewrite IH.
Qed.

Lemma str_list_app (a b : string) :
  String.list_ascii_of_string (String.append a b)
  = String.list_ascii_of_string a ++ String.list_ascii_of_string b.
Proof.
  induction a as [|x a IH]; [reflexivity|]. rewrite str_app_cons. simpl. by rewrite IH.
Qed.

Lemma str_of_list_app (l k : list ascii) :
  String.string_of_list_ascii (l ++ k)
  = String.append (String.string_of_list_ascii l) (String.string_of_list_ascii k).
Proof.
  induction l as [|x l IH]; [reflexivity|]. simpl. by rewrite str_app_cons, IH.
Qed.

Lemma reverseString_app (a b : string) :
  reverseString (String.append a b)
  = String.append (reverseString b) (reverseString a).
Proof.
  unfold reverseString. by rewrite str_list_app, rev_app_distr, str_of_list_app.
Qed.

Lemma reverseString_involutive (s : string) : reverseString (reverseString s) = s.
Proof.
  unfold reverseString.
  by rewrite String.list_ascii_of_string_of_list_ascii, rev_involutive,
    String.string_of_list_ascii_of_string.
Qed.

Lemma reverseString_length (s : string) :
  String.length (reverseString s) = String.length s.
Proof.
  assert (Hlen : ∀ l, String.length (String.string_of_list_ascii l) = length l).
  { induction l as [|x l IH]; simpl; [reflexivity | congruence]. }
  assert (Hlen' : ∀ t, length (String.list_ascii_of_string t) = String.length t).
  { induction t as [|x t IH]; simpl; [reflexivity | congruence]. }
  unfold reverseString. by rewrite Hlen, length_rev, Hlen'.
Qed.

Lemma hasChar_app (c : ascii) (a b : string) :
  hasChar c (String.append a b) = hasChar c a || hasChar c b.
Proof.
  induction a as [|x a IH]; [reflexivity|].
  rewrite str_app_cons. simpl. by rewrite IH, orb_assoc.
Qed.

Lemma ascii_of_code (b : ascii) (n : nat) : nat_of_ascii b = n → b = ascii_of_nat n.
Proof. intros <-. symmetry. apply ascii_nat_embedding. Qed.

Ltac in_table :=
  unfold jsWhiteSpace;
  solve [repeat first [apply list_elem_of_here | apply list_elem_of_further]].

Ltac split_tests :=
  repeat match goal with
         | H : (_ || _) = true |- _ => apply orb_true_iff in H as [H|H]
         | H : (_ && _) = true |- _ =>
             let H' := fresh in apply andb_true_iff in H as [H H']
         | H : Nat.eqb _ _ = true |- _ => apply Nat.eqb_eq in H
         | H : Nat.leb _ _ = true |- _ => apply Nat.leb_le in H
         end.

Ltac use_codes :=
  repeat match goal with
         | H : nat_of_ascii ?b = ?n |- _ => rewrite (ascii_of_code b n H); clear H
         end.

Lemma whiteSpace1_table (b : ascii) :
  whiteSpace1 (nat_of_ascii b) = true → String b EmptyString ∈ jsWhiteSpace.
Proof.
  unfold whiteSpace1. intros H. split_tests.
  - assert (Hn : (nat_of_ascii b = 9 ∨ nat_of_ascii b = 10 ∨ nat_of_ascii b = 11
                  ∨ nat_of_ascii b = 12 ∨ nat_of_ascii b = 13)%nat) by lia.
    destruct Hn as [Hn|[Hn|[Hn|[Hn|Hn]]]]; rewrite (ascii_of_code _ _ Hn); in_table.
  - use_codes. in_table.
Qed.

Lemma whiteSpace2_table (b0 b1 : ascii) :
  whiteSpace2 (nat_of_ascii b0) (nat_of_ascii b1) = true →
  String b0 (String b1 EmptyString) ∈ jsWhiteSpace.
Proof. unfold whiteSpace2. intros H. split_tests. use_codes. in_table. Qed.

Lemma whiteSpace3_table (b0 b1 b2 : ascii) :
  whiteSpace3 (nat_of_ascii b0) (nat_of_ascii b1) (nat_of_ascii b2) = true →
  String b0 (String b1 (String b2 EmptyString)) ∈ jsWhiteSpace.
Proof.
  unfold whiteSpace3. intros H. split_tests.
  all: try (use_codes; in_table).
  assert (Hn : (nat_of_ascii b2 = 128 ∨ nat_of_ascii b2 = 129
                ∨ nat_of_ascii b2 = 130 ∨ nat_of_ascii b2 = 131
                ∨ nat_of_ascii b2 = 132 ∨ nat_of_ascii b2 = 133
                ∨ nat_of_ascii b2 = 134 ∨ nat_of_ascii b2 = 135
                ∨ nat_of_ascii b2 = 136 ∨ nat_of_ascii b2 = 137
                ∨ nat_of_ascii b2 = 138)%nat) by lia.
  destruct Hn as [Hn|[Hn|[Hn|[Hn|[Hn|[Hn|[Hn|[Hn|[Hn|[Hn|Hn]]]]]]]]]];
    rewrite (ascii_of_code _ _ Hn); use_codes; in_table.
Qed.

(** The shape of a table entry, as the two matchers see it. *)
Lemma jsWhiteSpace_cases (w : string) :
  w ∈ jsWhiteSpace →
  (∃ b0, w = String b0 EmptyString ∧ whiteSpace1 (nat_of_ascii b0) = true)
  ∨ (∃ b0 b1, w = String b0 (String b1 EmptyString)
              ∧ whiteSpace1 (nat_of_ascii b0) = false
              ∧ whiteSpace1 (nat_of_ascii b1) = false
              ∧ whiteSpace2 (nat_of_ascii b0) (nat_of_ascii b1) = true)
  ∨ (∃ b0 b1 b2, w = String b0 (String b1 (String b2 EmptyString))
                 ∧ whiteSpace1 (nat_of_ascii b0) = false
                 ∧ whiteSpace2 (nat_of_ascii b0) (nat_of_ascii b1) = false
                 ∧ whiteSpace1 (nat_of_ascii b2) = false
                 ∧ whiteSpace2 (nat_of_ascii b1) (nat_of_ascii b2) = false
                 ∧ whiteSpace3 (nat_of_ascii b0) (nat_of_ascii b1) (nat_of_ascii b2)
                   = true).
Proof.
  unfold jsWhiteSpace. intros H.
  repeat (apply elem_of_cons in H as [->|H];
          [first [ left; eexists; split; reflexivity
                 | right; left; eexists _, _; repeat split; reflexivity
                 | right; right; eexists _, _, _; repeat split; reflexivity ]|]).
  by apply elem_of_nil in H.
Qed.

Lemma stripWhiteSpace_sound (s rest : string) :
  stripWhiteSpace s = Some rest →
  ∃ w, w ∈ jsWhiteSpace ∧ s = String.append w rest.
Proof.
  unfold stripWhiteSpace. destruct s as [|b0 r0]; [discriminate|].
  destruct (whiteSpace1 (nat_of_ascii b0)) eqn:H1.
  { intros [= <-]. exists (String b0 EmptyString). split; [|reflexivity].
    by apply whiteSpace1_table. }
  destruct r0 as [|b1 r1]; [discriminate|].
  destruct (whiteSpace2 (nat_of_ascii b0) (nat_of_ascii b1)) eqn:H2.
  { intros [= <-]. exists (String b0 (String b1 EmptyString)). split; [|reflexivity].
    by apply whiteSpace2_table. }
  destruct r1 as [|b2 r2]; [discriminate|].
  destruct (whiteSpace3 _ _ _) eqn:H3; [|discriminate].
  intros [= <-]. exists (String b0 (String b1 (String b2 EmptyString))).
  split; [|reflexivity]. by apply whiteSpace3_table.
Qed.

Lemma stripWhiteSpace_complete (w rest : string) :
  w ∈ jsWhiteSpace → stripWhiteSpace (String.append w rest) = Some rest.
Proof.
  intros H. apply jsWhiteSpace_cases in H
    as [(b0 & -> & H1)|[(b0 & b1 & -> & H1 & _ & H2)
                       |(b0 & b1 & b2 & -> & H1 & H2 & _ & _ & H3)]];
    rewrite ?str_app_cons; unfold stripWhiteSpace.
  - by rewrite H1.
  - by rewrite H1, H2.
  - by rewrite H1, H2, H3.
Qed.

Lemma stripWhiteSpaceEnd_sound (r rest : string) :
  stripWhiteSpaceEnd r = Some rest →
  ∃ w, w ∈ jsWhiteSpace ∧ r = String.append (reverseString w) rest.
Proof.
  unfold stripWhiteSpaceEnd. destruct r as [|b2 r0]; [discriminate|].
  destruct (whiteSpace1 (nat_of_ascii b2)) eqn:H1.
  { intros [= <-]. exists (String b2 EmptyString). split; [|reflexivity].
    by apply whiteSpace1_table. }
  destruct r0 as [|b1 r1]; [discriminate|].
  destruct (whiteSpace2 (nat_of_ascii b1) (nat_of_ascii b2)) eqn:H2.
  { intros [= <-]. exists (String b1 (String b2 EmptyString)). split; [|reflexivity].
    by apply whiteSpace2_table. }
  destruct r1 as [|b0 r2]; [discriminate|].
  destruct (whiteSpace3 _ _ _) eqn:H3; [|discriminate].
  intros [= <-]. exists (String b0 (String b1 (String b2 EmptyString))).
  split; [|reflexivity]. by apply whiteSpace3_table.
Qed.

Lemma stripWhiteSpaceEnd_complete (w rest : string) :
  w ∈ jsWhiteSpace →
  stripWhiteSpaceEnd (String.append (reverseString w) rest) = Some rest.
Proof.
  intros H. apply jsWhiteSpace_cases in H
    as [(b0 & -> & H1)|[(b0 & b1 & -> & _ & H1 & H2)
                       |(b0 & b1 & b2 & -> & _ & _ & H1 & H2 & H3)]].
  - change (reverseString (String b0 EmptyString)) with (String b0 EmptyString).
    rewrite str_app_cons. unfold stripWhiteSpaceEnd. by rewrite H1.
  - change (reverseString (String b0 (String b1 EmptyString)))
      with (String b1 (String b0 EmptyString)).
    rewrite !str_app_cons. unfold stripWhiteSpaceEnd. by rewrite H1, H2.
  - change (reverseString (String b0 (String b1 (String b2 EmptyString))))
      with (String b2 (String b1 (String b0 EmptyString))).
    rewrite !str_app_cons. unfold stripWhiteSpaceEnd. by rewrite H1, H2, H3.
Qed.

Lemma jsWhiteSpace_nonempty (w : string) :
  w ∈ jsWhiteSpace → (0 < String.length w)%nat.
Proof.
  intros H. apply jsWhiteSpace_cases in H
    as [(b0 & -> & _)|[(b0 & b1 & -> & _)|(b0 & b1 & b2 & -> & _)]]; simpl; lia.
Qed.

(** Stripping with fuel: enough fuel leaves nothing more to strip, and what
    was stripped is a sequence of table entries. *)
Lemma stripAll_start (fuel : nat) :
  ∀ s, (String.length s ≤ fuel)%nat →
    ∃ lead,
      Forall (λ w, w ∈ jsWhiteSpace) lead
      ∧ s = String.append (joinAll lead) (stripAll stripWhiteSpace fuel s)
      ∧ stripWhiteSpace (stripAll stripWhiteSpace fuel s) = None.
Proof.
  induction fuel as [|fuel IH]; intros s Hlen.
  - destruct s; [|simpl in Hlen; lia]. by exists [].
  - cbn [stripAll]. destruct (stripWhiteSpace s) as [rest|] eqn:Hs.
    + apply stripWhiteSpace_sound in Hs as (w & Hw & ->).
      pose proof (jsWhiteSpace_nonempty w Hw) as Hpos.
      rewrite str_length_app in Hlen.
      destruct (IH rest) as (lead & Hlead & Heq & Hnone); [lia|].
      exists (w :: lead). split; [by constructor|]. split; [|exact Hnone].
      simpl. rewrite str_app_assoc. by rewrite <- Heq.
    + exists []. by split.
Qed.

Lemma stripAll_end (fuel : nat) :
  ∀ r, (String.length r ≤ fuel)%nat →
    ∃ trail,
      Forall (λ w, w ∈ jsWhiteSpace) trail
      ∧ r = String.append (reverseString (joinAll trail))
                          (stripAll stripWhiteSpaceEnd fuel r)
      ∧ stripWhiteSpaceEnd (stripAll stripWhiteSpaceEnd fuel r) = None.
Proof.
  induction fuel as [|fuel IH]; intros r Hlen.
  - destruct r; [|simpl in Hlen; lia]. by exists [].
  - cbn [stripAll]. destruct (stripWhiteSpaceEnd r) as [rest|] eqn:Hs.
    + apply stripWhiteSpaceEnd_sound in Hs as (w & Hw & ->).
      pose proof (jsWhiteSpace_nonempty w Hw) as Hpos.
      rewrite str_length_app, reverseString_length in Hlen.
      destruct (IH rest) as (trail & Htrail & Heq & Hnone); [lia|].
      exists (trail ++ [w]).
      split; [apply Forall_app; split; [exact Htrail | by constructor]|].
      split; [|exact Hnone].
      assert (Hjoin : joinAll (trail ++ [w]) = String.append (joinAll trail) w).
      { clear. induction trail as [|t trail IH]; simpl.
        - by rewrite str_app_nil_r.
        - by rewrite IH, str_app_assoc. }
      rewrite Hjoin, reverseString_app, str_app_assoc. by rewrite <- Heq.
    + exists []. by split.
Qed.

Lemma whiteSpaceAtStart_iff (s : string) :
  stripWhiteSpace s = None ↔ ¬ whiteSpaceAtStart s.
Proof.
  split.
  - intros Hnone (w & rest & Hw & ->).
    by rewrite (stripWhiteSpace_complete w rest Hw) in Hnone.
  - intros Hnot. destruct (stripWhiteSpace s) as [rest|] eqn:Hs; [|reflexivity].
    exfalso. apply Hnot. apply stripWhiteSpace_sound in Hs as (w & Hw & ->).
    by exists w, rest.
Qed.

Lemma whiteSpaceAtEnd_iff (s : string) :
  stripWhiteSpaceEnd (reverseString s) = None ↔ ¬ whiteSpaceAtEnd s.
Proof.
  split.
  - intros Hnone (w & before & Hw & ->). rewrite reverseString_app in Hnone.
    by rewrite (stripWhiteSpaceEnd_complete w _ Hw) in Hnone.
  - intros Hnot. destruct (stripWhiteSpaceEnd (reverseString s)) as [rest|] eqn:Hs;
      [|reflexivity].
    exfalso. apply Hnot. apply stripWhiteSpaceEnd_sound in Hs as (w & Hw & Hs).
    exists w, (reverseString rest). split; [exact Hw|].
    rewrite <- (reverseString_involutive s), Hs, reverseString_app.
    by rewrite reverseString_involutive.
Qed.

Lemma trimStart_spec (s : string) :
  ∃ lead,
    Forall (λ w, w ∈ jsWhiteSpace) lead
    ∧ s = String.append (joinAll lead) (trimStart s)
    ∧ ¬ whiteSpaceAtStart (trimStart s).
Proof.
  destruct (stripAll_start (String.length s) s) as (lead & Hlead & Heq & Hnone);
    [lia|].
  exists lead. split; [exact Hlead|]. split; [exact Heq|].
  by apply whiteSpaceAtStart_iff.
Qed.

Lemma trimEnd_spec (s : string) :
  ∃ trail,
    Forall (λ w, w ∈ jsWhiteSpace) trail
    ∧ s = String.append (trimEnd s) (joinAll trail)
    ∧ ¬ whiteSpaceAtEnd (trimEnd s).
Proof.
  destruct (stripAll_end (String.length s) (reverseString s))
    as (trail & Htrail & Heq & Hnone); [by rewrite reverseString_length|].
  exists trail. split; [exact Htrail|]. unfold trimEnd. split.
  - rewrite <- (reverseString_involutive s) at 1. rewrite Heq at 1.
    by rewrite reverseString_app, reverseString_involutive.
  - apply whiteSpaceAtEnd_iff. by rewrite reverseString_involutive.
Qed.

(** What [trim] does, said without [trim]: it removes white-space characters
    from both ends, nothing else, and leaves none there. *)
Lemma trim_spec (s : string) : paddingOf (trim s) s ∧ unpadded (trim s).
Proof.
  destruct (trimStart_spec s) as (lead & Hlead & Hs & Hstart).
  destruct (trimEnd_spec (trimStart s)) as (trail & Htrail & Ht & Hend).
  split.
  - exists lead, trail. split; [exact Hlead|]. split; [exact Htrail|].
    unfold trim. by rewrite <- Ht.
  - split; [|exact Hend]. intros (w & rest & Hw & Heq). apply Hstart.
    exists w, (String.append rest (joinAll trail)). split; [exact Hw|].
    rewrite Ht. unfold trim in Heq. by rewrite Heq, str_app_assoc.
Qed.

Lemma trim_unpadded (s : string) : unpadded s → trim s = s.
Proof.
  intros [Hstart Hend].
  assert (Hts : trimStart s = s).
  { unfold trimStart. apply whiteSpaceAtStart_iff in Hstart.
    destruct (String.length s); simpl; [reflexivity | by rewrite Hstart]. }
  unfold trim. rewrite Hts. unfold trimEnd. apply whiteSpaceAtEnd_iff in Hend.
  destruct (String.length s); simpl.
  - apply reverseString_involutive.
  - rewrite Hend. apply reverseString_involutive.
Qed.

Ltac bool_arith :=
  apply not_true_iff_false; intros ?; unfold whiteSpace1, whiteSpace2, whiteSpace3 in *;
  split_tests; lia.

(** No white-space character begins with a byte that continues another one:
    white space put behind a text cannot complete a white-space character at
    its start. *)
Lemma stripWhiteSpace_none_app (name w rest : string) :
  name ≠ EmptyString →
  stripWhiteSpace name = None →
  w ∈ jsWhiteSpace →
  stripWhiteSpace (String.append name (String.append w rest)) = None.
Proof.
  intros Hne Hnone Hw.
  assert (Hfirst : ∃ c tail,
             String.append w rest = String c tail
             ∧ (whiteSpace1 (nat_of_ascii c) = true
                ∨ nat_of_ascii c = 194 ∨ nat_of_ascii c = 225
                ∨ nat_of_ascii c = 226 ∨ nat_of_ascii c = 227
                ∨ nat_of_ascii c = 239)%nat).
  { apply jsWhiteSpace_cases in Hw
      as [(c0 & -> & H1)|[(c0 & c1 & -> & _ & _ & H2)
                         |(c0 & c1 & c2 & -> & _ & _ & _ & _ & H3)]];
      rewrite !str_app_cons; eexists _, _; (split; [reflexivity|]).
    - by left.
    - right. unfold whiteSpace2 in H2. split_tests. lia.
    - right. unfold whiteSpace3 in H3. split_tests; lia. }
  destruct Hfirst as (c & tail & -> & Hc).
  assert (H2c : ∀ n0, whiteSpace2 n0 (nat_of_ascii c) = false).
  { intros n0. destruct Hc as [Hc|Hc]; bool_arith. }
  assert (H3c1 : ∀ n0 n2, whiteSpace3 n0 (nat_of_ascii c) n2 = false).
  { intros n0 n2. destruct Hc as [Hc|Hc]; bool_arith. }
  assert (H3c2 : ∀ n0 n1, whiteSpace3 n0 n1 (nat_of_ascii c) = false).
  { intros n0 n1. destruct Hc as [Hc|Hc]; bool_arith. }
  destruct name as [|b0 [|b1 [|b2 r]]]; [done| | |].
  - unfold stripWhiteSpace in Hnone.
    destruct (whiteSpace1 (nat_of_ascii b0)) eqn:H1; [discriminate|].
    rewrite !str_app_cons. change (String.append EmptyString (String c tail))
      with (String c tail).
    unfold stripWhiteSpace. rewrite H1, H2c.
    destruct tail as [|c' tail']; [reflexivity|]. by rewrite H3c1.
  - unfold stripWhiteSpace in Hnone.
    destruct (whiteSpace1 (nat_of_ascii b0)) eqn:H1; [discriminate|].
    destruct (whiteSpace2 (nat_of_ascii b0) (nat_of_ascii b1)) eqn:H2; [discriminate|].
    rewrite !str_app_cons. change (String.append EmptyString (String c tail))
      with (String c tail).
    unfold stripWhiteSpace. by rewrite H1, H2, H3c2.
  - unfold stripWhiteSpace in Hnone.
    destruct (whiteSpace1 (nat_of_ascii b0)) eqn:H1; [discriminate|].
    destruct (whiteSpace2 (nat_of_ascii b0) (nat_of_ascii b1)) eqn:H2; [discriminate|].
    destruct (whiteSpace3 (nat_of_ascii b0) (nat_of_ascii b1) (nat_of_ascii b2)) eqn:H3;
      [discriminate|].
    rewrite !str_app_cons. unfold stripWhiteSpace. by rewrite H1, H2, H3.
Qed.

Lemma stripAll_start_unique (lead : list string) :
  ∀ (t : string) (fuel : nat),
    Forall (λ w, w ∈ jsWhiteSpace) lead →
    stripWhiteSpace t = None →
    (String.length (String.append (joinAll lead) t) ≤ fuel)%nat →
    stripAll stripWhiteSpace fuel (String.append (joinAll lead) t) = t.
Proof.
  induction lead as [|w lead IH]; intros t fuel Hlead Hnone Hlen.
  - change (String.append (joinAll []) t) with t.
    destruct fuel; simpl; [reflexivity | by rewrite Hnone].
  - apply Forall_cons in Hlead as [Hw Hlead].
    change (joinAll (w :: lead)) with (String.append w (joinAll lead)) in *.
    rewrite str_app_assoc in *.
    pose proof (jsWhiteSpace_nonempty w Hw) as Hpos.
    rewrite str_length_app in Hlen.
    destruct fuel as [|fuel]; [lia|].
    cbn [stripAll]. rewrite (stripWhiteSpace_complete w _ Hw).
    apply IH; [done | done | lia].
Qed.

Lemma joinAll_snoc (texts : list string) (w : string) :
  joinAll (texts ++ [w]) = String.append (joinAll texts) w.
Proof.
  induction texts as [|t texts IH].
  - change (joinAll ([] ++ [w])) with (String.append w EmptyString).
    by rewrite str_app_nil_r.
  - change (joinAll ((t :: texts) ++ [w]))
      with (String.append t (joinAll (texts ++ [w]))).
    change (joinAll (t :: texts)) with (String.append t (joinAll texts)).
    by rewrite IH, str_app_assoc.
Qed.

Lemma stripAll_end_unique (trail : list string) :
  ∀ (t : string) (fuel : nat),
    Forall (λ w, w ∈ jsWhiteSpace) trail →
    stripWhiteSpaceEnd t = None →
    (String.length (String.append (reverseString (joinAll trail)) t) ≤ fuel)%nat →
    stripAll stripWhiteSpaceEnd fuel (String.append (reverseString (joinAll trail)) t)
    = t.
Proof.
  induction trail as [|w trail IH] using rev_ind; intros t fuel Htrail Hnone Hlen.
  - change (String.append (reverseString (joinAll [])) t) with t.
    destruct fuel; simpl; [reflexivity | by rewrite Hnone].
  - apply Forall_app in Htrail as [Htrail Hw].
    apply Forall_cons in Hw as [Hw _].
    rewrite joinAll_snoc, reverseString_app, str_app_assoc in *.
    pose proof (jsWhiteSpace_nonempty w Hw) as Hpos.
    rewrite str_length_app, reverseString_length in Hlen.
    destruct fuel as [|fuel]; [lia|].
    cbn [stripAll]. rewrite (stripWhiteSpaceEnd_complete w _ Hw).
    apply IH; [done | done | lia].
Qed.

(** Trimming a padded name gives the name back. *)
Lemma trim_padding (name piece : string) :
  name ≠ EmptyString → unpadded name → paddingOf name piece → trim piece = name.
Proof.
  intros Hne [Hstart Hend] (lead & trail & Hlead & Htrail & ->).
  apply whiteSpaceAtStart_iff in Hstart. apply whiteSpaceAtEnd_iff in Hend.
  assert (Hnone : stripWhiteSpace (String.append name (joinAll trail)) = None).
  { destruct trail as [|w trail].
    - change (joinAll []) with EmptyString. by rewrite str_app_nil_r.
    - apply Forall_cons in Htrail as [Hw _].
      change (joinAll (w :: trail)) with (String.append w (joinAll trail)).
      by apply stripWhiteSpace_none_app. }
  unfold trim. unfold trimStart at 1.
  rewrite (stripAll_start_unique lead _ _ Hlead Hnone) by lia.
  unfold trimEnd. rewrite reverseString_app.
  rewrite (stripAll_end_unique trail _ _ Htrail Hend).
  - apply reverseString_involutive.
  - rewrite <- reverseString_app, !reverseString_length. lia.
Qed.

Lemma split_nonempty (sep : ascii) (s : string) : split sep s ≠ [].
Proof.
  destruct s as [|c rest]; simpl; [discriminate|].
  destruct (Ascii.eqb c sep); [discriminate|]. by destruct (split sep rest).
Qed.

Lemma joinComma_cons (piece : string) (rest : list string) :
  rest ≠ [] →
  joinComma (piece :: rest)
  = String.append piece (String ","%char (joinComma rest)).
Proof. by destruct rest. Qed.

(** Every text is the comma-joined list of its comma-free pieces. *)
Lemma joinComma_split (s : string) : joinComma (split ","%char s) = s.
Proof.
  induction s as [|c rest IH]; [reflexivity|]. simpl.
  destruct (Ascii.eqb_spec c ","%char) as [->|Hc].
  - rewrite joinComma_cons by apply split_nonempty. by rewrite IH.
  - pose proof (split_nonempty ","%char rest) as Hne.
    destruct (split ","%char rest) as [|h t]; [done|].
    destruct t as [|h' t'].
    + simpl in *. by rewrite IH.
    + rewrite joinComma_cons in IH by discriminate.
      rewrite joinComma_cons by discriminate.
      rewrite str_app_cons. by rewrite IH.
Qed.

Lemma parseExcludeStages_elem (excludeStagesRaw name : string) :
  name ∈ parseExcludeStages excludeStagesRaw ↔
  name ≠ EmptyString
  ∧ ∃ piece, piece ∈ split ","%char excludeStagesRaw ∧ trim piece = name.
Proof.
  unfold parseExcludeStages. rewrite elem_of_list_to_set, list_elem_of_filter.
  split.
  - intros [Hne Hin]. apply list_elem_of_fmap in Hin as (piece & -> & Hpiece). eauto.
  - intros (Hne & piece & Hpiece & <-). split; [exact Hne|].
    apply list_elem_of_fmap. eauto.
Qed.

(** A name put among the comma-separated pieces, with or without white space
    around it, is in the parsed set. *)
Lemma parseExcludeStages_contains (pieces : list string) (piece name : string) :
  Forall (λ p, hasChar ","%char p = false) pieces →
  piece ∈ pieces →
  name ≠ EmptyString → unpadded name → paddingOf name piece →
  name ∈ parseExcludeStages (joinComma pieces).
Proof.
  intros Hall Hin Hne Hclean Hpad. apply parseExcludeStages_elem.
  split; [exact Hne|]. exists piece. split; [|by apply trim_padding].
  rewrite split_joinComma; [exact Hin | | exact Hall].
  intros ->. by apply elem_of_nil in Hin.
Qed.

Lemma joinAll_app (a b : list string) :
  joinAll (a ++ b) = String.append (joinAll a) (joinAll b).
Proof.
  induction a as [|t a IH]; [reflexivity|].
  change (joinAll ((t :: a) ++ b)) with (String.append t (joinAll (a ++ b))).
  change (joinAll (t :: a)) with (String.append t (joinAll a)).
  by rewrite IH, str_app_assoc.
Qed.

Lemma trim_blank (piece : string) : paddingOf EmptyString piece → trim piece = EmptyString.
Proof.
  intros (lead & trail & Hlead & Htrail & ->).
  change (String.append EmptyString (joinAll trail)) with (joinAll trail).
  rewrite <- joinAll_app, <- (str_app_nil_r (joinAll (lead ++ trail))).
  unfold trim, trimStart.
  rewrite (stripAll_start_unique (lead ++ trail) EmptyString);
    [reflexivity | by apply Forall_app | reflexivity | lia].
Qed.

Lemma unpadded_empty : unpadded EmptyString.
Proof.
  split.
  - intros (w & rest & Hw & Heq). apply jsWhiteSpace_nonempty in Hw.
    destruct w; [simpl in Hw; lia | discriminate].
  - intros (w & before & Hw & Heq). apply jsWhiteSpace_nonempty in Hw.
    assert (Hlen : String.length (String.append before w) = 0%nat)
      by (by rewrite <- Heq).
    rewrite str_length_app in Hlen. lia.
Qed.

(** X17. Parsing inverts writing an exclusion list: when each piece between
    the commas is a name with white-space characters (any of ECMAScript's, in
    any number) and nothing else around it, the name itself having none at
    either end and the piece no comma, the parsed set is exactly the set of
    the non-empty names; blank pieces contribute nothing. *)
Theorem parseExcludeStages_joinComma (entries : list (string * string)) :
  Forall (λ entry, hasChar ","%char entry.2 = false
                   ∧ unpadded entry.1
                   ∧ paddingOf entry.1 entry.2) entries →
  parseExcludeStages (joinComma (map snd entries))
  = list_to_set (filter (λ name, name ≠ "") (map fst entries)).
Proof.
  intros Hall.
  assert (Htrim : map trim (map snd entries) = map fst entries).
  { induction Hall as [|[name piece] rest (_ & Hclean & Hpad) _ IH]; [reflexivity|].
    simpl in *. rewrite IH. f_equal.
    destruct (decide (name = EmptyString)) as [->|Hne];
      [by apply trim_blank | by apply trim_padding]. }
  unfold parseExcludeStages. destruct entries as [|entry rest]; [reflexivity|].
  rewrite split_joinComma; [by rewrite Htrim | discriminate |].
  apply Forall_fmap. eapply Forall_impl; [exact Hall|]. by intros ? (? & _).
Qed.

Lemma parseExcludeStages_joinComma_witness :
  parseExcludeStages
    (joinComma (map snd [("AWSCURRENT", "AWSCURRENT");
                         ("canary", String.append (bytes [32; 194; 160]%nat)
                                      (String.append "canary" (bytes [9]%nat)));
                         ("", bytes [32; 32]%nat)]))
  = list_to_set
      (filter (λ name, name ≠ "")
         (map fst [("AWSCURRENT", "AWSCURRENT");
                   ("canary", String.append (bytes [32; 194; 160]%nat)
                                (String.append "canary" (bytes [9]%nat)));
                   ("", bytes [32; 32]%nat)])).
Proof.
  apply (parseExcludeStages_joinComma
           [("AWSCURRENT", "AWSCURRENT");
            ("canary", String.append (bytes [32; 194; 160]%nat)
                         (String.append "canary" (bytes [9]%nat)));
            ("", bytes [32; 32]%nat)]).
  repeat constructor; simpl.
  - apply whiteSpaceAtStart_iff. reflexivity.
  - apply whiteSpaceAtEnd_iff. reflexivity.
  - exists [], []. repeat split; constructor.
  - apply whiteSpaceAtStart_iff. reflexivity.
  - apply whiteSpaceAtEnd_iff. reflexivity.
  - exists [bytes [32]%nat; bytes [194; 160]%nat], [bytes [9]%nat].
    split; [repeat constructor; in_table|]. split; [repeat constructor; in_table|].
    reflexivity.
  - apply unpadded_empty.
  - apply unpadded_empty.
  - exists [bytes [32]%nat; bytes [32]%nat], [].
    split; [repeat constructor; in_table|]. split; [constructor|]. reflexivity.
Defined.

(** X18. Every name in a parsed exclusion set is non-empty, contains no
    comma, has no white-space character of ECMAScript at its start or its end,
    and is what one of the comma-separated pieces of the input holds between
    leading and trailing white-space characters.  A stage label that is empty,
    contains a comma or begins or ends with white space can therefore never be
    excluded through the input. *)
Theorem parseExcludeStages_names_clean (excludeStagesRaw name : string) :
  name ∈ parseExcludeStages excludeStagesRaw →
  name ≠ ""
  ∧ hasChar ","%char name = false
  ∧ unpadded name
  ∧ ∃ pieces piece,
      excludeStagesRaw = joinComma pieces
      ∧ Forall (λ p, hasChar ","%char p = false) pieces
      ∧ piece ∈ pieces
      ∧ paddingOf name piece.
Proof.
  intros Hin. apply parseExcludeStages_elem in Hin as (Hne & piece & Hpiece & <-).
  destruct (trim_spec piece) as [Hpad Hclean].
  pose proof (split_pieces_no_separator ","%char excludeStagesRaw) as Hall.
  split; [exact Hne|]. split; [|split; [exact Hclean|]].
  - rewrite Forall_forall in Hall. specialize (Hall _ Hpiece).
    destruct Hpad as (lead & trail & _ & _ & Heq). rewrite Heq in Hall.
    rewrite !hasChar_app in Hall.
    apply orb_false_iff in Hall as [_ Hall]. by apply orb_false_iff in Hall as [? _].
  - exists (split ","%char excludeStagesRaw), piece.
    split; [by rewrite joinComma_split|]. done.
Qed.

Lemma parseExcludeStages_names_clean_witness :
  "canary" ≠ ""
  ∧ hasChar ","%char "canary" = false
  ∧ unpadded "canary"
  ∧ ∃ pieces piece,
      String.append "AWSCURRENT," (String.append (bytes [194; 160]%nat) "canary ")
      = joinComma pieces
      ∧ Forall (λ p, hasChar ","%char p = false) pieces
      ∧ piece ∈ pieces
      ∧ paddingOf "canary" piece.
Proof.
  apply (parseExcludeStages_names_clean
           (String.append "AWSCURRENT,"
              (String.append (bytes [194; 160]%nat) "canary "))
           "canary").
  vm_compute. reflexivity.
Defined.

(** ** The wrapper [run] next to [trimStagesWithClient] *)

Section TrimCases.
Context {S E : Type}.
Context (send : S → Command → S * (E + Response)).

(** The five ways a run of [trimStagesWithClient] can end. *)
Lemma trim_cases (fuel : nat) (client client' : S) (options : Trim.Options)
    (calls : list Command) (outcome : E + RunResult) :
  Trim.trimStagesWithClient send fuel client options = Some (client', calls, outcome) →
  ∃ client1 calls1 collected,
    collect send fuel (Trim.secretId options) client = Some (client1, calls1, collected)
    ∧ filter (λ c, isUpdate c = true) calls1 = []
    ∧ match collected with
      | inl err => calls = calls1 ∧ outcome = inl err
      | inr labeled =>
          match candidateOf options labeled with
          | None =>
              calls = calls1 ∧ outcome = inr (resultOf options labeled false None)
          | Some candidate =>
              if dryRunOf options then
                calls = calls1
                ∧ outcome = inr (resultOf options labeled false
                                   (Some (Trim.removedOf candidate)))
              else
                calls = calls1 ++ [removeCommand options candidate]
                ∧ (outcome = inr (resultOf options labeled true
                                    (Some (Trim.removedOf candidate)))
                   ∨ ∃ err, outcome = inl err)
          end
      end.
Proof.
  destruct (collect send fuel (Trim.secretId options) client)
    as [[[client1 calls1] collected]|] eqn:Hcollect.
  - pose proof (filter_isUpdate_none _ (collect_only_lists _ _ _ _ _ _ _ Hcollect))
      as Hnone.
    destruct collected as [err|labeled].
    + rewrite (trim_collect_rejects _ _ _ _ _ _ _ Hcollect). intros [= <- <- <-].
      by exists client1, calls1, (inl err).
    + rewrite (trim_after_collect _ _ _ _ _ _ _ Hcollect). intros Hrun.
      exists client1, calls1, (inr labeled). split; [reflexivity|]. split; [exact Hnone|].
      destruct (candidateOf options labeled) as [candidate|].
      * destruct (dryRunOf options).
        -- by inversion Hrun.
        -- destruct (send client1 (removeCommand options candidate))
             as [client2 [err|resp]]; inversion Hrun; subst; eauto.
      * by inversion Hrun.
  - unfold Trim.trimStagesWithClient. rewrite Hcollect. discriminate.
Qed.
End TrimCases.

Section TrimRunProperties.
Context {S E : Type}.
Context (send : S → Command → S * (E + Response)).
Context (getInput : string → bool → E + string).
Context (errText : E → string).
Context (newClient : string → S).

(** X12. Every finished run of the wrapper makes exactly one outcome call
    on [core], its last, after [info] lines only: [trimmed] is set to "true"
    only when exactly one remove-stage command was sent, and the removed pair
    is then logged; it is set to "false" only when none was sent; otherwise
    the run calls [setFailed] and reports nothing else, so a failure is never
    turned into a [trimmed] output. *)
Theorem trim_run_reports_once (fuel : nat) (calls : list Command)
    (core : list CoreCall) :
  Trim.run send getInput errText newClient fuel = Some (calls, core) →
  ∃ infos final,
    core = infos ++ [final]
    ∧ Forall (λ c, isInfo c = true) infos
    ∧ ((final = setOutput "trimmed" "true"
        ∧ ∃ secretId stage versionId,
            filter (λ c, isUpdate c = true) calls
            = [UpdateSecretVersionStageCommand secretId stage versionId]
            ∧ info (RemovedStage stage versionId) ∈ infos)
       ∨ (final = setOutput "trimmed" "false"
          ∧ filter (λ c, isUpdate c = true) calls = [])
       ∨ (∃ message, final = setFailed message ∧ infos = [])).
Proof.
  unfold Trim.run, Trim.orFail.
  assert (Hfail : ∀ cs message,
            Some (cs, [setFailed message]) = Some (calls, core) →
            ∃ infos final,
              core = infos ++ [final]
              ∧ Forall (λ c, isInfo c = true) infos
              ∧ ((final = setOutput "trimmed" "true"
                  ∧ ∃ secretId stage versionId,
                      filter (λ c, isUpdate c = true) calls
                      = [UpdateSecretVersionStageCommand secretId stage versionId]
                      ∧ info (RemovedStage stage versionId) ∈ infos)
                 ∨ (final = setOutput "trimmed" "false"
                    ∧ filter (λ c, isUpdate c = true) calls = [])
                 ∨ (∃ message, final = setFailed message ∧ infos = []))).
  { intros cs message [= <- <-]. exists [], (setFailed message).
    split; [reflexivity|]. split; [constructor|]. right; right. eauto. }
  destruct (getInput "secret-id" true) as [err|secretId]; [apply Hfail|].
  destruct (getInput "aws-region" true) as [err|region]; [apply Hfail|].
  destruct (getInput "threshold" false) as [err|thresholdRaw]; [apply Hfail|].
  destruct (getInput "dry-run" false) as [err|dryRunRaw]; [apply Hfail|].
  destruct (getInput "exclude-stages" false) as [err|raw]; [apply Hfail|].
  set (options := {| Trim.secretId := secretId;
                     Trim.threshold := Some (parseInt (str_or thresholdRaw "18"));
                     Trim.excludeStages :=
                       Some (parseExcludeStages
                               (str_or raw "AWSCURRENT,AWSPREVIOUS,AWSPENDING"));
                     Trim.dryRun :=
                       Some (String.eqb (toLowerCase (str_or dryRunRaw "false"))
                                        "true") |}).
  destruct (Trim.trimStagesWithClient send fuel (newClient region) options)
    as [[[client' calls'] [err|result]]|] eqn:Hrun; [apply Hfail| |discriminate].
  intros [= <- <-].
  apply trim_cases in Hrun as (client1 & calls1 & collected & _ & Hnone & Hcase).
  destruct collected as [err|labeled]; [by destruct Hcase|].
  destruct (candidateOf options labeled) as [candidate|].
  - destruct (dryRunOf options).
    + destruct Hcase as [-> [= ->]]. simpl.
      eexists [_; _], _. split; [reflexivity|]. split; [by repeat constructor|].
      right; left. done.
    + destruct Hcase as [-> [[= ->]|[err [=]]]]. simpl.
      eexists [_; _], _. split; [reflexivity|]. split; [by repeat constructor|].
      left. split; [reflexivity|].
      exists secretId, (stage candidate), (versionId candidate).
      rewrite filter_app, Hnone. split; [reflexivity|]. right; left.
  - destruct Hcase as [-> [= ->]]. simpl.
    eexists [_], _. split; [reflexivity|]. split; [by repeat constructor|].
    right; left. done.
Qed.

(** A stage the wrapper removes is outside the set it parsed. *)
Lemma trim_run_update_not_excluded (fuel : nat) (calls : list Command)
    (core : list CoreCall) (raw secretId stg vid : string) :
  getInput "exclude-stages" false = inr raw →
  Trim.run send getInput errText newClient fuel = Some (calls, core) →
  UpdateSecretVersionStageCommand secretId stg vid ∈ calls →
  (stg ∉ parseExcludeStages (str_or raw "AWSCURRENT,AWSPREVIOUS,AWSPENDING"))
  ∧ (raw = "" → stg ≠ "AWSCURRENT" ∧ stg ≠ "AWSPREVIOUS" ∧ stg ≠ "AWSPENDING").
Proof.
  intros Hraw. unfold Trim.run, Trim.orFail. rewrite Hraw.
  assert (Hnil : ∀ message,
            Some ([] : list Command, [setFailed message]) = Some (calls, core) →
            UpdateSecretVersionStageCommand secretId stg vid ∈ calls → False).
  { intros message [= <- <-] Hin. by apply elem_of_nil in Hin. }
  assert (Hgoal : (stg ∉ parseExcludeStages
                           (str_or raw "AWSCURRENT,AWSPREVIOUS,AWSPENDING")) →
                  (stg ∉ parseExcludeStages
                           (str_or raw "AWSCURRENT,AWSPREVIOUS,AWSPENDING"))
                  ∧ (raw = "" →
                     stg ≠ "AWSCURRENT" ∧ stg ≠ "AWSPREVIOUS" ∧ stg ≠ "AWSPENDING")).
  { intros Hex. split; [exact Hex|]. intros ->.
    rewrite trim_run_default_excludeStages in Hex. set_solver. }
  destruct (getInput "secret-id" true) as [err|sid];
    [intros H1 H2; destruct (Hnil _ H1 H2)|].
  destruct (getInput "aws-region" true) as [err|region];
    [intros H1 H2; destruct (Hnil _ H1 H2)|].
  destruct (getInput "threshold" false) as [err|thresholdRaw];
    [intros H1 H2; destruct (Hnil _ H1 H2)|].
  destruct (getInput "dry-run" false) as [err|dryRunRaw];
    [intros H1 H2; destruct (Hnil _ H1 H2)|].
  set (options := {| Trim.secretId := sid;
                     Trim.threshold := Some (parseInt (str_or thresholdRaw "18"));
                     Trim.excludeStages :=
                       Some (parseExcludeStages
                               (str_or raw "AWSCURRENT,AWSPREVIOUS,AWSPENDING"));
                     Trim.dryRun :=
                       Some (String.eqb (toLowerCase (str_or dryRunRaw "false"))
                                        "true") |}).
  destruct (Trim.trimStagesWithClient send fuel (newClient region) options)
    as [[[client' calls'] outcome]|] eqn:Hrun; [|discriminate].
  apply trim_never_targets_excluded in Hrun as [Hcalls _].
  destruct outcome as [err|result]; intros [= <- <-] Hin;
    apply Hgoal; exact (Hcalls _ _ _ Hin).
Qed.

(** X13. The wrapper never removes a stage named in its [exclude-stages]
    input: the removed stage is outside the parsed set, and, said without the
    parser, it is none of the names that stand between two commas of a
    non-empty input, whatever white space of ECMAScript surrounds them there.
    When the input is empty it never removes AWSCURRENT, AWSPREVIOUS or
    AWSPENDING. *)
Theorem trim_run_respects_exclusions (fuel : nat) (calls : list Command)
    (core : list CoreCall) (raw secretId stg vid : string) :
  getInput "exclude-stages" false = inr raw →
  Trim.run send getInput errText newClient fuel = Some (calls, core) →
  UpdateSecretVersionStageCommand secretId stg vid ∈ calls →
  (stg ∉ parseExcludeStages (str_or raw "AWSCURRENT,AWSPREVIOUS,AWSPENDING"))
  ∧ (raw = "" → stg ≠ "AWSCURRENT" ∧ stg ≠ "AWSPREVIOUS" ∧ stg ≠ "AWSPENDING")
  ∧ (∀ (pieces : list string) (piece name : string),
       raw ≠ "" →
       raw = joinComma pieces →
       Forall (λ p, hasChar ","%char p = false) pieces →
       piece ∈ pieces →
       name ≠ "" → unpadded name → paddingOf name piece →
       stg ≠ name).
Proof.
  intros Hraw Hrun Hin.
  destruct (trim_run_update_not_excluded fuel calls core raw secretId stg vid
              Hraw Hrun Hin) as [Hout Hdefault].
  split; [exact Hout|]. split; [exact Hdefault|].
  intros pieces piece name Hne Hjoin Hall Hpiece Hname Hclean Hpad ->.
  apply Hout. unfold str_or. destruct (String.eqb_spec raw ""); [done|].
  rewrite Hjoin. by apply (parseExcludeStages_contains pieces piece).
Qed.
End TrimRunProperties.

(** ** The stand-alone [run] compared with the wrapper *)

Section BothRuns.
Context {S E : Type}.
Context (send : S → Command → S * (E + Response)).
Context (getInput : string → bool → E + string).
Context (errText : E → string).
Context (newClient : string → S).
Context (undefinedRead : E).



(** X15. Every finished run of [src/index.js] ends with exactly one outcome
    call on [core], after [info] lines only: trimmed "true" only when exactly
    one remove-stage command was sent, trimmed "false" only when none was
    sent, and [setFailed] otherwise, never together with a [trimmed] output. *)
Theorem indexjs_run_reports_once (fuel : nat) (calls : list Command)
    (core : list CoreCall) :
  IndexJs.run send getInput errText newClient undefinedRead fuel = Some (calls, core) →
  ∃ infos final,
    core = infos ++ [final]
    ∧ Forall (λ c, isInfo c = true) infos
    ∧ ((final = setOutput "trimmed" "true"
        ∧ ∃ secretId stage versionId,
            filter (λ c, isUpdate c = true) calls
            = [UpdateSecretVersionStageCommand secretId stage versionId]
            ∧ info (DeprecatedStage stage versionId) ∈ infos)
       ∨ (final = setOutput "trimmed" "false"
          ∧ filter (λ c, isUpdate c = true) calls = [])
       ∨ (∃ message, final = setFailed message)).
Proof.
  unfold IndexJs.run, IndexJs.orFail.
  assert (Hfail : ∀ cs message,
            Some (cs, [setFailed message]) = Some (calls, core) →
            ∃ infos final,
              core = infos ++ [final]
              ∧ Forall (λ c, isInfo c = true) infos
              ∧ ((final = setOutput "trimmed" "true"
                  ∧ ∃ secretId stage versionId,
                      filter (λ c, isUpdate c = true) calls
                      = [UpdateSecretVersionStageCommand secretId stage versionId]
                      ∧ info (DeprecatedStage stage versionId) ∈ infos)
                 ∨ (final = setOutput "trimmed" "false"
                    ∧ filter (λ c, isUpdate c = true) calls = [])
                 ∨ (∃ message, final = setFailed message))).
  { intros cs message [= <- <-]. exists [], (setFailed message).
    split; [reflexivity|]. split; [constructor|]. right; right. eauto. }
  destruct (getInput "secret-id" true) as [err|secretId]; [apply Hfail|].
  destruct (getInput "aws-region" true) as [err|region]; [apply Hfail|].
  destruct (getInput "threshold" false) as [err|thresholdRaw]; [apply Hfail|].
  destruct (getInput "dry-run" false) as [err|dryRunRaw]; [apply Hfail|].
  destruct (getInput "exclude-stages" false) as [err|raw]; [apply Hfail|].
  destruct (collect send fuel secretId (newClient region))
    as [[[client1 calls1] [err|labeled]]|] eqn:Hcollect; [apply Hfail| |discriminate].
  pose proof (filter_isUpdate_none _ (collect_only_lists _ _ _ _ _ _ _ Hcollect))
    as Hnone.
  destruct (js_le _ _).
  - intros [= <- <-]. eexists [_; _], _. split; [reflexivity|].
    split; [by repeat constructor|]. right; left. done.
  - destruct (head _) as [oldest|].
    + destruct (String.eqb _ "true").
      * intros [= <- <-]. eexists [_; _; _], _. split; [reflexivity|].
        split; [by repeat constructor|]. right; left. done.
      * destruct (send client1 _) as [client2 [err|resp]]; intros [= <- <-].
        -- eexists [_; _], _. split; [reflexivity|].
           split; [by repeat constructor|]. right; right. eauto.
        -- eexists [_; _; _], _. split; [reflexivity|].
           split; [by repeat constructor|]. left. split; [reflexivity|].
           exists secretId, (stage oldest), (versionId oldest).
           rewrite filter_app, Hnone. split; [reflexivity|]. right; right; left.
    + intros [= <- <-]. eexists [_], _. split; [reflexivity|].
      split; [by repeat constructor|]. right; right. eauto.
Qed.

(** A stage [src/index.js] removes is outside the set it parsed. *)
Lemma indexjs_run_update_not_excluded (fuel : nat) (calls : list Command)
    (core : list CoreCall) (raw secretId stg vid : string) :
  getInput "exclude-stages" false = inr raw →
  IndexJs.run send getInput errText newClient undefinedRead fuel = Some (calls, core) →
  UpdateSecretVersionStageCommand secretId stg vid ∈ calls →
  stg ∉ parseExcludeStages raw.
Proof.
  intros Hraw. unfold IndexJs.run, IndexJs.orFail. rewrite Hraw.
  assert (Hor : str_or raw "" = raw).
  { unfold str_or. by destruct (String.eqb_spec raw ""). }
  rewrite Hor.
  assert (Hnil : ∀ message,
            Some ([] : list Command, [setFailed message]) = Some (calls, core) →
            UpdateSecretVersionStageCommand secretId stg vid ∈ calls → False).
  { intros message [= <- <-] Hin. by apply elem_of_nil in Hin. }
  destruct (getInput "secret-id" true) as [err|sid];
    [intros H1 H2; destruct (Hnil _ H1 H2)|].
  destruct (getInput "aws-region" true) as [err|region];
    [intros H1 H2; destruct (Hnil _ H1 H2)|].
  destruct (getInput "threshold" false) as [err|thresholdRaw];
    [intros H1 H2; destruct (Hnil _ H1 H2)|].
  destruct (getInput "dry-run" false) as [err|dryRunRaw];
    [intros H1 H2; destruct (Hnil _ H1 H2)|].
  destruct (collect send fuel sid (newClient region))
    as [[[client1 calls1] [err|labeled]]|] eqn:Hcollect; [| |discriminate].
  - intros [= <- <-] Hin. apply collect_only_lists in Hcollect.
    rewrite Forall_forall in Hcollect. specialize (Hcollect _ Hin). discriminate.
  - pose proof (collect_only_lists _ _ _ _ _ _ _ Hcollect) as Hlists.
    rewrite Forall_forall in Hlists.
    assert (Hno : UpdateSecretVersionStageCommand secretId stg vid ∉ calls1).
    { intros Hin. specialize (Hlists _ Hin). discriminate. }
    destruct (js_le _ _); [by intros [= <- <-]|].
    change (λ a b, createdDate a - createdDate b) with byCreatedDate.
    destruct (head _) as [oldest|] eqn:Hhead; [|by intros [= <- <-]].
    destruct (String.eqb _ "true"); [by intros [= <- <-]|].
    assert (Hok : stage oldest ∉ parseExcludeStages raw).
    { rewrite head_toSorted_leftmost in Hhead.
      apply leftmost_oldest_min in Hhead as [Hin _].
      rewrite IndexJs_uniqueStages_eq in Hin.
      by apply uniqueStages_from_labeled in Hin as [_ ?]. }
    destruct (send client1 _) as [client2 [err|resp]]; intros [= <- <-] Hin;
      (apply elem_of_app in Hin as [Hin|Hin]; [done|];
       apply list_elem_of_singleton in Hin; inversion Hin; subst; exact Hok).
Qed.

(** X16. [src/index.js] never removes a stage named in its [exclude-stages]
    input: the removed stage is outside the parsed set, and, said without the
    parser, it is none of the names that stand between two commas of the
    input, whatever white space of ECMAScript surrounds them there.  (With an
    empty input that set is empty and protects nothing.) *)
Theorem indexjs_run_respects_exclusions (fuel : nat) (calls : list Command)
    (core : list CoreCall) (raw secretId stg vid : string) :
  getInput "exclude-stages" false = inr raw →
  IndexJs.run send getInput errText newClient undefinedRead fuel = Some (calls, core) →
  UpdateSecretVersionStageCommand secretId stg vid ∈ calls →
  (stg ∉ parseExcludeStages raw)
  ∧ (∀ (pieces : list string) (piece name : string),
       raw = joinComma pieces →
       Forall (λ p, hasChar ","%char p = false) pieces →
       piece ∈ pieces →
       name ≠ "" → unpadded name → paddingOf name piece →
       stg ≠ name).
Proof.
  intros Hraw Hrun Hin.
  pose proof (indexjs_run_update_not_excluded fuel calls core raw secretId stg vid
                Hraw Hrun Hin) as Hout.
  split; [exact Hout|].
  intros pieces piece name Hjoin Hall Hpiece Hname Hclean Hpad ->.
  apply Hout. rewrite Hjoin. by apply (parseExcludeStages_contains pieces piece).
Qed.
End BothRuns.

(** ** The test double *)

Lemma Mock_send_state (c : Mock.MockSecretsManagerClient) (cmd : Command) :
  Mock.calls (Mock.send c cmd).1 = Mock.calls c ++ [cmd]
  ∧ Mock.listPages (Mock.send c cmd).1 = Mock.listPages c
  ∧ Mock.failOnUpdate (Mock.send c cmd).1 = Mock.failOnUpdate c
  ∧ Mock._page (Mock.send c cmd).1
    = (Mock._page c + if isList cmd then 1 else 0)%nat.
Proof.
  destruct cmd; simpl.
  - repeat split; lia.
  - destruct (Mock.failOnUpdate c); simpl; repeat split; lia.
Qed.

Lemma Mock_send_list_resolves (c : Mock.MockSecretsManagerClient)
    (secretId : string) (tok : option string) :
  ∃ resp, (Mock.send c (ListSecretVersionIdsCommand secretId true tok 100)).2 = inr resp.
Proof. simpl. eauto. Qed.

Lemma Mock_collectLoop_state (fuel : nat) :
  ∀ (secretId : string) (c c' : Mock.MockSecretsManagerClient)
    (tok : option string) (labeled : list LabelRecord)
    (calls calls' : list Command) (out : Mock.MockError + list LabelRecord),
    collectLoop Mock.send fuel secretId c tok labeled calls = Some (c', calls', out) →
    ∃ more labeled',
      calls' = calls ++ more
      ∧ out = inr labeled'
      ∧ Mock.calls c' = Mock.calls c ++ more
      ∧ Mock.listPages c' = Mock.listPages c
      ∧ Mock.failOnUpdate c' = Mock.failOnUpdate c
      ∧ Mock._page c' = (Mock._page c + length more)%nat.
Proof.
  induction fuel as [|fuel IH];
    intros secretId c c' tok labeled calls calls' out H; [discriminate|].
  cbn [collectLoop] in H.
  pose proof (Mock_send_state c (ListSecretVersionIdsCommand secretId true tok 100)) as (Hc & Hp & Hf & Hn).
  destruct (Mock_send_list_resolves c secretId tok) as [resp Hresp].
  unfold listCommand in *.
  destruct (Mock.send c (ListSecretVersionIdsCommand secretId true tok 100)) as [c1 r]. simpl in *. subst r.
  destruct (truthy (NextToken resp)).
  - apply IH in H as (more & labeled' & -> & -> & Hc' & Hp' & Hf' & Hn').
    exists (ListSecretVersionIdsCommand secretId true tok 100 :: more), labeled'.
    rewrite <- app_assoc. split; [reflexivity|]. split; [reflexivity|].
    rewrite Hc', Hc, <- app_assoc, Hp', Hp, Hf', Hf, Hn', Hn. simpl.
    repeat split; lia.
  - inversion H; subst. exists [ListSecretVersionIdsCommand secretId true tok 100], (labeled ++ labelsOfResponse resp).
    simpl. repeat split; auto.
Qed.

(** X19. Against the test double, a finished run leaves in the double's own
    [calls] log exactly the commands sent, appended in order to what the log
    held before; its pages and its failure switch are untouched and its page
    counter has advanced by the number of listing commands. *)
Theorem mock_log_is_the_command_sequence
    (fuel : nat) (c c' : Mock.MockSecretsManagerClient) (options : Trim.Options)
    (calls : list Command) (outcome : Mock.MockError + RunResult) :
  Trim.trimStagesWithClient Mock.send fuel c options = Some (c', calls, outcome) →
  Mock.calls c' = Mock.calls c ++ calls
  ∧ Mock.listPages c' = Mock.listPages c
  ∧ Mock.failOnUpdate c' = Mock.failOnUpdate c
  ∧ Mock._page c' = (Mock._page c + length (filter (λ k, isList k = true) calls))%nat.
Proof.
  destruct (collect Mock.send fuel (Trim.secretId options) c)
    as [[[c1 calls1] collected]|] eqn:Hcollect.
  - pose proof (collect_lists_for _ _ _ _ _ _ _ Hcollect) as (lists & Hshape & Hlists).
    assert (Hall : length (filter (λ k, isList k = true) calls1) = length calls1).
    { rewrite Hshape. clear -Hlists.
      rewrite filter_cons_True by reflexivity. simpl. f_equal.
      induction Hlists as [|k ks [tok ->] _ IH]; [reflexivity|].
      rewrite filter_cons_True by reflexivity. simpl. by rewrite IH. }
    pose proof Hcollect as Hstate. unfold collect in Hstate.
    apply Mock_collectLoop_state in Hstate
      as (more & labeled & Hcalls & -> & Hc & Hp & Hf & Hn).
    simpl in Hcalls. subst more.
    rewrite (trim_after_collect _ _ _ _ _ _ _ Hcollect).
    destruct (candidateOf options labeled) as [candidate|].
    + destruct (dryRunOf options).
      * intros [= <- <- <-]. by rewrite Hall.
      * pose proof (Mock_send_state c1 (removeCommand options candidate))
          as (Hc2 & Hp2 & Hf2 & Hn2).
        destruct (Mock.send c1 (removeCommand options candidate)) as [c2 [err|resp]];
          simpl in *; intros [= <- <- <-];
          rewrite Hc2, Hc, Hp2, Hp, Hf2, Hf, Hn2, Hn, filter_app, length_app, Hall;
          rewrite <- app_assoc; repeat split; simpl; lia.
    + intros [= <- <- <-]. by rewrite Hall.
  - unfold Trim.trimStagesWithClient. rewrite Hcollect. discriminate.
Qed.

(** X20. The test double never rejects a listing command.  A run against
    it ends in a rejection exactly when its failure switch is set and a
    remove-stage command is sent, the command being the last one and the error
    the simulated update failure; with the switch set no run reports
    [trimmed = true], and with the switch clear every finished run returns a
    result. *)
Theorem mock_rejects_only_failing_update
    (fuel : nat) (c c' : Mock.MockSecretsManagerClient) (options : Trim.Options)
    (calls : list Command) (outcome : Mock.MockError + RunResult) :
  Trim.trimStagesWithClient Mock.send fuel c options = Some (c', calls, outcome) →
  (Mock.failOnUpdate c = false → ∃ result, outcome = inr result)
  ∧ (∀ err, outcome = inl err →
       Mock.failOnUpdate c = true
       ∧ err = Mock.MockUpdateError "Update failed (simulated)"
       ∧ ∃ lists stage versionId,
           calls = lists ++ [UpdateSecretVersionStageCommand
                               (Trim.secretId options) stage versionId]
           ∧ filter (λ k, isUpdate k = true) lists = [])
  ∧ (Mock.failOnUpdate c = true →
     ∀ result, outcome = inr result → trimmed result = false).
Proof.
  destruct (collect Mock.send fuel (Trim.secretId options) c)
    as [[[c1 calls1] collected]|] eqn:Hcollect.
  - pose proof (filter_isUpdate_none _ (collect_only_lists _ _ _ _ _ _ _ Hcollect))
      as Hnone.
    pose proof Hcollect as Hstate. unfold collect in Hstate.
    apply Mock_collectLoop_state in Hstate
      as (more & labeled & _ & -> & _ & _ & Hf & _).
    rewrite (trim_after_collect _ _ _ _ _ _ _ Hcollect).
    destruct (candidateOf options labeled) as [candidate|].
    + destruct (dryRunOf options).
      * intros [= <- <- <-]. split; [eauto|]. split; [discriminate|].
        by intros _ result [= <-].
      * unfold removeCommand. cbn [Mock.send Mock.failOnUpdate]. rewrite Hf.
        destruct (Mock.failOnUpdate c); intros [= <- <- <-].
        -- split; [discriminate|]. split; [|by intros _ result [=]].
           intros err [= <-]. split; [reflexivity|]. split; [reflexivity|].
           by eexists calls1, _, _.
        -- split; [eauto|]. split; [discriminate | discriminate].
    + intros [= <- <- <-]. split; [eauto|]. split; [discriminate|].
      by intros _ result [= <-].
  - unfold Trim.trimStagesWithClient. rewrite Hcollect. discriminate.
Qed.

Lemma Mock_pageAt_lookup (c : Mock.MockSecretsManagerClient) (page : Response) :
  Mock.listPages c !! Mock._page c = Some page → Mock.pageAt c = page.
Proof.
  unfold Mock.pageAt. intros Hlook.
  pose proof (lookup_lt_Some _ _ _ Hlook) as Hlt.
  destruct (Mock.listPages c) as [|p ps] eqn:Hpages; [simpl in Hlt; lia|].
  rewrite Nat.min_l by (simpl in *; lia). by rewrite Hlook.
Qed.

Lemma listCalls_normalize (secretId : string) (tok : option string)
    (pages : list Response) :
  listCalls secretId tok (map normalizePage pages) = listCalls secretId tok pages.
Proof. revert tok. induction pages as [|p ps IH]; intros tok; simpl; by rewrite ?IH. Qed.

Lemma labelsOfResponse_normalize (page : Response) :
  labelsOfResponse (normalizePage page) = labelsOfResponse page.
Proof. unfold labelsOfResponse. simpl. by destruct (Versions page). Qed.

Lemma flat_map_labels_normalize (pages : list Response) :
  flat_map labelsOfResponse (map normalizePage pages)
  = flat_map labelsOfResponse pages.
Proof.
  induction pages as [|p ps IH]; [reflexivity|].
  simpl. by rewrite labelsOfResponse_normalize, IH.
Qed.

(** The double hands out its pages in order, one per listing command. *)
Lemma Mock_served (secretId : string) (failOnUpdate : bool) (prefix : list Response) :
  ∀ (served_before rest : list Response) (calls : list Command) (tok : option string),
    served Mock.send secretId
      {| Mock.listPages := served_before ++ prefix ++ rest;
         Mock.failOnUpdate := failOnUpdate;
         Mock.calls := calls; Mock._page := length served_before |}
      tok (map normalizePage prefix)
      {| Mock.listPages := served_before ++ prefix ++ rest;
         Mock.failOnUpdate := failOnUpdate;
         Mock.calls := calls ++ listCalls secretId tok prefix;
         Mock._page := (length served_before + length prefix)%nat |}.
Proof.
  induction prefix as [|page prefix IH]; intros served_before rest calls tok.
  - simpl. rewrite app_nil_r, Nat.add_0_r. reflexivity.
  - cbn [map served].
    eexists. split.
    + unfold Mock.send, listCommand. cbn [Mock.listPages Mock.failOnUpdate Mock.calls
                                           Mock._page].
      rewrite (Mock_pageAt_lookup _ page).
      * reflexivity.
      * cbn [Mock.listPages Mock._page].
        rewrite lookup_app_r by lia. by rewrite Nat.sub_diag.
    + specialize (IH (served_before ++ [page]) rest
                     (calls ++ [ListSecretVersionIdsCommand secretId true tok 100]) (NextToken page)).
      rewrite <- !app_assoc in IH. simpl in IH.
      rewrite length_app in IH. simpl in IH.
      replace (length served_before + 1)%nat with (Datatypes.S (length served_before))
        in IH by lia.
      replace (length served_before + length (page :: prefix))%nat
        with (Datatypes.S (length served_before) + length prefix)%nat
        by (simpl; lia).
      exact IH.
Qed.

(** X21. The test double serves its pages in order and the collector stops
    at the first page without continuation token: it sends one listing command
    per page up to and including that page, the first without token and the
    one after each page with that page's token, returns the labels of all
    versions of exactly those pages, and never requests the pages that
    follow. *)
Theorem mock_collects_up_to_first_tokenless_page
    (secretId : string) (init rest : list Response) (lastp : Response)
    (failOnUpdate : bool) (fuel : nat) :
  allContinue init →
  truthy (NextToken lastp) = false →
  (length init < fuel)%nat →
  let calls := listCalls secretId None (init ++ [lastp]) in
  collect Mock.send fuel secretId (Mock.new (init ++ lastp :: rest) failOnUpdate)
  = Some ({| Mock.listPages := init ++ lastp :: rest;
             Mock.failOnUpdate := failOnUpdate;
             Mock.calls := calls;
             Mock._page := Datatypes.S (length init) |},
          calls,
          inr (labelsOfAllVersions (init ++ [lastp])))
  ∧ length calls = Datatypes.S (length init)
  ∧ calls !! 0%nat = Some (ListSecretVersionIdsCommand secretId true None 100)
  ∧ (∀ (i : nat) (page : Response),
       init !! i = Some page →
       calls !! Datatypes.S i
       = Some (ListSecretVersionIdsCommand secretId true (NextToken page) 100)).
Proof.
  intros Hall Hlast Hfuel calls.
  split; [|split; [|split]].
  2: { unfold calls. rewrite listCalls_length, length_app. simpl. lia. }
  2: { apply listCalls_first. by destruct init. }
  2: { intros i page Hi. by apply listCalls_next. }
  unfold calls. rewrite <- labelsOfResponse_all. clear calls.
  pose proof (Mock_served secretId failOnUpdate (init ++ [lastp]) [] rest [] None)
    as Hserved.
  rewrite <- app_assoc in Hserved. simpl in Hserved.
  rewrite map_app in Hserved. simpl in Hserved.
  rewrite length_app in Hserved. simpl in Hserved.
  replace (length init + 1)%nat with (Datatypes.S (length init)) in Hserved by lia.
  pose proof (collect_all_pages Mock.send secretId (map normalizePage init)
                (normalizePage lastp)
                (Mock.new (init ++ lastp :: rest) failOnUpdate)
                {| Mock.listPages := init ++ lastp :: rest;
                   Mock.failOnUpdate := failOnUpdate;
                   Mock.calls := listCalls secretId None (init ++ [lastp]);
                   Mock._page := Datatypes.S (length init) |}
                fuel) as Hcollect.
  change (map normalizePage init ++ [normalizePage lastp])
    with (map normalizePage init ++ map normalizePage [lastp]) in Hcollect.
  rewrite <- map_app, listCalls_normalize, flat_map_labels_normalize in Hcollect.
  apply Hcollect.
  - unfold allContinue in *. apply Forall_fmap. exact Hall.
  - exact Hlast.
  - rewrite map_app. exact Hserved.
  - rewrite length_map, length_app. simpl. lia.
Qed.

(** ** A threshold input that is not a number *)

Section UnparsedThreshold.
Context {S E : Type}.
Context (send : S → Command → S * (E + Response)).
Context (getInput : string → bool → E + string).
Context (errText : E → string).
Context (newClient : string → S).

(** X22. A threshold input that [parseInt] cannot read does not stop the
    wrapper: the comparison with [NaN] is false, so whenever at least one
    manageable stage was collected and dry-run is off, the run sends a
    remove-stage command for the oldest one, however few stages there are. *)
Theorem trim_run_unparsed_threshold_always_trims
    (fuel : nat) (secretId region thresholdRaw dryRunRaw raw : string)
    (client1 : S) (calls1 : list Command) (labeled : list LabelRecord)
    (e : LabelRecord) :
  getInput "secret-id" true = inr secretId →
  getInput "aws-region" true = inr region →
  getInput "threshold" false = inr thresholdRaw →
  getInput "dry-run" false = inr dryRunRaw →
  getInput "exclude-stages" false = inr raw →
  parseInt (str_or thresholdRaw "18") = NaN →
  String.eqb (toLowerCase (str_or dryRunRaw "false")) "true" = false →
  collect send fuel secretId (newClient region) = Some (client1, calls1, inr labeled) →
  e ∈ labeled →
  stage e ∉ parseExcludeStages (str_or raw "AWSCURRENT,AWSPREVIOUS,AWSPENDING") →
  ∃ candidate core,
    Trim.run send getInput errText newClient fuel
    = Some (calls1 ++ [UpdateSecretVersionStageCommand
                         secretId (stage candidate) (versionId candidate)],
            core)
    ∧ leftmost_oldest
        (Trim.uniqueStages
           (parseExcludeStages (str_or raw "AWSCURRENT,AWSPREVIOUS,AWSPENDING"))
           labeled)
      = Some candidate.
Proof.
  intros Hid Hregion Hthr Hdry Hraw Hnan Hflag Hcollect He Hex.
  unfold Trim.run, Trim.orFail. rewrite Hid, Hregion, Hthr, Hdry, Hraw, Hnan, Hflag.
  set (options := {| Trim.secretId := secretId; Trim.threshold := Some NaN;
                     Trim.excludeStages :=
                       Some (parseExcludeStages
                               (str_or raw "AWSCURRENT,AWSPREVIOUS,AWSPENDING"));
                     Trim.dryRun := Some false |}).
  rewrite (trim_after_collect send fuel (newClient region) client1 options
             calls1 labeled Hcollect).
  assert (Hne : recordsOf (stage e) labeled ≠ []).
  { intros Hnil. assert (Hin : e ∈ recordsOf (stage e) labeled).
    { unfold recordsOf. by apply list_elem_of_filter. }
    rewrite Hnil in Hin. by apply elem_of_nil in Hin. }
  destruct (uniqueStages_latest_first_seen_aux _ labeled (stage e) Hex Hne)
    as (r & Hr & _).
  assert (Hnonempty : Trim.uniqueStages (excludeStagesOf options) labeled ≠ []).
  { intros Hnil. change (excludeStagesOf options)
      with (parseExcludeStages (str_or raw "AWSCURRENT,AWSPREVIOUS,AWSPENDING"))
      in Hnil.
    rewrite Hnil in Hr. by apply elem_of_nil in Hr. }
  destruct (leftmost_oldest_nonempty _ Hnonempty) as [candidate Hcand].
  assert (Hpick : candidateOf options labeled = Some candidate).
  { unfold candidateOf. rewrite pickOldest_unfold. exact Hcand. }
  rewrite Hpick. change (dryRunOf options) with false. cbn iota.
  change (removeCommand options candidate)
    with (UpdateSecretVersionStageCommand secretId (stage candidate)
            (versionId candidate)).
  exists candidate.
  destruct (send client1 _) as [client2 [err|resp]]; eexists; split;
    first [reflexivity | exact Hcand].
Qed.
End UnparsedThreshold.

(** ** The further properties at concrete inputs *)

Lemma trim_commands_shape_witness :
  ∃ lists mutation,
    [ListSecretVersionIdsCommand "my/secret" true None 100;
     ListSecretVersionIdsCommand "my/secret" true (Some "next-1") 100;
     UpdateSecretVersionStageCommand "my/secret" "s1" "v1"]
    = ListSecretVersionIdsCommand (Trim.secretId scenario9_options) true None 100
      :: lists ++ mutation
    ∧ Forall (λ c, ∃ token, token ≠ ""
                   ∧ c = ListSecretVersionIdsCommand
                           (Trim.secretId scenario9_options) true (Some token) 100)
        lists
    ∧ (mutation = []
       ∨ ∃ stage versionId,
           mutation = [UpdateSecretVersionStageCommand
                         (Trim.secretId scenario9_options) stage versionId]).
Proof.
  apply (trim_commands_shape Mock.send 5 scenario9_client scenario9_updated
           scenario9_options
           [ListSecretVersionIdsCommand "my/secret" true None 100;
            ListSecretVersionIdsCommand "my/secret" true (Some "next-1") 100;
            UpdateSecretVersionStageCommand "my/secret" "s1" "v1"]
           (inr {| trimmed := true;
                   removed := Some {| removed_stage := "s1";
                                      removed_versionId := "v1" |};
                   count := 4; manageableCount := 3 |})).
  vm_compute. reflexivity.
Defined.

Lemma trim_result_matches_commands_witness :
  (2 ≤ 3)%nat
  ∧ (true = true →
       ∃ r, Some {| removed_stage := "stage-a"; removed_versionId := "v1" |} = Some r
            ∧ filter (λ c, isUpdate c = true)
                [ListSecretVersionIdsCommand "my/secret" true None 100; scenario8_remove]
              = [UpdateSecretVersionStageCommand
                   (Trim.secretId (scenario8_options false))
                   (removed_stage r) (removed_versionId r)])
  ∧ (true = false →
     filter (λ c, isUpdate c = true)
       [ListSecretVersionIdsCommand "my/secret" true None 100; scenario8_remove] = []).
Proof.
  apply (trim_result_matches_commands Mock.send 5 (scenario8_client false)
           (scenario8_updated false) (scenario8_options false)
           [ListSecretVersionIdsCommand "my/secret" true None 100; scenario8_remove]
           {| trimmed := true;
              removed := Some {| removed_stage := "stage-a";
                                 removed_versionId := "v1" |};
              count := 3; manageableCount := 2 |}).
  vm_compute. reflexivity.
Defined.

Lemma trim_update_target_witness :
  ∃ client1 calls1 labeled e,
    collect Mock.send 5 (Trim.secretId (scenario8_options false))
      (scenario8_client false)
    = Some (client1, calls1, inr labeled)
    ∧ "my/secret" = Trim.secretId (scenario8_options false)
    ∧ e ∈ labeled ∧ stage e = "stage-a" ∧ versionId e = "v1"
    ∧ ("stage-a" ∉ excludeStagesOf (scenario8_options false))
    ∧ (∀ x, x ∈ labeled → stage x = "stage-a" → createdDate x ≤ createdDate e)
    ∧ (∀ x, x ∈ labeled → stage x ∉ excludeStagesOf (scenario8_options false) →
         ∃ y, y ∈ labeled ∧ stage y = stage x ∧ createdDate e ≤ createdDate y).
Proof.
  apply (trim_update_target Mock.send 5 (scenario8_client false)
           (scenario8_updated false) (scenario8_options false)
           [ListSecretVersionIdsCommand "my/secret" true None 100; scenario8_remove]
           (inr {| trimmed := true;
                   removed := Some {| removed_stage := "stage-a";
                                      removed_versionId := "v1" |};
                   count := 3; manageableCount := 2 |})
           "my/secret" "stage-a" "v1").
  - vm_compute. reflexivity.
  - right. left.
Defined.

Lemma trim_nothing_manageable_witness :
  Trim.trimStagesWithClient Mock.send 5 only_current_client negative_threshold_options
  = Some (only_current_listed, [ListSecretVersionIdsCommand "my/secret" true None 100],
          inr {| trimmed := false; removed := None;
                 count := length [mkLabel "AWSCURRENT" "v1" (jan2024 1)];
                 manageableCount := 0 |})
  ∧ filter (λ c, isUpdate c = true) [ListSecretVersionIdsCommand "my/secret" true None 100] = [].
Proof.
  apply (trim_nothing_manageable Mock.send 5 only_current_client only_current_listed
           negative_threshold_options [ListSecretVersionIdsCommand "my/secret" true None 100]
           [mkLabel "AWSCURRENT" "v1" (jan2024 1)]).
  - vm_compute. reflexivity.
  - repeat constructor.
Defined.

Lemma trim_never_returns_on_endless_pagination_witness :
  collect Mock.send 1000 "my/secret" endless_client = None
  ∧ Trim.trimStagesWithClient Mock.send 1000 endless_client scenario9_options = None.
Proof.
  apply (trim_never_returns_on_endless_pagination Mock.send servesEndlessly
           "my/secret").
  - intros [pages f calls n] tok Hpages. unfold servesEndlessly in Hpages.
    simpl in Hpages. subst pages.
    eexists _, _. split; [|split].
    + unfold Mock.send, listCommand, Mock.pageAt.
      cbn [Mock.listPages Mock.failOnUpdate Mock.calls Mock._page length Nat.sub].
      rewrite Nat.min_0_r. reflexivity.
    + reflexivity.
    + reflexivity.
  - reflexivity.
  - reflexivity.
Defined.

Lemma trim_run_reports_once_witness :
  ∃ infos final,
    [info (ManageableStages 2 true); info (RemovedStage "stage-a" "v1");
     setOutput "trimmed" "true"] = infos ++ [final]
    ∧ Forall (λ c, isInfo c = true) infos
    ∧ ((final = setOutput "trimmed" "true"
        ∧ ∃ secretId stage versionId,
            filter (λ c, isUpdate c = true)
              [ListSecretVersionIdsCommand "my/secret" true None 100; scenario8_remove]
            = [UpdateSecretVersionStageCommand secretId stage versionId]
            ∧ info (RemovedStage stage versionId) ∈ infos)
       ∨ (final = setOutput "trimmed" "false"
          ∧ filter (λ c, isUpdate c = true)
              [ListSecretVersionIdsCommand "my/secret" true None 100; scenario8_remove] = [])
       ∨ (∃ message, final = setFailed message ∧ infos = [])).
Proof.
  apply (trim_run_reports_once Mock.send (scenario_inputs "1" "" "") mockErrText
           mockClientScenario8 5).
  vm_compute. reflexivity.
Defined.

Lemma trim_run_respects_exclusions_witness :
  ("stage-b" ∉ parseExcludeStages
                 (str_or padded_exclusions "AWSCURRENT,AWSPREVIOUS,AWSPENDING"))
  ∧ (padded_exclusions = "" →
     "stage-b" ≠ "AWSCURRENT" ∧ "stage-b" ≠ "AWSPREVIOUS" ∧ "stage-b" ≠ "AWSPENDING")
  ∧ (∀ (pieces : list string) (piece name : string),
       padded_exclusions ≠ "" →
       padded_exclusions = joinComma pieces →
       Forall (λ p, hasChar ","%char p = false) pieces →
       piece ∈ pieces →
       name ≠ "" → unpadded name → paddingOf name piece →
       "stage-b" ≠ name).
Proof.
  apply (trim_run_respects_exclusions Mock.send
           (scenario_inputs "0" "" padded_exclusions)
           mockErrText mockClientScenario8 5
           [ListSecretVersionIdsCommand "my/secret" true None 100;
            UpdateSecretVersionStageCommand "my/secret" "stage-b" "v2"]
           [info (ManageableStages 1 true); info (RemovedStage "stage-b" "v2");
            setOutput "trimmed" "true"]
           padded_exclusions "my/secret" "stage-b" "v2").
  - reflexivity.
  - vm_compute. reflexivity.
  - right. left.
Defined.


Lemma indexjs_run_reports_once_witness :
  ∃ infos final,
    [info (FoundManageable 2 (parseExcludeStages "AWSCURRENT"));
     info (ThresholdExceeded 2 (Num 1) "stage-a" "v1" (jan2024 1));
     info (DeprecatedStage "stage-a" "v1");
     setOutput "trimmed" "true"] = infos ++ [final]
    ∧ Forall (λ c, isInfo c = true) infos
    ∧ ((final = setOutput "trimmed" "true"
        ∧ ∃ secretId stage versionId,
            filter (λ c, isUpdate c = true)
              [ListSecretVersionIdsCommand "my/secret" true None 100; scenario8_remove]
            = [UpdateSecretVersionStageCommand secretId stage versionId]
            ∧ info (DeprecatedStage stage versionId) ∈ infos)
       ∨ (final = setOutput "trimmed" "false"
          ∧ filter (λ c, isUpdate c = true)
              [ListSecretVersionIdsCommand "my/secret" true None 100; scenario8_remove] = [])
       ∨ (∃ message, final = setFailed message)).
Proof.
  apply (indexjs_run_reports_once Mock.send (scenario_inputs "1" "" "AWSCURRENT")
           mockErrText mockClientScenario8 mockUndefinedRead 5).
  vm_compute. reflexivity.
Defined.

Lemma indexjs_run_respects_exclusions_witness :
  ("stage-b" ∉ parseExcludeStages padded_exclusions)
  ∧ (∀ (pieces : list string) (piece name : string),
       padded_exclusions = joinComma pieces →
       Forall (λ p, hasChar ","%char p = false) pieces →
       piece ∈ pieces →
       name ≠ "" → unpadded name → paddingOf name piece →
       "stage-b" ≠ name).
Proof.
  apply (indexjs_run_respects_exclusions Mock.send
           (scenario_inputs "0" "" padded_exclusions) mockErrText mockClientScenario8
           mockUndefinedRead 5
           [ListSecretVersionIdsCommand "my/secret" true None 100;
            UpdateSecretVersionStageCommand "my/secret" "stage-b" "v2"]
           [info (FoundManageable 1 (parseExcludeStages padded_exclusions));
            info (ThresholdExceeded 1 (Num 0) "stage-b" "v2" (jan2024 3));
            info (DeprecatedStage "stage-b" "v2");
            setOutput "trimmed" "true"]
           padded_exclusions "my/secret" "stage-b" "v2").
  - reflexivity.
  - vm_compute. reflexivity.
  - right. left.
Defined.

Lemma mock_log_is_the_command_sequence_witness :
  Mock.calls (scenario8_updated false)
  = Mock.calls (scenario8_client false)
    ++ [ListSecretVersionIdsCommand "my/secret" true None 100; scenario8_remove]
  ∧ Mock.listPages (scenario8_updated false) = Mock.listPages (scenario8_client false)
  ∧ Mock.failOnUpdate (scenario8_updated false)
    = Mock.failOnUpdate (scenario8_client false)
  ∧ Mock._page (scenario8_updated false)
    = (Mock._page (scenario8_client false)
       + length (filter (λ k, isList k = true)
                   [ListSecretVersionIdsCommand "my/secret" true None 100; scenario8_remove]))%nat.
Proof.
  apply (mock_log_is_the_command_sequence 5 (scenario8_client false)
           (scenario8_updated false) (scenario8_options false)
           [ListSecretVersionIdsCommand "my/secret" true None 100; scenario8_remove]
           (inr {| trimmed := true;
                   removed := Some {| removed_stage := "stage-a";
                                      removed_versionId := "v1" |};
                   count := 3; manageableCount := 2 |})).
  vm_compute. reflexivity.
Defined.

Lemma mock_rejects_only_failing_update_witness :
  (Mock.failOnUpdate (scenario8_client true) = false →
   ∃ result,
     @inl Mock.MockError RunResult (Mock.MockUpdateError "Update failed (simulated)")
     = inr result)
  ∧ (∀ err,
       @inl Mock.MockError RunResult (Mock.MockUpdateError "Update failed (simulated)")
       = inl err →
       Mock.failOnUpdate (scenario8_client true) = true
       ∧ err = Mock.MockUpdateError "Update failed (simulated)"
       ∧ ∃ lists stage versionId,
           [ListSecretVersionIdsCommand "my/secret" true None 100; scenario8_remove]
           = lists ++ [UpdateSecretVersionStageCommand
                         (Trim.secretId (scenario8_options false)) stage versionId]
           ∧ filter (λ k, isUpdate k = true) lists = [])
  ∧ (Mock.failOnUpdate (scenario8_client true) = true →
     ∀ result,
       @inl Mock.MockError RunResult (Mock.MockUpdateError "Update failed (simulated)")
       = inr result →
       trimmed result = false).
Proof.
  apply (mock_rejects_only_failing_update 5 (scenario8_client true)
           (scenario8_updated true) (scenario8_options false)
           [ListSecretVersionIdsCommand "my/secret" true None 100; scenario8_remove]
           (inl (Mock.MockUpdateError "Update failed (simulated)"))).
  vm_compute. reflexivity.
Defined.

Lemma mock_collects_up_to_first_tokenless_page_witness :
  let calls := listCalls "my/secret" None ([scenario9_page1] ++ [scenario9_page2]) in
  collect Mock.send 5 "my/secret"
    (Mock.new ([scenario9_page1] ++ scenario9_page2 :: [scenario8_page]) false)
  = Some ({| Mock.listPages := [scenario9_page1] ++ scenario9_page2 :: [scenario8_page];
             Mock.failOnUpdate := false;
             Mock.calls := calls;
             Mock._page := 2 |},
          calls,
          inr (labelsOfAllVersions ([scenario9_page1] ++ [scenario9_page2])))
  ∧ length calls = 2%nat
  ∧ calls !! 0%nat = Some (ListSecretVersionIdsCommand "my/secret" true None 100)
  ∧ (∀ (i : nat) (page : Response),
       [scenario9_page1] !! i = Some page →
       calls !! Datatypes.S i
       = Some (ListSecretVersionIdsCommand "my/secret" true (NextToken page) 100)).
Proof.
  apply (mock_collects_up_to_first_tokenless_page "my/secret" [scenario9_page1]
           [scenario8_page] scenario9_page2 false 5).
  - repeat constructor.
  - reflexivity.
  - simpl. lia.
Defined.

Lemma trim_run_unparsed_threshold_always_trims_witness :
  ∃ candidate core,
    Trim.run Mock.send (scenario_inputs "many" "" "") mockErrText mockClientFor 5
    = Some ([ListSecretVersionIdsCommand "my/secret" true None 100]
            ++ [UpdateSecretVersionStageCommand
                  "my/secret" (stage candidate) (versionId candidate)],
            core)
    ∧ leftmost_oldest
        (Trim.uniqueStages
           (parseExcludeStages (str_or "" "AWSCURRENT,AWSPREVIOUS,AWSPENDING"))
           [mkLabel "AWSCURRENT" "v1" (jan2024 1); mkLabel "custom" "v2" (jan2024 2)])
      = Some candidate.
Proof.
  apply (trim_run_unparsed_threshold_always_trims Mock.send
           (scenario_inputs "many" "" "") mockErrText mockClientFor 5
           "my/secret" "eu-west-1" "many" "" ""
           {| Mock.listPages := [current_and_custom_page]; Mock.failOnUpdate := false;
              Mock.calls := [ListSecretVersionIdsCommand "my/secret" true None 100]; Mock._page := 1 |}
           [ListSecretVersionIdsCommand "my/secret" true None 100]
           [mkLabel "AWSCURRENT" "v1" (jan2024 1); mkLabel "custom" "v2" (jan2024 2)]
           (mkLabel "custom" "v2" (jan2024 2)));
    try reflexivity.
  - right. left.
  - vm_compute. intros H. discriminate H.
Defined.
